(** * Sensei-AI realtime voice session engine: a shallow embedding

    The development follows the four React components that each own a
    realtime voice session (LiveSensei, OralEvaluator, VoiceCoder,
    GoalCollector), the process-wide [SenseiCodeGuardian] with the
    [GuardianAgent] error boundary that consults it, and the parts of the
    application around the sessions: the planner, the handlers of [App]
    that start a topic, merge progress and generate resources, and the
    progress figure of the exam portal.

    Conventions.
    - JavaScript numbers are the rationals [Q] they denote.  The
      arithmetic whose rounding matters ([+=] on the playback offset,
      the quotient and product behind a percentage) goes through
      [Js.double], the round-to-nearest-even of IEEE 754 binary64;
      comparisons, [Math.min] and [Math.round] are exact on doubles,
      and so are the delays of the retry timers on the small counts
      they are computed from.  Infinity and NaN are not values of the
      model: a statement about sums assumes that none overflows.
    - Counters ([retryCount], [recoveryAttempts]) are [nat]; wall-clock
      milliseconds ([Date.now()]) are [Z].
    - JavaScript strings are [string]; [toLowerCase] is the ASCII
      case mapping, which is what JavaScript computes on a string of
      ASCII characters ([Js.isAscii]).
    - A thrown exception is the [Throw] branch of [result]; a
      [try {..} catch(e) {}] block maps it back to a value.
    - Objects with identity (audio source nodes) live in a heap
      [gmap nat Node]; the JavaScript [Set] of sources is the list of
      their addresses in insertion order. *)

From Stdlib Require Import QArith Qminmax Qpower Qabs Qround Lqa Ascii String.
From Stdlib Require Strings.Byte.
From stdpp Require Import gmap strings list pretty.

Local Open Scope Q_scope.

(** ** JavaScript values shared by the four components *)

Module Js.

(** Outcome of code that may throw. *)
Inductive result (E A : Type) : Type :=
| Ok (a : A)
| Throw (e : E).
Arguments Ok {E A} a.
Arguments Throw {E A} e.

Definition bind {E A B} (r : result E A) (k : A → result E B) : result E B :=
  match r with
  | Ok a => k a
  | Throw e => Throw e
  end.

(** [s.includes(sub)] *)
Fixpoint includes (sub s : string) : bool :=
  if String.prefix sub s then true
  else match s with
       | EmptyString => false
       | String _ s' => includes sub s'
       end.

Definition lowerAscii (c : ascii) : ascii :=
  let n := nat_of_ascii c in
  if ((65 <=? n)%nat && (n <=? 90)%nat)%bool then ascii_of_nat (n + 32) else c.

(** A string of ASCII characters only. *)
Definition isAscii (s : string) : bool :=
  forallb (λ c, (nat_of_ascii c <? 128)%nat) (list_ascii_of_string s).

(** [s.toLowerCase()] on a string of ASCII characters; outside ASCII
    JavaScript also maps letters this function leaves alone. *)
Fixpoint toLowerCase (s : string) : string :=
  match s with
  | EmptyString => EmptyString
  | String c s' => String (lowerAscii c) (toLowerCase s')
  end.

(** A caught value [e]: [e.name], [e.message] (the empty string when the
    property is absent, which [||] and [?.] treat alike for the tests
    the code performs) and [String(e)]. *)
Record Error := {
  name : string;
  message : string;
  text : string;
}.

(** [new Error(msg)] *)
Definition newError (msg : string) : Error :=
  {| name := "Error"; message := msg; text := "Error: " +:+ msg |}.

(** [a || b] on strings: the empty string is falsy. *)
Definition orElse (a b : string) : string :=
  if String.eqb a "" then b else a.

(** *** Numbers

    A finite double is a rational; an operation of the code is the exact
    operation followed by rounding to the nearest double, ties to the
    even significand. *)

(** The binade of a positive rational: [2 ^ e <= q < 2 ^ (e + 1)]. *)
Definition binade (q : Q) : Z :=
  let e := (Z.log2 (Qnum q) - Z.log2 (Z.pos (Qden q)))%Z in
  if Qle_bool (2 ^ e) q then e else (e - 1)%Z.

(** The spacing of the doubles around a positive [q]: 53 significant
    bits, and one spacing for everything below [2 ^ -1022]. *)
Definition ulp (q : Q) : Q := 2 ^ (Z.max (binade q) (-1022) - 52).

(** The integer nearest to [m], the even one of two equally near. *)
Definition nearestEven (m : Q) : Z :=
  let f := Qfloor m in
  match Qcompare (m - inject_Z f) (1 # 2) with
  | Lt => f
  | Gt => (f + 1)%Z
  | Eq => if Z.even f then f else (f + 1)%Z
  end.

Definition nearest (q : Q) : Q := inject_Z (nearestEven (q / ulp q)) * ulp q.

(** The double nearest to [q], as a fraction in lowest terms. *)
Definition double (q : Q) : Q :=
  Qred match Qnum q with
       | Z0 => 0
       | Zpos _ => nearest q
       | Zneg _ => - nearest (- q)
       end.

(** [x] is the value of a double: rounding leaves it alone.  The range
    is not part of the test; statements bound the values they add by
    [MAX_VALUE], beyond which the code would compute [Infinity]. *)
Definition isDouble (x : Q) : Prop := double x == x.

(** [x + y], [x * y], [x / y] on doubles, [y] not zero in the last. *)
Definition add (x y : Q) : Q := double (x + y).
Definition mul (x y : Q) : Q := double (x * y).
Definition div (x y : Q) : Q := double (x / y).

(** [Number.MAX_VALUE] *)
Definition MAX_VALUE : Q := (2 ^ 53 - 1) * 2 ^ 971.

(** A non-negative double spelled out: an integer of at most 53 bits
    scaled by a power of two no finer than the smallest subnormal. *)
Definition representable (x : Q) : Prop :=
  ∃ n k : Z, (0 ≤ n ≤ 2 ^ 53)%Z ∧ (-1074 ≤ k)%Z ∧ x == inject_Z n * 2 ^ k.

(** The most one operation is off when its exact result is between 0
    and [M]: at most half the spacing of the doubles at [M]. *)
Definition roundingError (M : Q) : Q := Qmax (M * 2 ^ (-53)) (2 ^ (-1075)).

(** A reading of a clock or a duration: a double that is not negative. *)
Definition isTime (x : Q) : Prop := isDouble x ∧ 0 <= x.

Arguments double : simpl never.
Arguments add : simpl never.
Arguments mul : simpl never.
Arguments div : simpl never.

End Js.

Import Js.

(** ** Audio output: the playback scheduler state kept in refs *)

Inductive CtxState := Running | Suspended | Closed.

Inductive NodeState :=
| Created
| Started (when : Q)
| Stopped.

(** An [AudioBufferSourceNode]: its buffer's duration and play state. *)
Record Node := {
  duration : Q;
  state : NodeState;
}.

Record AudioOut := {
  outputContext : option CtxState;   (* outputContextRef.current *)
  nextStartTime : Q;                 (* nextStartTimeRef.current *)
  sources : list nat;                (* sourcesRef.current *)
  nodes : gmap nat Node;             (* the source nodes created so far *)
  allocated : nat;                   (* next fresh node address *)
}.

(** [sourcesRef.current.add(source)] *)
Definition setAdd (x : nat) (s : list nat) : list nat :=
  if decide (x ∈ s) then s else s ++ [x].

(** [sourcesRef.current.delete(source)] *)
Definition setDelete (x : nat) (s : list nat) : list nat :=
  filter (λ y, y ≠ x) s.

(** [if (nextStartTimeRef.current < now) nextStartTimeRef.current = now;] *)
Definition clampToNow (now : Q) (a : AudioOut) : Q :=
  if Qlt_le_dec (nextStartTime a) now then now else nextStartTime a.

(** The audio branch of [onmessage] after the buffer is decoded:
<<
   const source = ctx.createBufferSource(); source.buffer = buffer;
   const now = ctx.currentTime;
   if (nextStartTimeRef.current < now) nextStartTimeRef.current = now;
   source.start(nextStartTimeRef.current);
   nextStartTimeRef.current += buffer.duration;
   sourcesRef.current.add(source);
>>
   Returns the time handed to [source.start]. *)
Definition enqueue (now dur : Q) (a : AudioOut) : Q * AudioOut :=
  let id := allocated a in
  let start := clampToNow now a in
  (start,
   {| outputContext := outputContext a;
      nextStartTime := Js.add start dur;
      sources := setAdd id (sources a);
      nodes := <[id := {| duration := dur; state := Started start |}]> (nodes a);
      allocated := S id |}).

(** [source.onended = () => sourcesRef.current.delete(source)] *)
Definition onended (id : nat) (a : AudioOut) : AudioOut :=
  {| outputContext := outputContext a;
     nextStartTime := nextStartTime a;
     sources := setDelete id (sources a);
     nodes := nodes a;
     allocated := allocated a |}.

(** [s.stop()]: an [InvalidStateError] unless [start] was called. *)
Definition stop (id : nat) (h : gmap nat Node) : result string (gmap nat Node) :=
  match h !! id with
  | Some n =>
      match state n with
      | Created => Throw "InvalidStateError"
      | Started _ | Stopped => Ok (<[id := {| duration := duration n; state := Stopped |}]> h)
      end
  | None => Throw "InvalidStateError"
  end.

(** What a node is after one guarded [stop]: a node that was never
    started stays as it is (the call threw), any other is stopped. *)
Definition halt (n : Node) : Node :=
  match state n with
  | Created => n
  | Started _ | Stopped => {| duration := duration n; state := Stopped |}
  end.

(** [try { s.stop(); } catch(e) {}] *)
Definition tryStop (h : gmap nat Node) (id : nat) : gmap nat Node :=
  match stop id h with
  | Ok h' => h'
  | Throw _ => h
  end.

(** [sourcesRef.current.forEach(s => { try { s.stop(); } catch(e) {} })] *)
Definition stopAll (ids : list nat) (h : gmap nat Node) : gmap nat Node :=
  foldl tryStop h ids.

(** The [interrupted] branch of [onmessage]:
<<
   sourcesRef.current.forEach(s => { try { s.stop(); } catch(e) {} });
   sourcesRef.current.clear();
   nextStartTimeRef.current = 0;
>> *)
Definition interrupt (a : AudioOut) : AudioOut :=
  {| outputContext := outputContext a;
     nextStartTime := 0;
     sources := [];
     nodes := stopAll (sources a) (nodes a);
     allocated := allocated a |}.

(** One scheduling step as the scheduler saw it: the offset it found,
    the clock reading and the buffer's duration, the time it handed to
    [source.start], the node it created as the step left it, and the
    offset it stored. *)
Record Step := {
  offsetBefore : Q;
  arrival : Q;
  length_ : Q;
  startAt : Q;
  source : option Node;
  offsetAfter : Q;
}.

(** Feeding chunks [(now, duration)] in arrival order. *)
Fixpoint trace (a : AudioOut) (chunks : list (Q * Q)) : list Step :=
  match chunks with
  | [] => []
  | (now, dur) :: rest =>
      let '(start, a') := enqueue now dur a in
      {| offsetBefore := nextStartTime a; arrival := now; length_ := dur;
         startAt := start; source := nodes a' !! allocated a;
         offsetAfter := nextStartTime a' |} :: trace a' rest
  end.

Definition freshAudio : AudioOut :=
  {| outputContext := Some Running; nextStartTime := 0; sources := [];
     nodes := ∅; allocated := 0 |}.

(** ** The session components *)

Inductive Variant := LiveSensei | OralEvaluator | VoiceCoder | GoalCollector.

(** [fc.args as any]: a JavaScript object read by property name. *)
Abbreviation Args := (gmap string string).

Record FunctionCall := {
  fc_id : string;
  fc_name : string;
  fc_args : option Args;           (* [args] is optional on the wire *)
}.

(** One entry of [functionResponses] handed to [sendToolResponse]. *)
Record FunctionResponse := {
  fr_id : string;
  fr_name : string;
  fr_result : string;
}.

(** What [decodeAudioData(base64ToUint8Array(audioData), ctx)] resolves
    to: a buffer of some duration, or a rejection. *)
Inductive Decoded :=
| Buffer (dur : Q)
| Malformed.

(** [msg.toolCall]; its [functionCalls] is optional on the wire. *)
Record ToolCall := {
  functionCalls : option (list FunctionCall);
}.

Record Message := {
  toolCall : option ToolCall;              (* msg.toolCall *)
  audioData : option Decoded;              (* the inline audio part, if any *)
  interrupted : bool;                      (* msg.serverContent?.interrupted *)
}.

(** Calls into the parent and into display-only state. *)
Inductive UiAction :=
| OnProgressUpdate (a : option Args)
| SetCurrentResource (type title content : option string)
| SetCurrentQuestion (q opts num : option string)
| SetSelectedOptionNull
| SetIsUpdating (b : bool)
| SetCodeState (code : option string)
| SetLastExplanation (s : string)
| OnGoalCaptured (topic : option string).

Inductive TimerAction :=
| BumpRetry                              (* () => setRetryCount(c => c + 1) *)
| ClearUpdating                          (* () => { if (mounted) setIsUpdating(false); } *)
| CaptureGoal (topic : option string).   (* () => { if (mounted) onGoalCaptured(topic); } *)

(** One call [setTimeout(action, delay)], delay in milliseconds. *)
Record Timer := {
  delay : Q;
  action : TimerAction;
}.

Inductive TrackState := Live | Ended.

Inductive ChanState := ChanOpen | ChanClosed.

(** The component: React state, the effects it has had on its parent,
    its refs, and the browser resources it has touched. *)
Record Component := {
  connected : bool;
  status : string;
  error : option string;
  retryCount : nat;
  ui : list UiAction;
  inputContext : option CtxState;          (* inputContextRef.current *)
  audio : AudioOut;
  streamRef : option nat;                  (* streamRef.current *)
  connectedRef : bool;
  streams : gmap nat (list TrackState);    (* every MediaStream handed out *)
  gumCalls : nat;                          (* calls of getUserMedia so far *)
  timers : list Timer;                     (* setTimeout calls so far, oldest first *)
}.

(** The variables one run of the effect closes over. *)
Record Run := {
  mounted : bool;
  seen : nat;                              (* [retryCount] as rendered *)
  channel : option ChanState;              (* [sessionPromise], once connect was called *)
  outbox : list FunctionResponse;          (* [sendToolResponse] calls, oldest first *)
}.

Record Env := {
  apiKey : bool;                           (* process.env.API_KEY is set *)
  mediaDevices : bool;                     (* navigator.mediaDevices.getUserMedia exists *)
}.

Definition newRun (n : nat) : Run :=
  {| mounted := true; seen := n; channel := None; outbox := [] |}.

Definition initialComponent (v : Variant) : Component :=
  {| connected := false;
     status := match v with
               | LiveSensei => "Initializing Sensei..."
               | OralEvaluator => "Initializing Evaluator..."
               | VoiceCoder => "Initializing Lab..."
               | GoalCollector => "Connecting to Sensei..."
               end;
     error := None; retryCount := 0; ui := [];
     inputContext := None;
     audio := {| outputContext := None; nextStartTime := 0; sources := [];
                 nodes := ∅; allocated := 0 |};
     streamRef := None; connectedRef := false; streams := ∅; gumCalls := 0;
     timers := [] |}.

(** *** Field updates *)

Definition setConnected (b : bool) (c : Component) : Component :=
  {| connected := b; status := status c; error := error c; retryCount := retryCount c;
     ui := ui c; inputContext := inputContext c; audio := audio c; streamRef := streamRef c;
     connectedRef := connectedRef c; streams := streams c; gumCalls := gumCalls c;
     timers := timers c |}.

Definition setStatus (s : string) (c : Component) : Component :=
  {| connected := connected c; status := s; error := error c; retryCount := retryCount c;
     ui := ui c; inputContext := inputContext c; audio := audio c; streamRef := streamRef c;
     connectedRef := connectedRef c; streams := streams c; gumCalls := gumCalls c;
     timers := timers c |}.

Definition setError (e : option string) (c : Component) : Component :=
  {| connected := connected c; status := status c; error := e; retryCount := retryCount c;
     ui := ui c; inputContext := inputContext c; audio := audio c; streamRef := streamRef c;
     connectedRef := connectedRef c; streams := streams c; gumCalls := gumCalls c;
     timers := timers c |}.

Definition setRetryCount (f : nat → nat) (c : Component) : Component :=
  {| connected := connected c; status := status c; error := error c;
     retryCount := f (retryCount c);
     ui := ui c; inputContext := inputContext c; audio := audio c; streamRef := streamRef c;
     connectedRef := connectedRef c; streams := streams c; gumCalls := gumCalls c;
     timers := timers c |}.

Definition act (u : UiAction) (c : Component) : Component :=
  {| connected := connected c; status := status c; error := error c; retryCount := retryCount c;
     ui := ui c ++ [u]; inputContext := inputContext c; audio := audio c;
     streamRef := streamRef c; connectedRef := connectedRef c; streams := streams c;
     gumCalls := gumCalls c; timers := timers c |}.

Definition setInputContext (x : option CtxState) (c : Component) : Component :=
  {| connected := connected c; status := status c; error := error c; retryCount := retryCount c;
     ui := ui c; inputContext := x; audio := audio c; streamRef := streamRef c;
     connectedRef := connectedRef c; streams := streams c; gumCalls := gumCalls c;
     timers := timers c |}.

Definition setAudio (a : AudioOut) (c : Component) : Component :=
  {| connected := connected c; status := status c; error := error c; retryCount := retryCount c;
     ui := ui c; inputContext := inputContext c; audio := a; streamRef := streamRef c;
     connectedRef := connectedRef c; streams := streams c; gumCalls := gumCalls c;
     timers := timers c |}.

Definition setStreamRef (x : option nat) (c : Component) : Component :=
  {| connected := connected c; status := status c; error := error c; retryCount := retryCount c;
     ui := ui c; inputContext := inputContext c; audio := audio c; streamRef := x;
     connectedRef := connectedRef c; streams := streams c; gumCalls := gumCalls c;
     timers := timers c |}.

Definition setConnectedRef (b : bool) (c : Component) : Component :=
  {| connected := connected c; status := status c; error := error c; retryCount := retryCount c;
     ui := ui c; inputContext := inputContext c; audio := audio c; streamRef := streamRef c;
     connectedRef := b; streams := streams c; gumCalls := gumCalls c;
     timers := timers c |}.

Definition setStreams (m : gmap nat (list TrackState)) (c : Component) : Component :=
  {| connected := connected c; status := status c; error := error c; retryCount := retryCount c;
     ui := ui c; inputContext := inputContext c; audio := audio c; streamRef := streamRef c;
     connectedRef := connectedRef c; streams := m; gumCalls := gumCalls c;
     timers := timers c |}.

Definition callGetUserMedia (c : Component) : Component :=
  {| connected := connected c; status := status c; error := error c; retryCount := retryCount c;
     ui := ui c; inputContext := inputContext c; audio := audio c; streamRef := streamRef c;
     connectedRef := connectedRef c; streams := streams c; gumCalls := S (gumCalls c);
     timers := timers c |}.

Definition setTimeout (a : TimerAction) (d : Q) (c : Component) : Component :=
  {| connected := connected c; status := status c; error := error c; retryCount := retryCount c;
     ui := ui c; inputContext := inputContext c; audio := audio c; streamRef := streamRef c;
     connectedRef := connectedRef c; streams := streams c; gumCalls := gumCalls c;
     timers := timers c ++ [{| delay := d; action := a |}] |}.

Definition setMounted (b : bool) (r : Run) : Run :=
  {| mounted := b; seen := seen r; channel := channel r; outbox := outbox r |}.

Definition setChannel (x : option ChanState) (r : Run) : Run :=
  {| mounted := mounted r; seen := seen r; channel := x; outbox := outbox r |}.

(** [sessionPromise.then(s => s.sendToolResponse({ functionResponses: [x] }))];
    the promise has resolved whenever a message is being handled. *)
Definition sendToolResponse (x : FunctionResponse) (r : Run) : Run :=
  {| mounted := mounted r; seen := seen r; channel := channel r; outbox := outbox r ++ [x] |}.

Definition setOutputContext (x : option CtxState) (a : AudioOut) : AudioOut :=
  {| outputContext := x; nextStartTime := nextStartTime a; sources := sources a;
     nodes := nodes a; allocated := allocated a |}.

Definition setNodes (h : gmap nat Node) (a : AudioOut) : AudioOut :=
  {| outputContext := outputContext a; nextStartTime := nextStartTime a; sources := sources a;
     nodes := h; allocated := allocated a |}.

(** *** Retry delays *)

(** [Math.min(1000 * Math.pow(1.5, retryCount), 10000)] *)
Definition backoff (n : nat) : Q := Qmin (1000 * (3 # 2) ^ Z.of_nat n) 10000.

(** [Math.min(2000 * Math.pow(2, retryCount), 30000)] *)
Definition backoffSetup (n : nat) : Q := Qmin (2000 * 2 ^ Z.of_nat n) 30000.

(** [Math.round(x)] *)
Definition round (x : Q) : Z := Qfloor (x + (1 # 2)).

(** *** Channel callbacks *)

(** The status [onopen] sets.  LiveSensei is taken as rendered without
    the optional props [repoContext] and [examContext]; with one of them
    it shows 'Repo Explainer Active' or 'Exam Session Live' instead. *)
Definition liveStatus (v : Variant) : string :=
  match v with
  | LiveSensei => "Sensei is Live"
  | OralEvaluator => "Evaluator Active"
  | VoiceCoder => "Sensei is ready"
  | GoalCollector => "Listening..."
  end.

(** [onopen] *)
Definition onopen (v : Variant) (r : Run) (c : Component) : Component :=
  if mounted r then
    setRetryCount (λ _, 0%nat)
      (setStatus (liveStatus v) (setConnectedRef true (setConnected true c)))
  else c.

Definition closedStatus (v : Variant) : string :=
  match v with
  | LiveSensei => "Session Paused"
  | OralEvaluator => "Session Closed"
  | VoiceCoder => "Session Disconnected"
  | GoalCollector => "Disconnected"
  end.

(** [onclose] *)
Definition onclose (v : Variant) (r : Run) (c : Component) : Component :=
  if mounted r then
    setStatus (closedStatus v) (setConnectedRef false (setConnected false c))
  else c.

(** [onerror]; [errStr] is [String(e)]. *)
Definition onerror (v : Variant) (errStr : string) (r : Run) (c : Component) : Component :=
  if negb (mounted r) then c else
  match v with
  | LiveSensei =>
      let c := setConnectedRef false (setConnected false c) in
      if includes "not implemented" errStr || includes "not supported" errStr
         || includes "404" errStr
      then setError (Some "Voice Model Unavailable in Region.") c
      else
        let isNetworkError :=
          includes "Network error" errStr || includes "Failed to fetch" errStr
          || includes "503" errStr || includes "Internal error" errStr in
        if isNetworkError && (seen r <? 5)%nat then
          let delay := backoff (seen r) in
          setTimeout BumpRetry delay
            (setStatus ("Network glitch. Retrying in " +:+ pretty (round (delay / 1000)) +:+ "s...") c)
        else if (seen r <? 3)%nat then
          setTimeout BumpRetry 2000 (setStatus "Reconnecting..." c)
        else setError (Some "Connection Lost. Please check network.") c
  | OralEvaluator =>
      let c := setConnectedRef false (setConnected false c) in
      let isNetworkError :=
        includes "Network error" errStr || includes "Failed to fetch" errStr
        || includes "Internal error occurred" errStr in
      if isNetworkError then
        if (seen r <? 5)%nat then
          setTimeout BumpRetry 2000 (setStatus "Network unstable. Retrying..." c)
        else
          setError (Some "Sensei is unable to connect. Please check your internet connection.") c
      else if (seen r <? 3)%nat then
        setTimeout BumpRetry 2000 (setStatus "Connection unstable. Retrying..." c)
      else setError (Some "Internal connection error. Please try again.") c
  | VoiceCoder =>
      let isNetworkError :=
        includes "Network error" errStr || includes "Failed to fetch" errStr
        || includes "503" errStr || includes "Internal error" errStr in
      if isNetworkError && (seen r <? 5)%nat then
        let delay := backoff (seen r) in
        setTimeout BumpRetry delay
          (setStatus ("Connection unstable. Retrying in " +:+ pretty (round (delay / 1000)) +:+ "s...") c)
      else if (seen r <? 3)%nat then
        setTimeout BumpRetry 2000 (setStatus "Reconnecting..." c)
      else setError (Some "Connection failed. Please check your network.") c
  | GoalCollector =>
      let c := setConnectedRef false (setConnected false c) in
      if includes "not implemented" errStr || includes "not supported" errStr
         || includes "404" errStr
      then setError (Some "The AI Voice Model is not available. Please check your API key project settings.") c
      else if (includes "Internal error" errStr || includes "Network error" errStr
               || includes "Failed to fetch" errStr || includes "503" errStr)
              && (seen r <? 5)%nat
      then
        setTimeout BumpRetry (1500 * inject_Z (Z.of_nat (seen r + 1)))
          (setStatus "Network glitch. Auto-reconnecting..." c)
      else if (seen r <? 3)%nat then
        setTimeout BumpRetry 2000 (setStatus "Reconnecting..." c)
      else setError (Some "Connection failed. Please check your network.") c
  end.

(** *** Tool calls *)

(** The names in [tools: [{ functionDeclarations: [...] }]] of the
    connect configuration. *)
Definition declaredTools (v : Variant) : list string :=
  match v with
  | LiveSensei => ["update_progress"; "generate_resource"]
  | OralEvaluator => ["display_question"]
  | VoiceCoder => ["update_editor"]
  | GoalCollector => ["set_topic"]
  end.

(** Reading a property of [undefined]. *)
Definition typeError : Error :=
  {| name := "TypeError";
     message := "Cannot read properties of undefined";
     text := "TypeError: Cannot read properties of undefined" |}.

Definition respond (fc : FunctionCall) (res : string) : FunctionResponse :=
  {| fr_id := fc_id fc; fr_name := fc_name fc; fr_result := res |}.

(** What an exception inside the message handler leaves behind: the
    value thrown and the state reached when it was thrown (the handler
    is [async], the rejection is not observed by anyone). *)
Abbreviation Thrown := (Error * (Run * Component))%type.

(** The body of [for (const fc of msg.toolCall.functionCalls)]. *)
Definition handleCall (v : Variant) (fc : FunctionCall) (rc : Run * Component)
  : result Thrown (Run * Component) :=
  let '(r, c) := rc in
  match v with
  | LiveSensei =>
      if String.eqb (fc_name fc) "update_progress" then
        let c := if mounted r then act (OnProgressUpdate (fc_args fc)) c else c in
        Ok (sendToolResponse (respond fc "ok") r, c)
      else if String.eqb (fc_name fc) "generate_resource" then
        if mounted r then
          match fc_args fc with
          | None => Throw (typeError, (r, c))
          | Some a =>
              Ok (sendToolResponse (respond fc "resource_displayed") r,
                  act (SetCurrentResource (a !! "type") (a !! "title") (a !! "content")) c)
          end
        else Ok (sendToolResponse (respond fc "resource_displayed") r, c)
      else Ok (r, c)
  | OralEvaluator =>
      if String.eqb (fc_name fc) "display_question" then
        match fc_args fc with
        | None => Throw (typeError, (r, c))
        | Some a =>
            let c :=
              if mounted r then
                act SetSelectedOptionNull
                  (act (SetCurrentQuestion (a !! "question") (a !! "options")
                          (a !! "questionNumber")) c)
              else c in
            Ok (sendToolResponse (respond fc "displayed") r, c)
        end
      else Ok (r, c)
  | VoiceCoder =>
      if String.eqb (fc_name fc) "update_editor" then
        match fc_args fc with
        | None => Throw (typeError, (r, c))
        | Some a =>
            let c :=
              if mounted r then
                setTimeout ClearUpdating 1500
                  (act (SetLastExplanation
                          (orElse (default "" (a !! "explanation")) "Code updated"))
                     (act (SetCodeState (a !! "code")) (act (SetIsUpdating true) c)))
              else c in
            Ok (sendToolResponse (respond fc "ok") r, c)
        end
      else Ok (r, c)
  | GoalCollector =>
      if String.eqb (fc_name fc) "set_topic" then
        match fc_args fc with
        | None => Throw (typeError, (r, c))
        | Some a =>
            if mounted r then
              Ok (sendToolResponse (respond fc "ok") r,
                  setTimeout (CaptureGoal (a !! "topic")) 500 c)
            else Ok (r, c)
        end
      else Ok (r, c)
  end.

Fixpoint handleCalls (v : Variant) (fcs : list FunctionCall) (rc : Run * Component)
  : result Thrown (Run * Component) :=
  match fcs with
  | [] => Ok rc
  | fc :: rest => bind (handleCall v fc rc) (handleCalls v rest)
  end.

(** *** The branches of the dispatcher, one aspect at a time

    [m] is the closure's [mounted] when the call is handled. *)

(** The branch taken for the call reads a property of [fc.args]: the
    destructuring at the head of the branches of [display_question],
    [update_editor] and [set_topic], and [args.type] under [if (mounted)]
    for [generate_resource]; [update_progress] hands [args] on unread. *)
Definition readsArgs (v : Variant) (m : bool) (fc : FunctionCall) : bool :=
  match v with
  | LiveSensei => String.eqb (fc_name fc) "generate_resource" && m
  | OralEvaluator => String.eqb (fc_name fc) "display_question"
  | VoiceCoder => String.eqb (fc_name fc) "update_editor"
  | GoalCollector => String.eqb (fc_name fc) "set_topic"
  end.

(** The call makes its branch throw: the branch reads [args] and the
    call carries none. *)
Definition throws (v : Variant) (m : bool) (fc : FunctionCall) : bool :=
  readsArgs v m fc && bool_decide (fc_args fc = None).

(** The branch taken for the call reaches a [sendToolResponse]: every
    branch does, GoalCollector's under [if (mounted)]. *)
Definition answered (v : Variant) (m : bool) (fc : FunctionCall) : bool :=
  existsb (String.eqb (fc_name fc)) (declaredTools v)
  && match v with
     | GoalCollector => m
     | _ => true
     end.

(** The [result] of the response. *)
Definition resultText (v : Variant) (fc : FunctionCall) : string :=
  match v with
  | LiveSensei =>
      if String.eqb (fc_name fc) "generate_resource" then "resource_displayed" else "ok"
  | OralEvaluator => "displayed"
  | VoiceCoder | GoalCollector => "ok"
  end.

(** The statements the branch taken for the call runs under
    [if (mounted)], the response apart: the handler of the tool. *)
Definition handler (v : Variant) (fc : FunctionCall) (c : Component) : Component :=
  let arg k := fc_args fc ≫= (λ a : Args, a !! k) in
  match v with
  | LiveSensei =>
      if String.eqb (fc_name fc) "update_progress" then
        act (OnProgressUpdate (fc_args fc)) c
      else if String.eqb (fc_name fc) "generate_resource" then
        act (SetCurrentResource (arg "type") (arg "title") (arg "content")) c
      else c
  | OralEvaluator =>
      if String.eqb (fc_name fc) "display_question" then
        act SetSelectedOptionNull
          (act (SetCurrentQuestion (arg "question") (arg "options") (arg "questionNumber")) c)
      else c
  | VoiceCoder =>
      if String.eqb (fc_name fc) "update_editor" then
        setTimeout ClearUpdating 1500
          (act (SetLastExplanation (orElse (default "" (arg "explanation")) "Code updated"))
             (act (SetCodeState (arg "code")) (act (SetIsUpdating true) c)))
      else c
  | GoalCollector =>
      if String.eqb (fc_name fc) "set_topic" then
        setTimeout (CaptureGoal (arg "topic")) 500 c
      else c
  end.

(** A rejected [decodeAudioData]. *)
Definition decodeError : Error :=
  {| name := "EncodingError"; message := "Unable to decode audio data";
     text := "EncodingError: Unable to decode audio data" |}.

(** The audio branch, guarded by [audioData && outputContextRef.current]. *)
Definition handleAudio (now : Q) (msg : Message) (rc : Run * Component)
  : result Thrown (Run * Component) :=
  let '(r, c) := rc in
  match audioData msg, outputContext (audio c) with
  | Some d, Some _ =>
      match d with
      | Malformed => Throw (decodeError, (r, c))
      | Buffer dur => Ok (r, setAudio (snd (enqueue now dur (audio c))) c)
      end
  | _, _ => Ok (r, c)
  end.

(** [if (msg.serverContent?.interrupted) {...}]; OralEvaluator has no
    such branch. *)
Definition handleInterrupted (v : Variant) (msg : Message) (c : Component) : Component :=
  match v with
  | OralEvaluator => c
  | LiveSensei | VoiceCoder | GoalCollector =>
      if interrupted msg then setAudio (interrupt (audio c)) c else c
  end.

(** Iterating [undefined]. *)
Definition notIterable : Error :=
  {| name := "TypeError";
     message := "msg.toolCall.functionCalls is not iterable";
     text := "TypeError: msg.toolCall.functionCalls is not iterable" |}.

(** [if (msg.toolCall) { for (const fc of msg.toolCall.functionCalls) {..} }] *)
Definition handleToolCall (v : Variant) (msg : Message) (rc : Run * Component)
  : result Thrown (Run * Component) :=
  match toolCall msg with
  | Some tc =>
      match functionCalls tc with
      | Some fcs => handleCalls v fcs rc
      | None => Throw (notIterable, rc)
      end
  | None => Ok rc
  end.

(** [onmessage]; [now] is the reading of [ctx.currentTime] the audio
    branch takes.  The handler runs to completion: the wait for
    [decodeAudioData] is not interleaved with other callbacks. *)
Definition onmessage (v : Variant) (now : Q) (msg : Message) (r : Run) (c : Component)
  : result Thrown (Run * Component) :=
  bind (handleToolCall v msg (r, c))
    (λ rc, bind (handleAudio now msg rc)
             (λ rc', Ok (fst rc', handleInterrupted v msg (snd rc')))).

(** The [ended] event of a source node; OralEvaluator registers no
    [onended] handler. *)
Definition sourceEnded (v : Variant) (id : nat) (c : Component) : Component :=
  match v with
  | OralEvaluator => c
  | LiveSensei | VoiceCoder | GoalCollector => setAudio (onended id (audio c)) c
  end.

(** A timer callback firing, in the closure [r] that scheduled it, while
    the component is still in the tree. *)
Definition fire (t : TimerAction) (r : Run) (c : Component) : Component :=
  match t with
  | BumpRetry => setRetryCount S c
  | ClearUpdating => if mounted r then act (SetIsUpdating false) c else c
  | CaptureGoal topic => if mounted r then act (OnGoalCaptured topic) c else c
  end.

(** *** Starting a session *)

(** The test in the [catch] around [getUserMedia]. *)
Definition isPermissionError (e : Error) : bool :=
  let errName := orElse (name e) "" in
  let errMsg := orElse (message e) (text e) in
  String.eqb errName "NotAllowedError"
  || String.eqb errName "PermissionDeniedError"
  || String.eqb errName "SecurityError"
  || includes "permission denied" (toLowerCase errMsg)
  || includes "denied" (toLowerCase errMsg)
  || includes "blocked" (toLowerCase errMsg).

(** What that [catch] rethrows. *)
Definition rethrowMicError (e : Error) : Error :=
  if isPermissionError e then newError "MICROPHONE_DENIED" else e.

Definition startingStatus (v : Variant) (n : nat) : string :=
  if (0 <? n)%nat then "Connecting (Attempt " +:+ pretty (n + 1)%nat +:+ ")..."
  else match v with
       | LiveSensei => "Initializing Sensei..."
       | OralEvaluator => "Initializing Evaluator..."
       | VoiceCoder | GoalCollector => "Connecting to Sensei..."
       end.

(** The outer [catch (err)] of [startSession]. *)
Definition startSession_catch (v : Variant) (err : Error) (r : Run) (c : Component)
  : Component :=
  if negb (mounted r) then c
  else if String.eqb (message err) "MICROPHONE_DENIED" then
    setError (Some "MICROPHONE_DENIED") c
  else if includes "Microphone access denied" (message err)
          || String.eqb (name err) "NotAllowedError" then
    setError (Some "MICROPHONE_DENIED") c
  else
    match v with
    | LiveSensei | VoiceCoder =>
        let errStr := orElse (message err) (text err) in
        let isNetworkError :=
          includes "Network error" errStr || includes "Failed to fetch" errStr in
        if isNetworkError && (seen r <? 5)%nat then
          let delay := backoff (seen r) in
          setTimeout BumpRetry delay
            (setStatus ("Network unstable. Retrying in " +:+ pretty (round (delay / 1000)) +:+ "s...") c)
        else if (seen r <? 3)%nat then setTimeout BumpRetry 2000 c
        else setError (Some match v with
                            | LiveSensei => "Connection Failed"
                            | _ => "Network Error"
                            end) c
    | OralEvaluator =>
        let isNetworkError :=
          includes "Network error" (message err) || includes "Failed to fetch" (message err) in
        let isUnavailable :=
          includes "unavailable" (toLowerCase (message err))
          || includes "503" (message err) || includes "Internal error" (message err)
          || isNetworkError in
        let maxRetries := if isUnavailable then 6%nat else 3%nat in
        if (seen r <? maxRetries)%nat then
          let delay := backoffSetup (seen r) in
          setTimeout BumpRetry delay
            (setStatus (if isUnavailable
                        then "Network unstable. Retrying in " +:+ pretty (Qfloor (delay / 1000)) +:+ "s..."
                        else "Network error. Retrying...") c)
        else setError (Some (orElse (message err) "Network Error")) c
    | GoalCollector =>
        let errStr := orElse (message err) (text err) in
        if includes "not implemented" errStr || includes "not supported" errStr then
          setError (Some "The AI Voice Model is not available. Please check your API key project settings.") c
        else if (seen r <? 3)%nat then
          setTimeout BumpRetry (1000 * inject_Z (Z.of_nat (seen r + 1)))
            (setStatus "Connection error. Retrying..." c)
        else setError (Some (orElse (message err) "Failed to connect.")) c
    end.

(** Reading [getUserMedia] of an absent [navigator.mediaDevices]. *)
Definition noMediaDevices : Error :=
  {| name := "TypeError";
     message := "Cannot read properties of undefined (reading 'getUserMedia')";
     text := "TypeError: Cannot read properties of undefined (reading 'getUserMedia')" |}.

(** [startSession] up to the wait for [getUserMedia]: either the request
    is issued or an earlier [throw] lands in the outer [catch].  Only
    GoalCollector tests for [navigator.mediaDevices]; in the others the
    call itself throws inside the inner [try], whose [catch] rethrows. *)
Definition startSession (v : Variant) (env : Env) (r : Run) (c : Component)
  : Run * Component :=
  let c := setStatus (startingStatus v (seen r)) (setError None c) in
  let c := match v with
           | VoiceCoder => setConnectedRef false (setConnected false c)
           | _ => c
           end in
  if negb (apiKey env) then (r, startSession_catch v (newError "API Key missing") r c)
  else
    match v, mediaDevices env with
    | GoalCollector, false =>
        (r, startSession_catch v
              (newError "Microphone access is not supported in this browser or context. Please use HTTPS.")
              r c)
    | _, false => (r, startSession_catch v (rethrowMicError noMediaDevices) r c)
    | _, true => (r, callGetUserMedia c)
    end.

(** [track.stop()] on every track of stream [sid]. *)
Definition stopTracks (sid : nat) (m : gmap nat (list TrackState)) : gmap nat (list TrackState) :=
  alter (fmap (λ _, Ended)) sid m.

(** [if (ctx && ctx.state !== 'closed') ctx.close()] *)
Definition closeContext (x : option CtxState) : option CtxState :=
  match x with
  | Some Running | Some Suspended => Some Closed
  | other => other
  end.

(** The continuation of [startSession] when [getUserMedia] resolves with
    the stream object [sid] carrying [tracks].  The set-up that follows
    the permission (closing the previous contexts, creating and resuming
    the new ones, wiring the processor, [ai.live.connect]) is taken as
    one step that does not throw. *)
Definition startSession_granted (v : Variant) (sid : nat) (tracks : list TrackState)
  (r : Run) (c : Component) : Run * Component :=
  let c := setStreams (<[sid := tracks]> (streams c)) c in
  if negb (mounted r) then (r, setStreams (stopTracks sid (streams c)) c)
  else
    let c := setStreamRef (Some sid) c in
    let c := match v with
             | VoiceCoder => c
             | _ => setConnectedRef false (setConnected false c)
             end in
    let c := setInputContext (Some Running) c in
    let c := setAudio (setOutputContext (Some Running) (audio c)) c in
    (setChannel (Some ChanOpen) r, c).

(** The continuation when [getUserMedia] rejects with [e]. *)
Definition startSession_rejected (v : Variant) (e : Error) (r : Run) (c : Component)
  : Run * Component :=
  (r, startSession_catch v (rethrowMicError e) r c).

(** *** Teardown: the function returned by the effect *)

Definition stopsSourcesOnCleanup (v : Variant) : bool :=
  match v with
  | LiveSensei | GoalCollector => true
  | OralEvaluator | VoiceCoder => false
  end.

Definition cleanup (v : Variant) (r : Run) (c : Component) : Run * Component :=
  let r := setMounted false r in
  let c := setConnectedRef false c in
  let c := setInputContext (closeContext (inputContext c)) c in
  let c := setAudio (setOutputContext (closeContext (outputContext (audio c))) (audio c)) c in
  let c := match streamRef c with
           | Some sid => setStreamRef None (setStreams (stopTracks sid (streams c)) c)
           | None => c
           end in
  let c := if stopsSourcesOnCleanup v
           then setAudio (setNodes (stopAll (sources (audio c)) (nodes (audio c))) (audio c)) c
           else c in
  match channel r with
  | Some _ => (setChannel (Some ChanClosed) r, setConnectedRef false c)   (* cleanupSession() *)
  | None => (r, c)
  end.

(** *** Re-rendering *)

(** [handleManualRetry] *)
Definition handleManualRetry (c : Component) : Component :=
  setRetryCount (λ _, 0%nat) (setError None c).

(** React compares the dependency array [[retryCount]] of the effect with
    the one of the render that created the current run ([Object.is]).
    OralEvaluator's array is [[topic, retryCount]]; the prop [topic] is
    taken as the same in every render, so that the retry count alone
    decides there too. *)
Definition depsChanged (r : Run) (c : Component) : bool :=
  negb (seen r =? retryCount c)%nat.

(** After a state update: when a dependency changed, the previous run's
    teardown executes and the effect starts a new run; otherwise the
    effect is left alone. *)
Definition commit (v : Variant) (env : Env) (r : Run) (c : Component) : Run * Component :=
  if depsChanged r c then
    let c' := snd (cleanup v r c) in
    startSession v env (newRun (retryCount c')) c'
  else (r, c).

(** First render. *)
Definition mount (v : Variant) (env : Env) : Run * Component :=
  startSession v env (newRun 0) (initialComponent v).

(** *** Events of a session *)

(** What can happen to the current run. *)
Inductive Event :=
| PermissionGranted (sid : nat) (tracks : list TrackState)
| PermissionRejected (e : Error)
| ChannelOpen
| ChannelClose
| ChannelError (errStr : string)
| ChannelMessage (now : Q) (msg : Message)
| TimerFired (t : TimerAction)
| RetryClicked.

(** The state the message handler leaves, whether it returned or threw. *)
Definition outcome (res : result Thrown (Run * Component)) : Run * Component :=
  match res with
  | Ok rc => rc
  | Throw (_, rc) => rc
  end.

(** The callback an event reaches. *)
Definition handle (v : Variant) (ev : Event) (r : Run) (c : Component) : Run * Component :=
  match ev with
  | PermissionGranted sid tracks => startSession_granted v sid tracks r c
  | PermissionRejected e => startSession_rejected v e r c
  | ChannelOpen => (r, onopen v r c)
  | ChannelClose => (r, onclose v r c)
  | ChannelError errStr => (r, onerror v errStr r c)
  | ChannelMessage now msg => outcome (onmessage v now msg r c)
  | TimerFired t => (r, fire t r c)
  | RetryClicked => (r, handleManualRetry c)
  end.

(** One turn of the event loop: the callback, then the re-render. *)
Definition step (v : Variant) (env : Env) (ev : Event) (rc : Run * Component)
  : Run * Component :=
  let '(r, c) := handle v ev rc.1 rc.2 in commit v env r c.

(** A history of events, each stamped with the wall-clock time in
    milliseconds at which it occurs.  No callback of the components reads
    that clock, so the stamp takes no part in the step. *)
Fixpoint play (v : Variant) (env : Env) (history : list (Z * Event)) (rc : Run * Component)
  : Run * Component :=
  match history with
  | [] => rc
  | (_, ev) :: rest => play v env rest (step v env ev rc)
  end.

(** ** SenseiCodeGuardian: the decaying recovery budget *)

Module Guardian.

Record SenseiCodeGuardian := {
  recoveryAttempts : nat;
  lastErrorTime : Z;              (* milliseconds, as [Date.now()] *)
}.

Definition MAX_RECOVERIES : nat := 5.

(** Field initialisers of the class. *)
Definition instance : SenseiCodeGuardian :=
  {| recoveryAttempts := 0; lastErrorTime := 0 |}.

(** [shouldAttemptRecovery()], with [now = Date.now()]. *)
Definition shouldAttemptRecovery (now : Z) (g : SenseiCodeGuardian)
  : bool * SenseiCodeGuardian :=
  let attempts :=
    if (60000 <? now - lastErrorTime g)%Z then 0%nat else recoveryAttempts g in
  ((attempts <? MAX_RECOVERIES)%nat,
   {| recoveryAttempts := attempts; lastErrorTime := now |}).

(** [recordRecovery()] *)
Definition recordRecovery (g : SenseiCodeGuardian) : SenseiCodeGuardian :=
  {| recoveryAttempts := S (recoveryAttempts g); lastErrorTime := lastErrorTime g |}.

Inductive Reaction := SilentRecovery | HardReset.

(** [GuardianAgent.componentDidCatch]: one error reaching the guardian
    at time [now]. *)
Definition componentDidCatch (now : Z) (g : SenseiCodeGuardian)
  : Reaction * SenseiCodeGuardian :=
  let '(ok, g') := shouldAttemptRecovery now g in
  if ok then (SilentRecovery, recordRecovery g') else (HardReset, g').

End Guardian.

(** ** PCM codec *)

Module Codec.

(** Modelled from the spec: the "audio buffer" that [decode] returns in
    section 4.1, tagged with sample rate and channel count;
    [services/audio-utils] is not among the sources. *)
Record AudioBuffer := {
  samples : list Q;
  sampleRate : Z;
  numberOfChannels : Z;
}.

(** Modelled from the spec: the DecodeError of sections 4.1 and 7, whose
    only cause is input of odd length. *)
Inductive DecodeError := OddLength.

(** Modelled from the spec: "clamps out-of-range inputs" to the sample
    range [-1, 1] of section 4.1. *)
Definition clamp (s : Q) : Q := Qmax (-1) (Qmin 1 s).

(** Modelled from the spec: the step from a scaled sample to the "16-bit
    signed integer" of section 4.1; the fraction is dropped. *)
Definition truncate (q : Q) : Z :=
  if Qlt_le_dec q 0 then Qceiling q else Qfloor q.

(** Modelled from the spec: the sample conversion of
    [services/audio-utils] ([createPcmBlob]), which is not among the
    sources.  "maps each sample to a 16-bit signed integer via linear
    scaling and clamps out-of-range inputs rather than wrapping": the
    sample is clamped to [-1, 1], scaled by 2^15 and kept inside the
    signed 16-bit range. *)
Definition quantize (s : Q) : Z :=
  Z.min 32767 (truncate (clamp s * 32768)).

(** Modelled from the spec: one byte of the "signed-16-bit little-endian
    byte encoding" of section 2, from and to its value. *)
Definition byteOfZ (z : Z) : Byte.byte :=
  default Byte.x00 (Byte.of_N (Z.to_N (z mod 256))).

(** Modelled from the spec: the value of a wire byte. *)
Definition zOfByte (b : Byte.byte) : Z := Z.of_N (Byte.to_N b).

(** Modelled from the spec: "16-bit PCM little-endian wire encoding"
    (section 6) of one signed integer, low byte first. *)
Definition int16ToBytes (v : Z) : list Byte.byte :=
  let u := (v mod 65536)%Z in
  [byteOfZ (u mod 256); byteOfZ (u / 256)].

(** Modelled from the spec: the signed integer two wire bytes stand
    for. *)
Definition bytesToInt16 (lo hi : Byte.byte) : Z :=
  let u := (zOfByte lo + 256 * zOfByte hi)%Z in
  if (u <? 32768)%Z then u else (u - 65536)%Z.

(** Modelled from the spec: [encode] of section 4.1, the byte payload
    [createPcmBlob] builds from a capture frame; the function is not
    among the sources. *)
Definition encode (xs : list Q) : list Byte.byte :=
  flat_map (λ s, int16ToBytes (quantize s)) xs.

(** Modelled from the spec: the samples of [decode], two bytes each,
    scaled back by 2^15; a byte left over is the malformed input of
    section 4.1. *)
Fixpoint decodeSamples (bs : list Byte.byte) : result DecodeError (list Q) :=
  match bs with
  | [] => Ok []
  | [_] => Throw OddLength
  | lo :: hi :: rest =>
      bind (decodeSamples rest)
        (λ ys, Ok (inject_Z (bytesToInt16 lo hi) / 32768 :: ys))
  end.

(** Modelled from the spec: [decode(bytes, sampleRate, channelCount)]
    of section 4.1 ([decodeAudioData], not among the sources): "the
    exact inverse, reconstructing float samples and tagging the buffer
    with the given sample rate/channel count"; "malformed (odd-length,
    for 16-bit data) input ... fails with a DecodeError". *)
Definition decode (bs : list Byte.byte) (rate channels : Z) : result DecodeError AudioBuffer :=
  bind (decodeSamples bs)
    (λ ys, Ok {| samples := ys; sampleRate := rate; numberOfChannels := channels |}).

(** Modelled from the spec: "the resolution of 16-bit quantization" of
    section 8, one step of a signed 16-bit integer on the sample scale. *)
Definition resolution : Q := 1 # 32768.

End Codec.

(** The shape the audio branch keeps its refs in: no source is in the set
    twice, every source in the set is a node on which [start] was called,
    and node addresses below [allocated] are the only ones in use. *)
Definition tracked (a : AudioOut) : Prop :=
  NoDup (sources a)
  ∧ (∀ id, id ∈ sources a → ∃ n, nodes a !! id = Some n ∧ state n ≠ Created)
  ∧ (∀ id, is_Some (nodes a !! id) → (id < allocated a)%nat).

(** The durations of a list of chunks, added up. *)
Definition totalDuration (chunks : list (Q * Q)) : Q :=
  foldr (λ ch acc, ch.2 + acc) 0 chunks.

(** ** Microphone capture *)

(** What [processor.onaudioprocess] and its promise continuation keep:
    the mute ref, the blobs whose [sessionPromise.then] continuation has
    not run yet, and the blobs handed to [sendRealtimeInput]. *)
Record Capture (B : Type) := {
  micActiveRef : bool;
  queued : list B;
  sentFrames : list B;
}.
Arguments micActiveRef {B} _.
Arguments queued {B} _.
Arguments sentFrames {B} _.

(** [processor.onaudioprocess]; [createPcmBlob] comes from
    [services/audio-utils] and is taken as a parameter:
<<
   if (!micActiveRef.current || !connectedRef.current) return;
   const blob = createPcmBlob(e.inputBuffer.getChannelData(0));
   sessionPromise.then(s => { if (connectedRef.current) s.sendRealtimeInput({ media: blob }); })
>> *)
Definition onaudioprocess {B} (createPcmBlob : list Q → B) (inputData : list Q)
  (c : Component) (k : Capture B) : Capture B :=
  if negb (micActiveRef k) || negb (connectedRef c) then k
  else {| micActiveRef := micActiveRef k;
          queued := queued k ++ [createPcmBlob inputData];
          sentFrames := sentFrames k |}.

(** The queued continuations run, in order, once [sessionPromise] has
    resolved; each tests [connectedRef.current] again. *)
Definition deliver {B} (c : Component) (k : Capture B) : Capture B :=
  {| micActiveRef := micActiveRef k;
     queued := [];
     sentFrames := sentFrames k ++ (if connectedRef c then queued k else []) |}.

(** ** GuardianAgent: the error boundary around the application *)

Module GuardianAgent.

Record State := {
  hasError : bool;
  isRecovering : bool;
  resetKey : nat;
}.

(** The boundary, the guardian it shares, and what it has asked of its
    surroundings: calls of [props.onReset] and 800 ms recovery timers. *)
Record Agent := {
  state : State;
  guardian : Guardian.SenseiCodeGuardian;
  resets : nat;
  recoveryTimers : nat;
}.

Definition mounted : Agent :=
  {| state := {| hasError := false; isRecovering := false; resetKey := 0 |};
     guardian := Guardian.instance; resets := 0; recoveryTimers := 0 |}.

(** [static getDerivedStateFromError]: [{ hasError: true }] merged into
    the state. *)
Definition getDerivedStateFromError (s : State) : State :=
  {| hasError := true; isRecovering := isRecovering s; resetKey := resetKey s |}.

(** [performSilentRecovery], up to the timer it starts. *)
Definition performSilentRecovery (a : Agent) : Agent :=
  {| state := {| hasError := hasError (state a); isRecovering := true;
                 resetKey := resetKey (state a) |};
     guardian := Guardian.recordRecovery (guardian a);
     resets := resets a;
     recoveryTimers := S (recoveryTimers a) |}.

(** [componentDidCatch]; [onReset] tells whether the prop is given. *)
Definition componentDidCatch (onReset : bool) (now : Z) (a : Agent) : Agent :=
  let '(ok, g) := Guardian.shouldAttemptRecovery now (guardian a) in
  let a := {| state := state a; guardian := g; resets := resets a;
              recoveryTimers := recoveryTimers a |} in
  if ok then performSilentRecovery a
  else if onReset then
    {| state := {| hasError := false; isRecovering := false;
                   resetKey := resetKey (state a) + 1 |};
       guardian := guardian a; resets := S (resets a);
       recoveryTimers := recoveryTimers a |}
  else a.

(** The callback of the recovery timer. *)
Definition recoveryTimer (a : Agent) : Agent :=
  {| state := {| hasError := false; isRecovering := false;
                 resetKey := resetKey (state a) + 1 |};
     guardian := guardian a; resets := resets a; recoveryTimers := recoveryTimers a |}.

(** A render error of a child at time [now]: React derives the state,
    then calls [componentDidCatch]. *)
Definition crash (onReset : bool) (now : Z) (a : Agent) : Agent :=
  componentDidCatch onReset now
    {| state := getDerivedStateFromError (state a); guardian := guardian a;
       resets := resets a; recoveryTimers := recoveryTimers a |}.

(** [render] shows the children unless [hasError || isRecovering]. *)
Definition showsChildren (a : Agent) : bool :=
  negb (hasError (state a) || isRecovering (state a)).

End GuardianAgent.

(** The guardian meeting errors at the given times, one after the other. *)
Fixpoint reactions (times : list Z) (g : Guardian.SenseiCodeGuardian)
  : list Guardian.Reaction :=
  match times with
  | [] => []
  | now :: rest =>
      (Guardian.componentDidCatch now g).1 :: reactions rest (Guardian.componentDidCatch now g).2
  end.

(** ** The application around the sessions *)

Module App.

(** [findIndex]; [None] stands for -1. *)
Fixpoint findIndex {A} (f : A → bool) (l : list A) : option nat :=
  match l with
  | [] => None
  | x :: rest => if f x then Some 0%nat else S <$> findIndex f rest
  end.

(** A value used as a condition: [undefined] and the empty string are
    falsy. *)
Definition truthy (x : option string) : bool :=
  match x with
  | Some s => negb (String.eqb s "")
  | None => false
  end.

(** [updateProgress]: [setProgress(prev => ({ ...prev, ...newProgress }))];
    a learning progress is the object with the keys [topic], [subtopic],
    [percentage], [lastPoint] and whatever else a caller spreads in. *)
Definition updateProgress (newProgress : option Args) (prev : gmap string string)
  : gmap string string :=
  default ∅ newProgress ∪ prev.

(** The effect that files the current progress under its topic:
<<
   if (progress.topic && user.isLoggedIn)
     setLearningPaths(prev => {
       const existingIndex = prev.findIndex(p => p.topic === progress.topic);
       if (existingIndex >= 0) { newPaths = [...prev]; newPaths[existingIndex] = progress; }
       else newPaths = [...prev, progress];
       return newPaths; });
>> *)
Definition syncLearningPaths (progress : gmap string string) (isLoggedIn : bool)
  (prev : list (gmap string string)) : list (gmap string string) :=
  if truthy (progress !! "topic") && isLoggedIn then
    match findIndex (λ p, bool_decide (p !! "topic" = progress !! "topic")) prev with
    | Some existingIndex => <[existingIndex := progress]> prev
    | None => prev ++ [progress]
    end
  else prev.

End App.

(** ** The planner *)

Module Planner.

(** The parsed answer of the model, which follows the response schema:
    [data.topic], and [data.lessons] as an array of objects when present. *)
Record SyllabusData := {
  topic : option string;
  lessons : option (list (gmap string string));
}.

(** One round trip [ai.models.generateContent] followed by
    [JSON.parse(cleanJson(...))]: it throws, or yields the data. *)
Inductive Attempt :=
| Rejects (e : Error)
| Answers (data : SyllabusData).

(** [data.lessons.map((l, i) => ({ ...l, status: i === 0 ? 'active' : 'pending' }))] *)
Definition markStatus (ls : list (gmap string string)) : list (gmap string string) :=
  imap (λ i l, <["status" := if (i =? 0)%nat then "active" else "pending"]> l) ls.

(** The loop [for (let attempt = 0; attempt < 3; attempt++)] with [left]
    rounds to go; the second component counts the round trips made. *)
Fixpoint attempts (left attempt : nat) (ai : nat → Attempt) : result Error SyllabusData * nat :=
  match left with
  | 0%nat => (Throw (newError "Failed to generate syllabus"), attempt)
  | S left' =>
      match ai attempt with
      | Answers data =>
          match lessons data with
          | Some (l :: ls) =>
              (Ok {| topic := topic data; lessons := Some (markStatus (l :: ls)) |}, S attempt)
          | _ => attempts left' (S attempt) ai
          end
      | Rejects e =>
          if (attempt =? 2)%nat then (Throw e, S attempt) else attempts left' (S attempt) ai
      end
  end.

(** [generateSyllabus]: [getAI()] throws without a key, then the loop. *)
Definition generateSyllabus (apiKey : bool) (ai : nat → Attempt)
  : result Error SyllabusData * nat :=
  if negb apiKey then (Throw (newError "API Key missing"), 0%nat) else attempts 3 0 ai.

End Planner.

Module Navigation.

Inductive Page :=
| LOGIN | ABOUT | DASHBOARD | TEACHER | VOICE_CODING | ASSESSMENT | GOAL_INTAKE
| RESOURCES | EXAM | REPO_EXPLAINER | CAREER | READINESS.

(** The part of the application state [startNewTopic] writes. *)
Record AppState := {
  page : Page;
  progress : gmap string string;
  syllabus : option Planner.SyllabusData;
  isGenerating : bool;
}.

Definition progressOf (topic subtopic lastPoint : option string) : gmap string string :=
  let put k (v : option string) (m : gmap string string) :=
    match v with Some x => <[k := x]> m | None => m end in
  put "topic" topic (put "subtopic" subtopic (<["percentage" := "0"]> (put "lastPoint" lastPoint ∅))).

(** The syllabus used when the planner fails. *)
Definition fallbackSyllabus (topic : string) : Planner.SyllabusData :=
  {| Planner.topic := Some topic;
     Planner.lessons := Some
       [ {[ "id" := "1"; "title" := "Introduction"; "keyConcepts" := "Basics";
            "status" := "active" ]};
         {[ "id" := "2"; "title" := "Core Concepts"; "keyConcepts" := "Fundamentals";
            "status" := "pending" ]};
         {[ "id" := "3"; "title" := "Practice"; "keyConcepts" := "Application";
            "status" := "pending" ]} ] |}.

(** [startNewTopic], the handler GoalCollector reaches through
    [onGoalCaptured]; the state when its promise settles. *)
Definition startNewTopic (apiKey : bool) (ai : nat → Planner.Attempt) (topic : string)
  (st : AppState) : AppState :=
  match (Planner.generateSyllabus apiKey ai).1 with
  | Ok syllabusData =>
      {| page := DASHBOARD;
         progress :=
           progressOf (Planner.topic syllabusData)
             (Some (orElse (default "" (head (default [] (Planner.lessons syllabusData))
                                         ≫= (.!! "title")))
                      "Introduction"))
             (Some "Start of course");
         syllabus := Some syllabusData;
         isGenerating := false |}
  | Throw _ =>
      {| page := DASHBOARD;
         progress := progressOf (Some topic) (Some "Introduction") (Some "Start");
         syllabus := Some (fallbackSyllabus topic);
         isGenerating := false |}
  end.

End Navigation.

(** ** The states a session goes through *)

(** The first render; then a callback of the current run, or of a run
    whose teardown has already executed, each followed by the re-render;
    and the [ended] event of a source node. *)
Inductive reachable (v : Variant) (env : Env) : Run * Component → Prop :=
| reach_mount : reachable v env (mount v env)
| reach_step ev rc : reachable v env rc → reachable v env (step v env ev rc)
| reach_stale ev r' rc :
    reachable v env rc → mounted r' = false →
    reachable v env (commit v env rc.1 (handle v ev r' rc.2).2)
| reach_ended id rc : reachable v env rc → reachable v env (rc.1, sourceEnded v id rc.2).

(** The ref [connectedRef] is set only while the state [connected] is. *)
Definition agree (c : Component) : Prop := connectedRef c = true → connected c = true.

(** What a callback did to the timers: nothing, or one retry whose delay
    in milliseconds lies in the given range. *)
Definition retried (lo hi : Q) (c c' : Component) : Prop :=
  timers c' = timers c
  ∨ ∃ d, timers c' = timers c ++ [{| delay := d; action := BumpRetry |}]
         ∧ lo <= d ∧ d <= hi ∧ error c' = error c.

(** Errors that each arrive at most 60 seconds after the one before,
    the first at most 60 seconds after [last]. *)
Fixpoint closelySpaced (last : Z) (times : list Z) : Prop :=
  match times with
  | [] => True
  | now :: rest => (now - last ≤ 60000)%Z ∧ closelySpaced now rest
  end.

(** ** The exam portal *)

Module ExamPortal.

(** [examData.subjects]: subjects, their chapters, and the ids of the
    topics of each chapter. *)
Abbreviation Subjects := (list (list (list string))).

(** The body of the innermost [forEach]:
    [total++; if (completedTopics.includes(top.id)) completed++;] *)
Definition count (completedTopics : list string) (acc : nat * nat) (top : string)
  : nat * nat :=
  (S acc.1, if bool_decide (top ∈ completedTopics) then S acc.2 else acc.2).

(** The three nested [forEach] loops over [(total, completed)]. *)
Definition tally (completedTopics : list string) (subjects : Subjects) : nat * nat :=
  foldl (λ acc sub, foldl (λ acc chap, foldl (count completedTopics) acc chap) acc sub)
    (0%nat, 0%nat) subjects.

(** [calculateProgress]; the two counters are exact as long as they
    stay below [2 ^ 53]. *)
Definition calculateProgress (examData : option Subjects) (completedTopics : list string) : Z :=
  match examData with
  | None => 0
  | Some subjects =>
      let '(total, completed) := tally completedTopics subjects in
      if (total =? 0)%nat then 0%Z
      else round (Js.mul (Js.div (inject_Z (Z.of_nat completed)) (inject_Z (Z.of_nat total)))
                    100)
  end.

End ExamPortal.

(** ** Generated study resources *)

Module Resources.

Inductive ResourceType := NOTES | MIND_MAP | QUIZ | SLIDES | CHEAT_SHEET.

Definition titlePrefix (type : ResourceType) : string :=
  match type with
  | NOTES => "Deep Dive Notes"
  | MIND_MAP => "Mind Map"
  | QUIZ => "Question Bank"
  | CHEAT_SHEET => "Cheat Sheet"
  | SLIDES => "Presentation Slides"
  end.

Record Resource := {
  type : ResourceType;
  title : string;
  content : string;
}.

(** One round trip [ai.models.generateContent]: it rejects, or resolves
    with [response.text] (the empty string when there is none). *)
Inductive Reply :=
| Rejects (e : Error)
| Replies (text : string).

(** The state [handleGenerateResource] works on, and what it has asked of
    its surroundings: [alert] calls, waits in milliseconds, round trips. *)
Record Generation := {
  isGenerating : bool;
  currentResource : option Resource;
  alerts : list string;
  sleeps : list Q;
  roundTrips : nat;
}.

Definition setIsGenerating (b : bool) (g : Generation) : Generation :=
  {| isGenerating := b; currentResource := currentResource g; alerts := alerts g;
     sleeps := sleeps g; roundTrips := roundTrips g |}.

Definition setCurrentResource (x : Resource) (g : Generation) : Generation :=
  {| isGenerating := isGenerating g; currentResource := Some x; alerts := alerts g;
     sleeps := sleeps g; roundTrips := roundTrips g |}.

Definition alert (msg : string) (g : Generation) : Generation :=
  {| isGenerating := isGenerating g; currentResource := currentResource g;
     alerts := alerts g ++ [msg]; sleeps := sleeps g; roundTrips := roundTrips g |}.

Definition sleep (ms : Q) (g : Generation) : Generation :=
  {| isGenerating := isGenerating g; currentResource := currentResource g;
     alerts := alerts g; sleeps := sleeps g ++ [ms]; roundTrips := roundTrips g |}.

Definition asked (g : Generation) : Generation :=
  {| isGenerating := isGenerating g; currentResource := currentResource g;
     alerts := alerts g; sleeps := sleeps g; roundTrips := S (roundTrips g) |}.

(** The message chosen in the [catch] once the retries are used up. *)
Definition userMessage (e : Error) : string :=
  let errString := orElse (message e) (text e) in
  if includes "Rpc failed" errString || includes "xhr error" errString
     || includes "Network error" errString || includes "fetch" errString
  then "Network connection failed. Please check your internet connection and try again."
  else if includes "429" errString then "Too many requests. Please wait a moment."
  else if includes "404" errString || includes "not implemented" errString
  then "Model unavailable in your region. Please try again later."
  else "Could not generate resource. Please try again.".

(** The [try] block: the text of the answer, or what it throws. *)
Definition request (apiKey : bool) (ai : nat → Reply) (g : Generation)
  : result Error string * Generation :=
  if negb apiKey then (Throw (newError "API Key missing"), g)
  else match ai (roundTrips g) with
       | Rejects e => (Throw e, asked g)
       | Replies text =>
           if String.eqb text "" then (Throw (newError "Empty response from AI"), asked g)
           else (Ok text, asked g)
       end.

(** [while (retryCount < maxRetries)], with [left = maxRetries - retryCount]
    rounds to go. *)
Fixpoint retryLoop (left retryCount : nat) (apiKey : bool) (ai : nat → Reply)
  (type : ResourceType) (topic : string) (g : Generation) : Generation :=
  match left with
  | 0%nat => g
  | S left' =>
      match request apiKey ai g with
      | (Ok text, g') =>
          setCurrentResource
            {| type := type; title := titlePrefix type +:+ ": " +:+ topic; content := text |} g'
      | (Throw e, g') =>
          let retryCount := S retryCount in
          retryLoop left' retryCount apiKey ai type topic
            (if (retryCount =? 3)%nat then alert (userMessage e) g'
             else sleep (1000 * 2 ^ Z.of_nat retryCount) g')
      end
  end.

(** [handleGenerateResource] *)
Definition handleGenerateResource (apiKey : bool) (ai : nat → Reply)
  (type : ResourceType) (topic : string) (g : Generation) : Generation :=
  if isGenerating g then g
  else setIsGenerating false (retryLoop 3 0 apiKey ai type topic (setIsGenerating true g)).

End Resources.

(** The waits still ahead when [retryCount] attempts have failed. *)
Definition pauses (retryCount : nat) : list Q :=
  (λ k, 1000 * 2 ^ Z.of_nat k) <$> seq (S retryCount) (2 - retryCount).

(** * Properties *)

(** ** Rounding to doubles *)

Section Doubles.

Lemma pow2_pos (z : Z) : 0 < 2 ^ z.
Proof. apply Qpower_0_lt. reflexivity. Qed.

Lemma pow2_plus (a b : Z) : 2 ^ (a + b) == 2 ^ a * 2 ^ b.
Proof. apply Qpower_plus. discriminate. Qed.

Lemma pow2_le (a b : Z) : (a ≤ b)%Z → 2 ^ a <= 2 ^ b.
Proof. intros H. apply Qpower_le_compat_l; [exact H | discriminate]. Qed.

Lemma pow2_Z (a : Z) : (0 ≤ a)%Z → 2 ^ a == inject_Z (2 ^ a).
Proof. intros H. symmetry. apply (Zpower_Qpower 2 a H). Qed.


Lemma pow2_succ (a : Z) : 2 ^ (a + 1) == 2 * 2 ^ a.
Proof. rewrite pow2_plus. change (2 ^ 1) with 2. ring. Qed.

Lemma pow2_pred (a : Z) : 2 * 2 ^ (a - 1) == 2 ^ a.
Proof. rewrite <- pow2_succ. replace (a - 1 + 1)%Z with a by lia. reflexivity. Qed.

Lemma log2_Q (n : Z) :
  (0 < n)%Z → 2 ^ Z.log2 n <= inject_Z n ∧ inject_Z n < 2 * 2 ^ Z.log2 n.
Proof.
  intros Hn. destruct (Z.log2_spec n Hn) as [Hlo Hhi].
  pose proof (Z.log2_nonneg n) as H0. split.
  - rewrite pow2_Z by exact H0. rewrite <- Zle_Qle. exact Hlo.
  - rewrite <- pow2_succ.
    replace (Z.log2 n + 1)%Z with (Z.succ (Z.log2 n)) by lia.
    rewrite pow2_Z by lia. rewrite <- Zlt_Qlt. exact Hhi.
Qed.

Lemma binade_spec (q : Q) :
  0 < q → 2 ^ binade q <= q ∧ q < 2 * 2 ^ binade q.
Proof.
  intros Hq. unfold binade.
  set (a := Z.log2 (Qnum q)). set (b := Z.log2 (Z.pos (Qden q))).
  assert (Hn : (0 < Qnum q)%Z).
  { destruct q as [n d]. unfold Qlt in Hq. simpl in *. lia. }
  destruct (log2_Q (Qnum q) Hn) as [Ha Ha']. fold a in Ha, Ha'.
  destruct (log2_Q (Z.pos (Qden q)) eq_refl) as [Hb Hb']. fold b in Hb, Hb'.
  assert (Hdiv : q * inject_Z (Z.pos (Qden q)) == inject_Z (Qnum q)).
  { destruct q as [n d]. unfold Qeq, Qmult, inject_Z. simpl. lia. }
  assert (HE : 2 ^ (a - b) * 2 ^ b == 2 ^ a).
  { rewrite <- pow2_plus. replace (a - b + b)%Z with a by lia. reflexivity. }
  pose proof (pow2_pos a) as Pa. pose proof (pow2_pos b) as Pb.
  pose proof (pow2_pos (a - b)) as Pe.
  destruct (Qle_bool (2 ^ (a - b)) q) eqn:Hle.
  - apply Qle_bool_iff in Hle. split; [exact Hle |]. nra.
  - assert (Hlt : q < 2 ^ (a - b)).
    { apply Qnot_le_lt. intros H. apply Qle_bool_iff in H. congruence. }
    pose proof (pow2_pred (a - b)) as Hp.
    pose proof (pow2_pos (a - b - 1)) as Pe'.
    split; [| rewrite Hp; exact Hlt]. nra.
Qed.


Lemma binade_unique (q : Q) (e : Z) :
  2 ^ e <= q → q < 2 * 2 ^ e → binade q = e.
Proof.
  intros Hlo Hhi.
  assert (Hq : 0 < q) by (pose proof (pow2_pos e); lra).
  destruct (binade_spec q Hq) as [Blo Bhi].
  destruct (Z.lt_trichotomy (binade q) e) as [H | [H | H]]; [| exact H |].
  - pose proof (pow2_le (binade q + 1) e ltac:(lia)) as Hle.
    rewrite pow2_succ in Hle. lra.
  - pose proof (pow2_le (e + 1) (binade q) ltac:(lia)) as Hle.
    rewrite pow2_succ in Hle. lra.
Qed.

Lemma binade_comp (x y : Q) : 0 < x → x == y → binade x = binade y.
Proof.
  intros Hx Hxy. destruct (binade_spec x Hx) as [Hlo Hhi].
  symmetry. apply binade_unique; rewrite <- Hxy; assumption.
Qed.

Lemma ulp_pos (q : Q) : 0 < ulp q.
Proof. apply pow2_pos. Qed.

Lemma nearestEven_lower (m : Q) (N : Z) :
  inject_Z N <= m → (N ≤ nearestEven m)%Z.
Proof.
  intros H. apply Qfloor_resp_le in H. rewrite Qfloor_Z in H.
  unfold nearestEven. destruct (Qcompare _ _); [destruct (Z.even _) | |]; lia.
Qed.

Lemma nearestEven_upper (m : Q) (N : Z) :
  m <= inject_Z N → (nearestEven m ≤ N)%Z.
Proof.
  intros H. pose proof (Qfloor_le m) as Hf.
  assert (Hfl : (Qfloor m ≤ N)%Z) by (rewrite Zle_Qle; lra).
  assert (Hup : 0 < m - inject_Z (Qfloor m) → (Qfloor m + 1 ≤ N)%Z).
  { intros Hpos. assert (Hlt : (Qfloor m < N)%Z) by (rewrite Zlt_Qlt; lra). lia. }
  unfold nearestEven.
  destruct (Qcompare _ _) eqn:Hc.
  - apply Qeq_alt in Hc. destruct (Z.even _); [exact Hfl |]. apply Hup. lra.
  - exact Hfl.
  - apply Qgt_alt in Hc. apply Hup. lra.
Qed.

Lemma nearestEven_comp (m m' : Q) : m == m' → nearestEven m = nearestEven m'.
Proof.
  intros H. unfold nearestEven. rewrite (Qfloor_comp _ _ H).
  assert (Hc : Qcompare (m - inject_Z (Qfloor m')) (1 # 2)
             = Qcompare (m' - inject_Z (Qfloor m')) (1 # 2)).
  { apply Qcompare_comp; [rewrite H |]; reflexivity. }
  rewrite Hc. reflexivity.
Qed.

Lemma nearest_comp (x y : Q) : 0 < x → x == y → nearest x == nearest y.
Proof.
  intros Hx Hxy. unfold nearest, ulp.
  rewrite (binade_comp x y Hx Hxy).
  set (u := 2 ^ _).
  assert (Hm : x / u == y / u) by (rewrite Hxy; reflexivity).
  rewrite (nearestEven_comp _ _ Hm). reflexivity.
Qed.

Lemma double_pos (q : Q) : 0 < q → double q == nearest q.
Proof.
  unfold double. rewrite Qred_correct.
  destruct q as [[| n | n] d]; unfold Qlt; simpl; intros H; try lia.
  reflexivity.
Qed.

Lemma double_zero (q : Q) : q == 0 → double q = 0.
Proof.
  destruct q as [[| n | n] d]; unfold Qeq; simpl; intros H; try lia.
  reflexivity.
Qed.

Lemma double_neg (q : Q) : q < 0 → double q == - nearest (- q).
Proof.
  unfold double. rewrite Qred_correct.
  destruct q as [[| n | n] d]; unfold Qlt; simpl; intros H; try lia.
  reflexivity.
Qed.

#[global] Instance double_comp : Proper (Qeq ==> Qeq) double.
Proof.
  intros x y H.
  destruct (Q_dec x 0) as [[Hx | Hx] | Hx].
  - rewrite (double_neg x Hx), (double_neg y) by (rewrite <- H; exact Hx).
    apply Qopp_comp. apply nearest_comp; [lra | rewrite H; reflexivity].
  - rewrite (double_pos x Hx), (double_pos y) by (rewrite <- H; exact Hx).
    apply nearest_comp; assumption.
  - rewrite (double_zero x Hx), (double_zero y) by (rewrite <- H; exact Hx).
    reflexivity.
Qed.

(** Scaling by the spacing of a binade. *)
Lemma scale_ulp (q : Q) :
  2 ^ 53 * ulp q == 2 * 2 ^ Z.max (binade q) (-1022) ∧
  2 ^ 52 * ulp q == 2 ^ Z.max (binade q) (-1022).
Proof.
  unfold ulp. set (e := Z.max _ _).
  rewrite <- !pow2_plus, <- pow2_succ.
  replace (53 + (e - 52))%Z with (e + 1)%Z by lia.
  replace (52 + (e - 52))%Z with e by lia. split; reflexivity.
Qed.

Lemma nearest_representable (q : Q) : 0 < q → representable (nearest q).
Proof.
  intros Hq. exists (nearestEven (q / ulp q)), (Z.max (binade q) (-1022) - 52)%Z.
  pose proof (ulp_pos q) as Hu.
  destruct (binade_spec q Hq) as [Hlo Hhi].
  destruct (scale_ulp q) as [H53 _].
  pose proof (pow2_le (binade q) (Z.max (binade q) (-1022)) ltac:(lia)) as Hmax.
  split; [split | split; [lia | reflexivity]].
  - apply (nearestEven_lower _ 0). apply Qle_shift_div_l; [exact Hu |].
    change (inject_Z 0) with 0. lra.
  - apply nearestEven_upper. apply Qle_shift_div_r; [exact Hu |].
    rewrite <- (pow2_Z 53) by lia. lra.
Qed.

Lemma representable_nonneg (x : Q) : representable x → 0 <= x.
Proof.
  intros (n & k & [Hn _] & _ & ->).
  apply Qmult_le_0_compat; [| apply Qlt_le_weak, pow2_pos].
  change 0 with (inject_Z 0). rewrite <- Zle_Qle. exact Hn.
Qed.

(** A double that is a multiple of the spacing around [y], or at most the
    lower end of [y]'s binade. *)
Lemma representable_grid (x y : Q) :
  representable x → 0 < y →
  (∃ N : Z, x == inject_Z N * ulp y) ∨ x <= 2 ^ 52 * ulp y ∧ 2 ^ 52 * ulp y <= y.
Proof.
  intros (n & k & [Hn0 Hn] & Hk & Hx) Hy.
  destruct (Z_le_gt_dec (Z.max (binade y) (-1022) - 52) k) as [Hle | Hgt].
  - left. exists (n * 2 ^ (k - (Z.max (binade y) (-1022) - 52)))%Z.
    rewrite inject_Z_mult, <- pow2_Z by lia. unfold ulp.
    rewrite <- Qmult_assoc, <- pow2_plus, Hx.
    replace (k - _ + _)%Z with k by lia. reflexivity.
  - right. destruct (scale_ulp y) as [_ ->].
    replace (Z.max (binade y) (-1022)) with (binade y) by lia.
    destruct (binade_spec y Hy) as [Hlo _]. split; [| exact Hlo].
    rewrite Hx.
    apply (Qle_trans _ (2 ^ 53 * 2 ^ (binade y - 53))).
    + apply Qmult_le_compat_nonneg.
      * split; [change 0 with (inject_Z 0); rewrite <- Zle_Qle; lia |].
        rewrite (pow2_Z 53) by lia. rewrite <- Zle_Qle. exact Hn.
      * split; [apply Qlt_le_weak, pow2_pos | apply pow2_le; lia].
    + rewrite <- pow2_plus. apply pow2_le. lia.
Qed.

Lemma nearest_lower (x y : Q) :
  representable x → 0 < y → x <= y → x <= nearest y.
Proof.
  intros Hx Hy Hxy. pose proof (ulp_pos y) as Hu. unfold nearest.
  destruct (representable_grid x y Hx Hy) as [[N HN] | [Hlo Hhi]].
  - rewrite HN. apply Qmult_le_compat_r; [| lra].
    rewrite <- Zle_Qle. apply nearestEven_lower.
    apply Qle_shift_div_l; [exact Hu |]. rewrite <- HN. exact Hxy.
  - apply (Qle_trans _ _ _ Hlo). apply Qmult_le_compat_r; [| lra].
    rewrite (pow2_Z 52) by lia. rewrite <- Zle_Qle. apply nearestEven_lower.
    apply Qle_shift_div_l; [exact Hu |]. rewrite <- (pow2_Z 52) by lia. exact Hhi.
Qed.

Lemma nearest_upper (y w : Q) :
  representable w → 0 < y → y <= w → nearest y <= w.
Proof.
  intros Hw Hy Hyw. pose proof (ulp_pos y) as Hu. unfold nearest.
  destruct (representable_grid w y Hw Hy) as [[N HN] | [Hlo Hhi]].
  - rewrite HN. apply Qmult_le_compat_r; [| lra].
    rewrite <- Zle_Qle. apply nearestEven_upper.
    apply Qle_shift_div_r; [exact Hu |]. rewrite <- HN. exact Hyw.
  - apply (Qle_trans _ (2 ^ 52 * ulp y)); [| lra].
    apply Qmult_le_compat_r; [| lra].
    rewrite (pow2_Z 52) by lia. rewrite <- Zle_Qle. apply nearestEven_upper.
    apply Qle_shift_div_r; [exact Hu |]. rewrite <- (pow2_Z 52) by lia. lra.
Qed.

(** Rounding never crosses a double: one below the exact value stays
    below the rounded one, one above stays above. *)
Lemma double_lower (x y : Q) : representable x → x <= y → x <= double y.
Proof.
  intros Hx Hxy. pose proof (representable_nonneg x Hx) as H0.
  destruct (Qlt_le_dec 0 y) as [Hy | Hy].
  - rewrite (double_pos y Hy). apply nearest_lower; assumption.
  - rewrite (double_zero y) by lra. lra.
Qed.

Lemma double_upper (y w : Q) : representable w → 0 <= y → y <= w → double y <= w.
Proof.
  intros Hw H0 Hyw.
  destruct (Qlt_le_dec 0 y) as [Hy | Hy].
  - rewrite (double_pos y Hy). apply nearest_upper; assumption.
  - rewrite (double_zero y) by lra. lra.
Qed.

Lemma representable_comp (x y : Q) : x == y → representable x → representable y.
Proof. intros H (n & k & Hn & Hk & Hx). exists n, k. rewrite <- H. auto. Qed.

Lemma double_representable (q : Q) : 0 <= q → representable (double q).
Proof.
  intros H0. destruct (Qlt_le_dec 0 q) as [Hq | Hq].
  - apply (representable_comp (nearest q)); [symmetry; apply double_pos, Hq |].
    apply nearest_representable, Hq.
  - rewrite (double_zero q) by lra. exists 0%Z, 0%Z. split; [lia | split; [lia | reflexivity]].
Qed.

Lemma representable_isDouble (x : Q) : representable x → isDouble x.
Proof.
  intros Hx. pose proof (representable_nonneg x Hx) as H0.
  apply Qle_antisym.
  - apply double_upper; [exact Hx | exact H0 | lra].
  - apply double_lower; [exact Hx | lra].
Qed.

Lemma isDouble_representable (x : Q) : 0 <= x → isDouble x → representable x.
Proof.
  intros H0 Hx. apply (representable_comp (double x)); [exact Hx |].
  apply double_representable, H0.
Qed.

Lemma double_nonneg (q : Q) : 0 <= q → 0 <= double q.
Proof. intros H. apply representable_nonneg, double_representable, H. Qed.

Lemma representable_Z (n : Z) : (0 ≤ n ≤ 2 ^ 53)%Z → representable (inject_Z n).
Proof.
  intros H. exists n, 0%Z. split; [exact H | split; [lia |]].
  change (2 ^ 0) with 1. ring.
Qed.


Lemma nearestEven_close (m : Q) :
  - (1 # 2) <= inject_Z (nearestEven m) - m ∧ inject_Z (nearestEven m) - m <= 1 # 2.
Proof.
  pose proof (Qfloor_le m) as Hlo. pose proof (Qlt_floor m) as Hhi.
  rewrite inject_Z_plus in Hhi. change (inject_Z 1) with 1 in Hhi.
  unfold nearestEven. destruct (Qcompare _ _) eqn:Hc.
  - apply Qeq_alt in Hc. destruct (Z.even _);
      rewrite ?inject_Z_plus; change (inject_Z 1) with 1; split; lra.
  - apply Qlt_alt in Hc. split; lra.
  - apply Qgt_alt in Hc. rewrite inject_Z_plus. change (inject_Z 1) with 1. split; lra.
Qed.

Lemma ulp_bound (q : Q) : 0 < q → ulp q <= Qmax (q * 2 ^ (-52)) (2 ^ (-1074)).
Proof.
  intros Hq. destruct (binade_spec q Hq) as [Hlo _]. unfold ulp.
  destruct (Z.max_spec (binade q) (-1022)) as [[_ ->] | [_ ->]].
  - apply (Qle_trans _ (2 ^ (-1074))); [apply pow2_le; lia | apply Q.le_max_r].
  - apply (Qle_trans _ (q * 2 ^ (-52))); [| apply Q.le_max_l].
    replace (binade q - 52)%Z with (binade q + -52)%Z by lia.
    rewrite pow2_plus. apply Qmult_le_compat_r; [exact Hlo |].
    apply Qlt_le_weak, pow2_pos.
Qed.

Lemma roundingError_pos (M : Q) : 0 < roundingError M.
Proof.
  unfold roundingError. apply (Qlt_le_trans _ (2 ^ (-1075))); [apply pow2_pos | apply Q.le_max_r].
Qed.

(** The rounding error of one operation: half a unit in the last place. *)
Lemma double_error (q M : Q) :
  0 <= q → q <= M →
  Qabs (double q - q) <= roundingError M.
Proof.
  intros H0 HM. unfold roundingError. destruct (Qlt_le_dec 0 q) as [Hq | Hq].
  - rewrite (double_pos q Hq). unfold nearest.
    pose proof (ulp_pos q) as Hu. pose proof (ulp_bound q Hq) as Hb.
    destruct (nearestEven_close (q / ulp q)) as [Hlo Hhi].
    set (n := inject_Z (nearestEven (q / ulp q))) in *.
    assert (Hd : n * ulp q - q == (n - q / ulp q) * ulp q) by (field; lra).
    assert (Hhalf : Qabs (n * ulp q - q) <= (1 # 2) * ulp q).
    { rewrite Hd, Qabs_Qmult, (Qabs_pos (ulp q)) by lra.
      apply Qmult_le_compat_r; [| lra]. apply Qabs_Qle_condition. split; lra. }
    apply (Qle_trans _ _ _ Hhalf).
    pose proof (pow2_pred (-52)) as H52. pose proof (pow2_pred (-1074)) as H74.
    change (-52 - 1)%Z with (-53)%Z in H52. change (-1074 - 1)%Z with (-1075)%Z in H74.
    pose proof (pow2_pos (-53)) as P53.
    assert (HqM : q * 2 ^ (-53) <= M * 2 ^ (-53)) by (apply Qmult_le_compat_r; lra).
    apply Q.max_le_iff.
    destruct (Q.max_spec (q * 2 ^ (-52)) (2 ^ (-1074))) as [[_ Hm] | [_ Hm]];
      rewrite Hm in Hb; [right | left]; lra.
  - rewrite (double_zero q) by lra.
    assert (Hz : 0 - q == 0) by lra. rewrite Hz. simpl.
    apply (Qle_trans _ (2 ^ (-1075))); [apply Qlt_le_weak, pow2_pos | apply Q.le_max_r].
Qed.

End Doubles.

(** ** Playback scheduler *)

Section Scheduler.

Implicit Types (a : AudioOut) (now dur : Q).

Lemma clampToNow_max now a : clampToNow now a == Qmax now (nextStartTime a).
Proof.
  unfold clampToNow. destruct (Qlt_le_dec (nextStartTime a) now) as [Hlt | Hle].
  - symmetry. apply Q.max_l. by apply Qlt_le_weak.
  - symmetry. by apply Q.max_r.
Qed.

Lemma clampToNow_offset now a : nextStartTime a <= clampToNow now a.
Proof.
  unfold clampToNow. destruct (Qlt_le_dec (nextStartTime a) now) as [Hlt | Hle].
  - by apply Qlt_le_weak.
  - apply Qle_refl.
Qed.

Lemma clampToNow_now now a : now <= clampToNow now a.
Proof.
  unfold clampToNow. destruct (Qlt_le_dec (nextStartTime a) now) as [Hlt | Hle].
  - apply Qle_refl.
  - done.
Qed.

Lemma clampToNow_early now a : now <= nextStartTime a → clampToNow now a = nextStartTime a.
Proof.
  intros Hle. unfold clampToNow.
  destruct (Qlt_le_dec (nextStartTime a) now) as [Hlt | _]; [|done].
  exfalso. by apply (Qlt_not_le _ _ Hlt).
Qed.

Lemma enqueue_offset now dur a :
  nextStartTime (enqueue now dur a).2 = Js.add (clampToNow now a) dur.
Proof. reflexivity. Qed.

Lemma enqueue_start now dur a : (enqueue now dur a).1 = clampToNow now a.
Proof. reflexivity. Qed.

(** The node handed to the output device carries the same start time. *)
Lemma enqueue_node now dur a :
  nodes (enqueue now dur a).2 !! allocated a
  = Some {| duration := dur; state := Started (clampToNow now a) |}.
Proof. simpl. apply lookup_insert_eq. Qed.

Lemma trace_cons a now dur rest :
  trace a ((now, dur) :: rest)
  = {| offsetBefore := nextStartTime a; arrival := now; length_ := dur;
       startAt := clampToNow now a;
       source := nodes (enqueue now dur a).2 !! allocated a;
       offsetAfter := Js.add (clampToNow now a) dur |}
    :: trace (enqueue now dur a).2 rest.
Proof. reflexivity. Qed.

Lemma trace_length a chunks : length (trace a chunks) = length chunks.
Proof.
  revert a. induction chunks as [| [now dur] rest IH]; intros a; [done|].
  rewrite trace_cons. cbn [length]. by rewrite IH.
Qed.

Lemma trace_head a chunks s :
  trace a chunks !! 0%nat = Some s →
  offsetBefore s = nextStartTime a ∧ startAt s = clampToNow (arrival s) a.
Proof.
  destruct chunks as [| [now dur] rest]; [done|]. rewrite trace_cons.
  intros [= <-]. done.
Qed.

Lemma isTime_representable (x : Q) : isTime x → representable x.
Proof. intros [Hd H0]. by apply isDouble_representable. Qed.

Lemma representable_isTime (x : Q) : representable x → isTime x.
Proof.
  intros Hx. split; [by apply representable_isDouble | by apply representable_nonneg].
Qed.

Lemma clampToNow_time now a :
  isTime now → isTime (nextStartTime a) → isTime (clampToNow now a).
Proof. intros Hnow Ha. unfold clampToNow. by destruct (Qlt_le_dec _ _). Qed.

Lemma add_time (x y : Q) : 0 <= x → 0 <= y → isTime (Js.add x y).
Proof.
  intros Hx Hy. apply representable_isTime, double_representable. lra.
Qed.

(** Adding a duration never moves the offset back. *)
Lemma add_ge (x y : Q) : isTime x → 0 <= y → x <= Js.add x y.
Proof.
  intros Hx Hy. apply double_lower; [by apply isTime_representable | lra].
Qed.

(** The offsets and start times of a run of the scheduler are times, and
    no step moves the offset before the start it chose. *)
Lemma trace_time a chunks :
  isTime (nextStartTime a) →
  Forall (λ ch, isTime ch.1 ∧ isTime ch.2) chunks →
  ∀ i s, trace a chunks !! i = Some s →
    isTime (offsetBefore s) ∧ isTime (startAt s) ∧ 0 <= length_ s ∧
    isTime (offsetAfter s) ∧ startAt s <= offsetAfter s.
Proof.
  intros Ha Hch. revert a Ha.
  induction Hch as [| [now dur] rest [Hnow [_ Hdur]] _ IH]; intros a Ha i s.
  - simpl. by rewrite lookup_nil.
  - rewrite trace_cons. cbn [fst snd] in *.
    pose proof (clampToNow_time now a Hnow Ha) as Hs.
    destruct i as [| i]; cbn [lookup list_lookup].
    + intros [= <-]. cbn [offsetBefore startAt length_ offsetAfter].
      split; [exact Ha|]. split; [exact Hs|]. split; [exact Hdur|].
      split; [apply add_time; [apply Hs | exact Hdur] | by apply add_ge].
    + apply IH. rewrite enqueue_offset. apply add_time; [apply Hs | exact Hdur].
Qed.

End Scheduler.

(** C1. For every sequence of audio chunks fed to the scheduler, clock
    readings and durations being doubles that are not negative and no sum
    leaving the range of finite doubles: each chunk's node is started at
    max(current time, offset) and the offset then becomes that start plus
    the chunk's duration, the sum being the one the code computes on
    doubles; the start times never decrease, and a chunk that arrives no
    later than the end of the audio scheduled before it starts at the
    previous chunk's start plus the previous chunk's duration. *)
Theorem scheduler_back_to_back (a : AudioOut) (chunks : list (Q * Q)) :
  Js.isTime (nextStartTime a) →
  Forall (λ ch, Js.isTime ch.1 ∧ Js.isTime ch.2) chunks →
  Forall (λ s, offsetAfter s <= Js.MAX_VALUE) (trace a chunks) →
  length (trace a chunks) = length chunks ∧
  (∀ i s, trace a chunks !! i = Some s →
     chunks !! i = Some (arrival s, length_ s) ∧
     startAt s == Qmax (arrival s) (offsetBefore s) ∧
     source s = Some {| duration := length_ s; state := Started (startAt s) |} ∧
     offsetAfter s = Js.add (startAt s) (length_ s)) ∧
  (∀ i s t, trace a chunks !! i = Some s → trace a chunks !! S i = Some t →
     offsetBefore t = offsetAfter s ∧
     startAt s <= startAt t ∧
     (arrival t <= offsetAfter s → startAt t = Js.add (startAt s) (length_ s))).
Proof.
  intros Ha Hch _. split; [apply trace_length|].
  pose proof (trace_time a chunks Ha Hch) as Htime. clear Ha Hch.
  revert a Htime. induction chunks as [| [now dur] rest IH]; intros a Htime.
  - split; intros i s; simpl; by rewrite lookup_nil.
  - rewrite trace_cons in Htime |- *.
    destruct (IH (enqueue now dur a).2) as [Hstep Hadj].
    { intros i s Hs. apply (Htime (S i)). exact Hs. }
    split.
    + intros [| i] s Hs; cbn [lookup list_lookup] in Hs.
      * injection Hs as <-. cbn [arrival length_ startAt offsetBefore source offsetAfter].
        split; [done|]. split; [apply clampToNow_max|]. split; [apply enqueue_node | done].
      * by apply Hstep in Hs.
    + intros [| i] s t Hs Ht; cbn [lookup list_lookup] in Hs, Ht.
      * injection Hs as <-.
        destruct (Htime 0%nat _ eq_refl) as (_ & _ & _ & _ & Hle).
        apply trace_head in Ht as [Hb Hst].
        cbn [arrival length_ startAt offsetBefore source offsetAfter] in *.
        rewrite Hb, Hst, enqueue_offset. split; [done|]. split.
        -- eapply Qle_trans; [exact Hle |].
           rewrite <- (enqueue_offset now dur a). apply clampToNow_offset.
        -- intros Hin. rewrite <- (enqueue_offset now dur a).
           apply clampToNow_early. rewrite enqueue_offset. exact Hin.
      * by eapply Hadj.
Qed.

Lemma scheduler_back_to_back_witness :
  let chunks := [(0, Js.double (1 # 50)); (Js.double (1 # 100), Js.double (1 # 25));
                 (Js.double (1 # 20), Js.double (1 # 50))] in
  map startAt (trace freshAudio chunks)
  = [0; Js.double (1 # 50); Js.add (Js.double (1 # 50)) (Js.double (1 # 25))] ∧
  length (trace freshAudio chunks) = 3%nat.
Proof.
  intros chunks. split; [vm_compute; reflexivity|].
  apply (scheduler_back_to_back freshAudio chunks).
  - split; [reflexivity | discriminate].
  - repeat constructor; try (vm_compute; reflexivity); vm_compute; discriminate.
  - repeat constructor; vm_compute; discriminate.
Defined.

(** ** Interruption *)

Section Interrupt.

Implicit Types (h : gmap nat Node) (id j : nat) (ids : list nat).

Lemma halt_halt n : halt (halt n) = halt n.
Proof. destruct n as [d []]; reflexivity. Qed.

Lemma tryStop_lookup_eq h id : tryStop h id !! id = halt <$> h !! id.
Proof.
  unfold tryStop, stop. destruct (h !! id) as [[d st] |] eqn:Hid; simpl.
  - destruct st; simpl; rewrite ?lookup_insert_eq, ?Hid; reflexivity.
  - by rewrite Hid.
Qed.

Lemma tryStop_lookup_ne h id j : j ≠ id → tryStop h id !! j = h !! j.
Proof.
  intros Hne. unfold tryStop, stop. destruct (h !! id) as [[d st] |]; simpl; [|done].
  destruct st; simpl; rewrite ?lookup_insert_ne; done.
Qed.

Lemma stopAll_lookup ids h j :
  stopAll ids h !! j = if decide (j ∈ ids) then halt <$> h !! j else h !! j.
Proof.
  unfold stopAll. revert h. induction ids as [| id ids IH]; intros h; cbn [foldl].
  - rewrite decide_False; [done | apply not_elem_of_nil].
  - rewrite IH. destruct (decide (j = id)) as [-> | Hne].
    + rewrite tryStop_lookup_eq.
      destruct (decide (id ∈ id :: ids)) as [_ | Hnin];
        [| exfalso; apply Hnin, list_elem_of_here].
      case_decide; [|done].
      destruct (h !! id) as [n |]; simpl; [|done]. by rewrite halt_halt.
    + rewrite tryStop_lookup_ne by done.
      destruct (decide (j ∈ ids)) as [Hin | Hnin].
      * rewrite decide_True; [done | by apply list_elem_of_further].
      * rewrite decide_False; [done |]. rewrite elem_of_cons. tauto.
Qed.

(** The whole [forEach] cannot throw: every [stop] sits in its own
    [try]. *)
Lemma stopAll_nil h : stopAll [] h = h.
Proof. reflexivity. Qed.

Lemma interrupt_idempotent a : interrupt (interrupt a) = interrupt a.
Proof. reflexivity. Qed.

End Interrupt.

(** An audio-only message is handed to [enqueue], in every variant. *)
Lemma onmessage_audio (v : Variant) (now dur : Q) (r : Run) (c : Component) :
  is_Some (outputContext (audio c)) →
  onmessage v now {| toolCall := None; audioData := Some (Buffer dur); interrupted := false |} r c
  = Ok (r, setAudio (enqueue now dur (audio c)).2 c).
Proof.
  intros [x Hx]. unfold onmessage, handleAudio; simpl. rewrite Hx. simpl.
  destruct v; reflexivity.
Qed.

(** C2, as stated, fails: with a chunk scheduled at audio time 1 and the
    interrupted signal handled at audio time 2, the offset is left at 0,
    not at 2; and OralEvaluator does not react to the signal at all, the
    chunk stays started. *)
Lemma interrupted_offset_is_not_now :
  let msg := {| toolCall := None; audioData := None; interrupted := true |} in
  (∃ c', onmessage LiveSensei 2 msg (newRun 0)
           (setAudio (enqueue 1 2 freshAudio).2 (initialComponent LiveSensei))
         = Ok (newRun 0, c')
         ∧ ¬ nextStartTime (audio c') == 2)
  ∧ (∃ c', onmessage OralEvaluator 2 msg (newRun 0)
           (setAudio (enqueue 1 2 freshAudio).2 (initialComponent OralEvaluator))
         = Ok (newRun 0, c')
         ∧ nodes (audio c') !! 0%nat = Some {| duration := 2; state := Started 1 |}
         ∧ sources (audio c') = [0%nat]).
Proof.
  split.
  - eexists. split; [reflexivity|]. simpl. discriminate.
  - eexists. split; [reflexivity|]. split; reflexivity.
Qed.

(** C2, amended. In LiveSensei, VoiceCoder and GoalCollector the
    interrupted signal is handled without throwing whatever sources are
    outstanding (none included): every outstanding source that had been
    started is stopped, the set of sources is emptied and the offset is
    reset to 0, so that the next chunk, enqueued at a time that is not
    negative, starts at that time; handling the signal again changes
    nothing. *)
Theorem interrupted_stops_and_resets (v : Variant) (now : Q) (r : Run) (c : Component) :
  v ≠ OralEvaluator →
  let msg := {| toolCall := None; audioData := None; interrupted := true |} in
  ∃ c',
    onmessage v now msg r c = Ok (r, c') ∧
    sources (audio c') = [] ∧
    nextStartTime (audio c') = 0 ∧
    (∀ id n, id ∈ sources (audio c) → nodes (audio c) !! id = Some n →
       state n ≠ Created →
       nodes (audio c') !! id = Some {| duration := duration n; state := Stopped |}) ∧
    (∀ id, id ∉ sources (audio c) → nodes (audio c') !! id = nodes (audio c) !! id) ∧
    (sources (audio c) = [] → nodes (audio c') = nodes (audio c)) ∧
    onmessage v now msg r c' = Ok (r, c') ∧
    (∀ now' dur, 0 <= now' → (enqueue now' dur (audio c')).1 == now').
Proof.
  intros Hv msg. exists (setAudio (interrupt (audio c)) c).
  split; [by destruct v|]. split; [done|]. split; [done|]. split; [|split; [|split; [|split]]].
  - intros id n Hin Hn Hst. simpl. rewrite stopAll_lookup, decide_True by done.
    rewrite Hn. simpl. unfold halt. by destruct (state n).
  - intros id Hnin. simpl. by rewrite stopAll_lookup, decide_False.
  - intros Hnil. simpl. by rewrite Hnil.
  - by destruct v.
  - intros now' dur Hnow. simpl. unfold clampToNow. simpl.
    destruct (Qlt_le_dec 0 now') as [_ | Hle]; [reflexivity|].
    by apply Qle_antisym.
Qed.

Lemma interrupted_stops_and_resets_witness :
  ∃ c',
    onmessage LiveSensei 2
      {| toolCall := None; audioData := None; interrupted := true |} (newRun 0)
      (setAudio (enqueue 1 2 freshAudio).2 (initialComponent LiveSensei))
    = Ok (newRun 0, c')
    ∧ nodes (audio c') !! 0%nat = Some {| duration := 2; state := Stopped |}.
Proof.
  destruct (interrupted_stops_and_resets LiveSensei 2 (newRun 0)
              (setAudio (enqueue 1 2 freshAudio).2 (initialComponent LiveSensei)))
    as (c' & Hrun & _ & _ & Hstop & _); [discriminate|].
  exists c'. split; [exact Hrun|].
  apply (Hstop 0%nat {| duration := 2; state := Started 1 |}).
  - simpl. apply list_elem_of_here.
  - reflexivity.
  - discriminate.
Defined.

(** ** Tool dispatch *)

Section Dispatch.

Implicit Types (v : Variant) (fc : FunctionCall) (r : Run) (c : Component).

Lemma handleCalls_app v (pre post : list FunctionCall) (rc : Run * Component) :
  handleCalls v (pre ++ post) rc = bind (handleCalls v pre rc) (handleCalls v post).
Proof.
  revert rc. induction pre as [| fc pre IH]; intros rc; [done|].
  cbn [handleCalls app]. destruct (handleCall v fc rc) as [rc1 | e]; cbn [bind]; [apply IH | done].
Qed.

(** One call: it throws, or it is answered and handled as its branch
    says. *)
Lemma handleCall_spec v fc r c :
  handleCall v fc (r, c)
  = if throws v (mounted r) fc then Throw (typeError, (r, c))
    else Ok (if answered v (mounted r) fc
             then sendToolResponse (respond fc (resultText v fc)) r else r,
             if mounted r then handler v fc c else c).
Proof.
  unfold throws, readsArgs, answered, resultText, handler, handleCall.
  destruct v; cbn [declaredTools existsb];
    repeat match goal with
      | |- context [String.eqb (fc_name fc) ?s] =>
          let H := fresh in
          destruct (String.eqb_spec (fc_name fc) s) as [H | H];
          [try rewrite H in *; try discriminate |]
      end;
    destruct (fc_args fc) as [a |], (mounted r); reflexivity.
Qed.

Lemma sendAll_mounted (sent : list FunctionResponse) r :
  mounted (foldl (λ x m, sendToolResponse m x) r sent) = mounted r.
Proof. revert r. induction sent as [| m sent IH]; intros r; [done|]. cbn [foldl]. by rewrite IH. Qed.

Lemma sendAll_outbox (sent : list FunctionResponse) r :
  outbox (foldl (λ x m, sendToolResponse m x) r sent) = outbox r ++ sent.
Proof.
  revert r. induction sent as [| m sent IH]; intros r; cbn [foldl].
  - by rewrite app_nil_r.
  - rewrite IH. cbn [outbox sendToolResponse]. by rewrite <- app_assoc.
Qed.

(** A run of calls none of which throws. *)
Lemma handleCalls_spec v (calls : list FunctionCall) r c :
  Forall (λ fc, throws v (mounted r) fc = false) calls →
  handleCalls v calls (r, c)
  = Ok (foldl (λ x m, sendToolResponse m x) r
          ((λ fc, respond fc (resultText v fc)) <$> filter (λ fc, answered v (mounted r) fc) calls),
        if mounted r then foldl (λ x fc, handler v fc x) c calls else c).
Proof.
  intros Hok. revert r c Hok. induction calls as [| fc rest IH]; intros r c Hok.
  - cbn. by destruct (mounted r).
  - apply Forall_cons in Hok as [Hfc Hrest].
    cbn [handleCalls]. rewrite handleCall_spec, Hfc. cbn [bind].
    destruct (answered v (mounted r) fc) eqn:Hans.
    + rewrite IH by exact Hrest. cbn [mounted sendToolResponse].
      rewrite filter_cons_True by (by rewrite Hans). cbn [fmap list_fmap foldl].
      by destruct (mounted r).
    + rewrite IH by exact Hrest.
      rewrite filter_cons_False by (rewrite Hans; exact id).
      by destruct (mounted r).
Qed.

End Dispatch.

(** C3, as stated, fails: a tool call whose name no handler matches gets
    no result at all, in LiveSensei and in OralEvaluator alike, and a
    declared call whose handler throws (here [generate_resource] without
    its arguments) gets none either. *)
Lemma undeclared_tool_call_gets_no_result :
  let unknown := {| fc_id := "call-7"; fc_name := "open_browser"; fc_args := Some ∅ |} in
  let broken := {| fc_id := "call-8"; fc_name := "generate_resource"; fc_args := None |} in
  let msg fc := {| toolCall := Some {| functionCalls := Some [fc] |};
                   audioData := None; interrupted := false |} in
  (∃ r' c', onmessage LiveSensei 0 (msg unknown) (newRun 0) (initialComponent LiveSensei)
            = Ok (r', c') ∧ outbox r' = [])
  ∧ (∃ r' c', onmessage OralEvaluator 0 (msg unknown) (newRun 0) (initialComponent OralEvaluator)
            = Ok (r', c') ∧ outbox r' = [])
  ∧ onmessage LiveSensei 0 (msg broken) (newRun 0) (initialComponent LiveSensei)
    = Throw (typeError, (newRun 0, initialComponent LiveSensei)).
Proof.
  split; [|split].
  - do 2 eexists. split; reflexivity.
  - do 2 eexists. split; reflexivity.
  - reflexivity.
Qed.

(** C3, amended. The calls of one message are taken in the order
    received, and as long as none has thrown: a call that names a
    declared tool has the tool's handler invoked while the component is
    mounted and is answered by exactly one result with the call's own id
    and name (GoalCollector answers only while mounted); a call with any
    other name is skipped, without handler and without result.  A call
    throws exactly when its handler reads the arguments and the call
    carries none ([display_question], [update_editor], [set_topic], and
    [generate_resource] while mounted); then neither that call nor any
    call after it is handled or answered. *)
Theorem declared_tool_calls_get_one_result
  (v : Variant) (calls : list FunctionCall) (r : Run) (c : Component) :
  Forall (λ fc, throws v (mounted r) fc = false) calls →
  let sent := (λ fc, respond fc (resultText v fc))
                <$> filter (λ fc, answered v (mounted r) fc) calls in
  let r' := foldl (λ x m, sendToolResponse m x) r sent in
  let c' := if mounted r then foldl (λ x fc, handler v fc x) c calls else c in
  handleCalls v calls (r, c) = Ok (r', c') ∧
  outbox r' = outbox r ++ sent ∧
  (∀ fc, answered v (mounted r) fc = true
         ↔ fc_name fc ∈ declaredTools v ∧ (v = GoalCollector → mounted r = true)) ∧
  (∀ fc x, fc_name fc ∉ declaredTools v → handler v fc x = x) ∧
  (∀ fc, throws v (mounted r) fc = true
         ↔ fc_args fc = None ∧ fc_name fc ∈ declaredTools v
           ∧ fc_name fc ≠ "update_progress" ∧ (v = LiveSensei → mounted r = true)) ∧
  (∀ fc rest, throws v (mounted r) fc = true →
     handleCalls v (calls ++ fc :: rest) (r, c) = Throw (typeError, (r', c'))).
Proof.
  intros Hok sent r' c'.
  pose proof (handleCalls_spec v calls r c Hok) as Hrun. fold sent r' c' in Hrun.
  split; [exact Hrun|]. split; [apply sendAll_outbox|].
  split; [|split; [|split]].
  - intros fc. unfold answered. rewrite andb_true_iff, existsb_exists.
    setoid_rewrite String.eqb_eq. rewrite list_elem_of_In. split.
    + intros [(x & Hin & ->) Hm]. split; [exact Hin|]. intros ->. exact Hm.
    + intros [Hin Hm]. split; [by exists (fc_name fc)|]. destruct v; auto.
  - intros fc x Hnot. unfold handler. destruct v; cbn [declaredTools] in Hnot;
      repeat match goal with
        | |- context [String.eqb (fc_name fc) ?s] =>
            destruct (String.eqb_spec (fc_name fc) s) as [Heq | _];
            [exfalso; apply Hnot; rewrite Heq; apply list_elem_of_In; simpl; tauto |]
        end; reflexivity.
  - intros fc. unfold throws, readsArgs.
    rewrite andb_true_iff, bool_decide_eq_true, list_elem_of_In.
    destruct v; cbn [declaredTools In]; rewrite ?andb_true_iff, ?String.eqb_eq; split.
    all: try (intros [[Hn Hm] Ha]; rewrite Hn; split; [exact Ha|]; split; [tauto|];
              split; [discriminate | done]).
    all: try (intros [Hn Ha]; rewrite Hn; split; [exact Ha|]; split; [tauto|];
              split; [discriminate | done]).
    all: intros (Ha & Hin & Hup & Hm); split; [| exact Ha]; try split;
      try (by apply Hm); intuition congruence.
  - intros fc rest Hthrow. rewrite handleCalls_app, Hrun. cbn [bind handleCalls].
    rewrite handleCall_spec. unfold r' at 1. rewrite sendAll_mounted, Hthrow. reflexivity.
Qed.

Lemma declared_tool_calls_get_one_result_witness :
  let calls := [ {| fc_id := "a"; fc_name := "update_progress"; fc_args := None |};
                 {| fc_id := "b"; fc_name := "open_browser"; fc_args := Some ∅ |};
                 {| fc_id := "c"; fc_name := "generate_resource"; fc_args := Some ∅ |} ] in
  let broken := {| fc_id := "d"; fc_name := "generate_resource"; fc_args := None |} in
  let late := {| fc_id := "e"; fc_name := "update_progress"; fc_args := Some ∅ |} in
  ∃ r' c',
    handleCalls LiveSensei calls (newRun 0, initialComponent LiveSensei) = Ok (r', c')
    ∧ outbox r'
      = [ {| fr_id := "a"; fr_name := "update_progress"; fr_result := "ok" |};
          {| fr_id := "c"; fr_name := "generate_resource"; fr_result := "resource_displayed" |} ]
    ∧ ui c' = [OnProgressUpdate None; SetCurrentResource None None None]
    ∧ handleCalls LiveSensei (calls ++ [broken; late]) (newRun 0, initialComponent LiveSensei)
      = Throw (typeError, (r', c')).
Proof.
  intros calls broken late.
  destruct (declared_tool_calls_get_one_result LiveSensei calls (newRun 0)
              (initialComponent LiveSensei))
    as (Hrun & Hout & _ & _ & _ & Hthrow).
  - repeat constructor.
  - eexists _, _. split; [exact Hrun|]. split; [reflexivity|]. split; [reflexivity|].
    apply (Hthrow broken [late]). reflexivity.
Defined.

(** ** Microphone permission *)

Section Permission.

Lemma prefix_toLowerCase (sub s : string) :
  String.prefix sub s = true →
  String.prefix (toLowerCase sub) (toLowerCase s) = true.
Proof.
  revert s. induction sub as [| a sub IH]; intros s; [by destruct s|].
  destruct s as [| b s]; simpl; [done|].
  destruct (ascii_dec a b) as [-> | Hne]; [|done].
  intros Hp. destruct (ascii_dec (lowerAscii b) (lowerAscii b)); [by apply IH | done].
Qed.

(** A lower-case needle found in a message is found in the lower-cased
    message. *)
Lemma includes_toLowerCase (sub s : string) :
  toLowerCase sub = sub →
  includes sub s = true → includes sub (toLowerCase s) = true.
Proof.
  intros Hsub. induction s as [| b s IH]; cbn [includes toLowerCase]; [done|].
  destruct (String.prefix sub (String b s)) eqn:Hp.
  - intros _. apply prefix_toLowerCase in Hp. rewrite Hsub in Hp.
    cbn [toLowerCase] in Hp. by rewrite Hp.
  - intros Hin. rewrite (IH Hin). by case_match.
Qed.

Lemma orElse_found (sub s alt : string) :
  includes sub s = true → sub ≠ "" → orElse s alt = s.
Proof.
  destruct s; [|done].
  destruct sub; [done|]. discriminate.
Qed.

Lemma isPermissionError_intro (e : Error) :
  name e = "NotAllowedError" ∨ name e = "PermissionDeniedError"
  ∨ name e = "SecurityError"
  ∨ includes "permission denied" (message e) = true
  ∨ includes "denied" (message e) = true
  ∨ includes "blocked" (message e) = true →
  isPermissionError e = true.
Proof.
  intros H. unfold isPermissionError. rewrite !orb_true_iff.
  destruct H as [H | [H | [H | [H | [H | H]]]]].
  1-3: rewrite H; simpl; tauto.
  all: rewrite (orElse_found _ _ (text e) H) by discriminate;
    apply includes_toLowerCase in H; [tauto | reflexivity].
Qed.

End Permission.

(** C4. In every variant and at every retry count, when [getUserMedia]
    is rejected with a permission error (by name, or by a message that
    contains one of the three markers) the live session ends with the
    error MICROPHONE_DENIED, and no retry timer is scheduled, the retry
    count is untouched and the microphone is not requested again. *)
Theorem microphone_denied_is_terminal
  (v : Variant) (e : Error) (r : Run) (c : Component) :
  mounted r = true →
  name e = "NotAllowedError" ∨ name e = "PermissionDeniedError"
  ∨ name e = "SecurityError"
  ∨ includes "permission denied" (message e) = true
  ∨ includes "denied" (message e) = true
  ∨ includes "blocked" (message e) = true →
  (startSession_rejected v e r c).1 = r ∧
  error (startSession_rejected v e r c).2 = Some "MICROPHONE_DENIED" ∧
  timers (startSession_rejected v e r c).2 = timers c ∧
  retryCount (startSession_rejected v e r c).2 = retryCount c ∧
  gumCalls (startSession_rejected v e r c).2 = gumCalls c.
Proof.
  intros Hm He. unfold startSession_rejected, rethrowMicError.
  rewrite (isPermissionError_intro e He). unfold startSession_catch.
  rewrite Hm. simpl. done.
Qed.

Lemma microphone_denied_is_terminal_witness :
  error (startSession_rejected LiveSensei
           {| name := "DOMException"; message := "Permission denied by system";
              text := "DOMException: Permission denied by system" |}
           (newRun 2) (initialComponent LiveSensei)).2
  = Some "MICROPHONE_DENIED".
Proof.
  apply (microphone_denied_is_terminal LiveSensei
           {| name := "DOMException"; message := "Permission denied by system";
              text := "DOMException: Permission denied by system" |}
           (newRun 2) (initialComponent LiveSensei)).
  - reflexivity.
  - right; right; right; right; left. reflexivity.
Defined.

(** ** Retry policy of the channel's [onerror] *)

Section Backoff.

Lemma backoff_below_cap (n : nat) :
  backoff n < 10000 → backoff n == 1000 * (3 # 2) ^ Z.of_nat n.
Proof.
  unfold backoff. intros H. apply Q.min_lt_iff in H as [H | H].
  - apply Q.min_l. by apply Qlt_le_weak.
  - by apply Qlt_irrefl in H.
Qed.

(** The delay grows strictly as long as it has not reached the cap. *)
Lemma backoff_increasing (n : nat) :
  backoff n < 10000 → backoff n < backoff (S n).
Proof.
  intros Hcap. pose proof (backoff_below_cap n Hcap) as Heq.
  assert (0 < (3 # 2) ^ Z.of_nat n) as Hpos by (by apply Qpower_0_lt).
  unfold backoff at 2. apply Q.min_glb_lt; [|exact Hcap].
  rewrite Heq, Nat2Z.inj_succ. unfold Z.succ.
  rewrite Qpower_plus by discriminate. rewrite Qpower_1_r. lra.
Qed.

Lemma backoff_first_five (n : nat) :
  (n < 5)%nat →
  backoff n == 1000 * (3 # 2) ^ Z.of_nat n ∧ backoff n < backoff (S n) ∧ backoff (S n) < 10000.
Proof.
  intros Hn. do 5 (destruct n as [| n]; [repeat split; vm_compute; reflexivity |]). lia.
Qed.

Lemma cleanup_retryCount v r c : retryCount (cleanup v r c).2 = retryCount c.
Proof.
  unfold cleanup. simpl.
  destruct (streamRef c), (stopsSourcesOnCleanup v), (channel r); reflexivity.
Qed.

Lemma startSession_run v env r c : (startSession v env r c).1 = r.
Proof. unfold startSession. destruct (apiKey env), v, (mediaDevices env); reflexivity. Qed.

(** Whatever the run saw, once the count has changed the next run sees
    the new count. *)
Lemma commit_seen v env r c : seen (commit v env r c).1 = retryCount c.
Proof.
  unfold commit, depsChanged. destruct (Nat.eqb_spec (seen r) (retryCount c)) as [Heq | Hne]; simpl.
  - exact Heq.
  - rewrite startSession_run. simpl. apply cleanup_retryCount.
Qed.

End Backoff.

(** C5, as stated, fails: OralEvaluator retries a transient error after a
    fixed 2000 ms (at retry count 1 the formula gives 1500 ms), and in
    LiveSensei an error that is neither a permission error nor transient
    but carries a model-unavailable marker is terminal at once, with no
    retry. *)
Lemma transient_retry_delay_differs :
  timers (onerror OralEvaluator "Network error" (newRun 1) (initialComponent OralEvaluator))
  = [{| delay := 2000; action := BumpRetry |}]
  ∧ ¬ 2000 == Qmin (1000 * (3 # 2) ^ 1) 10000
  ∧ timers (onerror LiveSensei "404 Not Found" (newRun 0) (initialComponent LiveSensei)) = []
  ∧ error (onerror LiveSensei "404 Not Found" (newRun 0) (initialComponent LiveSensei))
    = Some "Voice Model Unavailable in Region.".
Proof.
  split; [reflexivity|]. split; [discriminate|]. split; reflexivity.
Qed.

(** C5, amended. In LiveSensei and VoiceCoder, for a channel error that
    carries no model-unavailable marker (a test only LiveSensei makes):
    a transient error at retry count n below 5 schedules exactly one
    retry after min(1000 * 1.5^n, 10000) ms, a delay that grows strictly
    with n and stays below the cap for these n; at n = 5 or more it ends
    in a terminal error with no retry.  Any other such error schedules
    one retry after 2000 ms while n is below 3 and is terminal from 3 on.
    A retry that fires adds one to the retry count, and the run that
    follows sees the incremented count. *)
Theorem transient_errors_back_off
  (v : Variant) (env : Env) (errStr : string) (r : Run) (c : Component) :
  v = LiveSensei ∨ v = VoiceCoder →
  mounted r = true →
  (v = LiveSensei →
   includes "not implemented" errStr || includes "not supported" errStr
   || includes "404" errStr = false) →
  let transient :=
    includes "Network error" errStr || includes "Failed to fetch" errStr
    || includes "503" errStr || includes "Internal error" errStr in
  let c' := onerror v errStr r c in
  (transient = true → (seen r < 5)%nat →
     timers c' = timers c ++ [{| delay := backoff (seen r); action := BumpRetry |}]
     ∧ error c' = error c) ∧
  (transient = true → (5 ≤ seen r)%nat → timers c' = timers c ∧ is_Some (error c')) ∧
  (transient = false → (seen r < 3)%nat →
     timers c' = timers c ++ [{| delay := 2000; action := BumpRetry |}]
     ∧ error c' = error c) ∧
  (transient = false → (3 ≤ seen r)%nat → timers c' = timers c ∧ is_Some (error c')) ∧
  retryCount c' = retryCount c ∧
  retryCount (fire BumpRetry r c') = S (retryCount c) ∧
  seen (commit v env r (fire BumpRetry r c')).1 = S (retryCount c) ∧
  (∀ n, (n < 5)%nat →
     backoff n == 1000 * (3 # 2) ^ Z.of_nat n ∧ backoff n < backoff (S n)
     ∧ backoff (S n) < 10000) ∧
  (∀ n, backoff n < 10000 → backoff n < backoff (S n)).
Proof.
  intros Hv Hm Hun transient c'.
  assert (v = LiveSensei ∧
          includes "not implemented" errStr || includes "not supported" errStr
          || includes "404" errStr = false
          ∨ v = VoiceCoder) as Hcase.
  { destruct Hv as [-> | ->]; [left; split; [done | by apply Hun] | by right]. }
  clear Hv Hun.
  assert (retryCount c' = retryCount c) as Hrc.
  { subst c' transient. unfold onerror. rewrite Hm.
    destruct Hcase as [[-> Hun] | ->]; cbn [negb]; rewrite ?Hun;
      repeat case_match; reflexivity. }
  assert (∀ b k, (seen r <? k)%nat = b →
            (if b then (seen r < k)%nat else (k ≤ seen r)%nat)) as Hcmp.
  { intros [] k Hb; [by apply Nat.ltb_lt | by apply Nat.ltb_ge]. }
  split; [|split; [|split; [|split]]].
  1-4: subst c'; unfold onerror; rewrite Hm; fold transient; intros Ht Hn;
    destruct (seen r <? 5)%nat eqn:H5; apply Hcmp in H5;
    destruct (seen r <? 3)%nat eqn:H3; apply Hcmp in H3; try lia;
    destruct Hcase as [[-> Hun] | ->]; cbn [negb]; rewrite ?Hun, Ht; simpl; eauto.
  split; [exact Hrc|]. split; [simpl; by rewrite Hrc|].
  split; [rewrite commit_seen; simpl; by rewrite Hrc|].
  split; [apply backoff_first_five | apply backoff_increasing].
Qed.

Lemma transient_errors_back_off_witness :
  timers (onerror LiveSensei "Network error" (newRun 2) (initialComponent LiveSensei))
  = [{| delay := backoff 2; action := BumpRetry |}]
  ∧ backoff 2 == 2250.
Proof.
  split; [|reflexivity].
  apply (transient_errors_back_off LiveSensei {| apiKey := true; mediaDevices := true |}
           "Network error" (newRun 2) (initialComponent LiveSensei)).
  - by left.
  - reflexivity.
  - reflexivity.
  - reflexivity.
  - simpl. lia.
Defined.

(** The scenario of consecutive network errors in LiveSensei, each one
    met by a fresh run: five retries with the delays of the backoff, then
    the sixth error is terminal and schedules nothing. *)
Example five_network_errors_then_terminal :
  let env := {| apiKey := true; mediaDevices := true |} in
  let attempt (k : nat) :=
    [ (0%Z, PermissionGranted k [Live]); (0%Z, ChannelError "Network error");
      (0%Z, TimerFired BumpRetry) ] in
  let five := play LiveSensei env (concat (attempt <$> [0; 1; 2; 3; 4]%nat))
                (mount LiveSensei env) in
  let sixth := play LiveSensei env
                 [ (0%Z, PermissionGranted 5 [Live]); (0%Z, ChannelError "Network error") ]
                 five in
  retryCount five.2 = 5%nat ∧ error five.2 = None ∧
  delay <$> timers five.2 = backoff <$> [0; 1; 2; 3; 4]%nat ∧
  error sixth.2 = Some "Connection Lost. Please check network." ∧
  timers sixth.2 = timers five.2 ∧ gumCalls sixth.2 = 6%nat.
Proof.
  repeat split; vm_compute; reflexivity.
Qed.

(** ** The guardian's cooldown *)

Section Cooldown.

Import Guardian.

Lemma shouldAttemptRecovery_stamps now g :
  lastErrorTime (shouldAttemptRecovery now g).2 = now.
Proof. reflexivity. Qed.

Lemma componentDidCatch_stamps now g : lastErrorTime (componentDidCatch now g).2 = now.
Proof.
  unfold componentDidCatch, shouldAttemptRecovery.
  by destruct (_ <? MAX_RECOVERIES)%nat.
Qed.

(** Inside the window the count is carried over. *)
Lemma shouldAttemptRecovery_within now g :
  (now - lastErrorTime g ≤ 60000)%Z →
  recoveryAttempts (shouldAttemptRecovery now g).2 = recoveryAttempts g.
Proof.
  intros Hgap. unfold shouldAttemptRecovery. simpl.
  destruct (Z.ltb_spec 60000 (now - lastErrorTime g)); [lia | done].
Qed.

End Cooldown.

(** *** What moves the session's retry count *)

Lemma startSession_catch_retryCount (v : Variant) (e : Error) (r : Run) (c : Component) :
  retryCount (startSession_catch v e r c) = retryCount c.
Proof. unfold startSession_catch. destruct v; repeat case_match; reflexivity. Qed.

Lemma startSession_retryCount (v : Variant) (env : Env) (r : Run) (c : Component) :
  retryCount (startSession v env r c).2 = retryCount c.
Proof.
  unfold startSession.
  destruct (apiKey env), v, (mediaDevices env); cbn [negb snd];
    rewrite ?startSession_catch_retryCount; reflexivity.
Qed.

Lemma commit_retryCount (v : Variant) (env : Env) (r : Run) (c : Component) :
  retryCount (commit v env r c).2 = retryCount c.
Proof.
  unfold commit. destruct (depsChanged r c); [|done].
  by rewrite startSession_retryCount, cleanup_retryCount.
Qed.

Lemma onerror_retryCount (v : Variant) (s : string) (r : Run) (c : Component) :
  retryCount (onerror v s r c) = retryCount c.
Proof. unfold onerror. destruct v; repeat case_match; reflexivity. Qed.

Lemma handleCall_retryCount (v : Variant) (fc : FunctionCall) (r : Run) (c : Component) :
  retryCount (outcome (handleCall v fc (r, c))).2 = retryCount c.
Proof. destruct v; simpl; repeat case_match; reflexivity. Qed.

Lemma handleCalls_retryCount (v : Variant) (fcs : list FunctionCall) (r : Run) (c : Component) :
  retryCount (outcome (handleCalls v fcs (r, c))).2 = retryCount c.
Proof.
  revert r c. induction fcs as [| fc rest IH]; intros r c; [done|].
  cbn [handleCalls]. pose proof (handleCall_retryCount v fc r c) as Hcall.
  destruct (handleCall v fc (r, c)) as [[r1 c1] | [e [r1 c1]]]; cbn [bind outcome] in *.
  - by rewrite IH.
  - exact Hcall.
Qed.

Lemma onmessage_retryCount (v : Variant) (now : Q) (msg : Message) (r : Run) (c : Component) :
  retryCount (outcome (onmessage v now msg r c)).2 = retryCount c.
Proof.
  unfold onmessage.
  assert (retryCount (outcome (handleToolCall v msg (r, c))).2 = retryCount c) as Htools.
  { unfold handleToolCall. destruct (toolCall msg) as [[[fcs |]] |];
      [apply handleCalls_retryCount | done | done]. }
  destruct (handleToolCall v msg (r, c)) as [[r1 c1] | [e [r1 c1]]];
    cbn [bind outcome] in *; [|done].
  unfold handleAudio.
  destruct (audioData msg) as [[dur |] |], (outputContext (audio c1));
    cbn [bind outcome fst snd]; try done;
    unfold handleInterrupted; destruct v, (interrupted msg); done.
Qed.

(** C6, as stated, fails for the retry count of a session: LiveSensei
    meets a transient error one second after it started, retries, and
    meets the next transient error 69 seconds after the first, with no
    error and no open acknowledgment in between.  The stored count is
    still 1 before that second error, which is handled as the second
    attempt (delay of the backoff at 1) and brings the count to 2. *)
Lemma session_retry_count_does_not_decay :
  let env := {| apiKey := true; mediaDevices := true |} in
  let first := [ (0%Z, PermissionGranted 0 [Live]);
                 (1000%Z, ChannelError "Network error");
                 (2000%Z, TimerFired BumpRetry);
                 (2100%Z, PermissionGranted 1 [Live]) ] in
  let second := [ (70000%Z, ChannelError "Network error") ] in
  let third := [ (71500%Z, TimerFired BumpRetry) ] in
  let start := mount LiveSensei env in
  retryCount (play LiveSensei env first start).2 = 1%nat ∧
  seen (play LiveSensei env first start).1 = 1%nat ∧
  timers (play LiveSensei env (first ++ second) start).2
  = [ {| delay := backoff 0; action := BumpRetry |};
      {| delay := backoff 1; action := BumpRetry |} ] ∧
  retryCount (play LiveSensei env (first ++ second ++ third) start).2 = 2%nat.
Proof.
  repeat split; vm_compute; reflexivity.
Qed.

(** C6, amended. The cooldown belongs to the guardian: when more than 60
    seconds have passed since the last error it examined, the next error
    first resets the stored recovery count to zero, whatever it was, and
    is then recorded as recovery 1.  The retry count of a session has no
    cooldown: one turn of the event loop changes it only on an open
    acknowledgment of a mounted run (to 0), on the retry button (to 0)
    and when a retry timer fires (plus one). *)
Theorem recovery_budget_decays
  (g : Guardian.SenseiCodeGuardian) (t0 t1 : Z) :
  (60000 < t1 - t0)%Z →
  let g1 := (Guardian.componentDidCatch t0 g).2 in
  Guardian.recoveryAttempts (Guardian.shouldAttemptRecovery t1 g1).2 = 0%nat ∧
  (Guardian.shouldAttemptRecovery t1 g1).1 = true ∧
  Guardian.componentDidCatch t1 g1
  = (Guardian.SilentRecovery,
     {| Guardian.recoveryAttempts := 1; Guardian.lastErrorTime := t1 |}) ∧
  (∀ v env ev rc,
     retryCount (step v env ev rc).2
     = match ev with
       | ChannelOpen => if mounted rc.1 then 0%nat else retryCount rc.2
       | RetryClicked => 0%nat
       | TimerFired BumpRetry => S (retryCount rc.2)
       | _ => retryCount rc.2
       end).
Proof.
  intros Hgap g1.
  assert (Guardian.lastErrorTime g1 = t0) as Hlast by apply componentDidCatch_stamps.
  split; [|split; [|split]].
  1-3: unfold Guardian.componentDidCatch, Guardian.shouldAttemptRecovery;
    rewrite Hlast; destruct (Z.ltb_spec 60000 (t1 - t0)); [|lia]; done.
  intros v env ev [r c]. unfold step.
  destruct (handle v ev (r, c).1 (r, c).2) as [r1 c1] eqn:Hh.
  rewrite commit_retryCount. cbn [fst snd] in *.
  assert (retryCount c1 = retryCount (handle v ev r c).2) as -> by (by rewrite Hh).
  destruct ev as [sid tracks | e | | | s | now msg | [] |]; cbn [handle snd].
  - unfold startSession_granted. destruct (mounted r), v; reflexivity.
  - apply startSession_catch_retryCount.
  - unfold onopen. by destruct (mounted r).
  - unfold onclose. by destruct (mounted r).
  - apply onerror_retryCount.
  - apply onmessage_retryCount.
  - reflexivity.
  - simpl. by destruct (mounted r).
  - simpl. by destruct (mounted r).
  - reflexivity.
Qed.

Lemma recovery_budget_decays_witness :
  Guardian.componentDidCatch 70000
    (Guardian.componentDidCatch 5000
       {| Guardian.recoveryAttempts := 5; Guardian.lastErrorTime := 4000 |}).2
  = (Guardian.SilentRecovery,
     {| Guardian.recoveryAttempts := 1; Guardian.lastErrorTime := 70000 |}).
Proof.
  apply (recovery_budget_decays
           {| Guardian.recoveryAttempts := 5; Guardian.lastErrorTime := 4000 |} 5000 70000).
  lia.
Defined.

(** ** Manual retry *)

Section ManualRetry.

Implicit Types (v : Variant) (env : Env) (r : Run) (c : Component).

Lemma handleManualRetry_state c :
  error (handleManualRetry c) = None ∧ retryCount (handleManualRetry c) = 0%nat.
Proof. done. Qed.

(** With the count already at zero the dependency array is unchanged:
    no teardown, no new run. *)
Lemma manual_retry_same_count v env r c :
  seen r = 0%nat →
  commit v env r (handleManualRetry c) = (r, handleManualRetry c).
Proof. intros Hseen. unfold commit, depsChanged. simpl. by rewrite Hseen. Qed.

(** With a count above zero the effect runs again and the microphone is
    requested anew. *)
Lemma manual_retry_restarts v env r c :
  seen r ≠ 0%nat → apiKey env = true → mediaDevices env = true →
  let rc := commit v env r (handleManualRetry c) in
  rc.1 = newRun 0 ∧ error rc.2 = None ∧ retryCount rc.2 = 0%nat
  ∧ gumCalls rc.2 = S (gumCalls c).
Proof.
  intros Hseen Hkey Hmd. unfold commit, depsChanged.
  destruct (Nat.eqb_spec (seen r) (retryCount (handleManualRetry c))) as [Heq | _];
    [done|].
  cbn [negb]. rewrite cleanup_retryCount. unfold startSession. rewrite Hkey, Hmd.
  unfold cleanup. simpl.
  destruct v, (streamRef c), (channel r); done.
Qed.

End ManualRetry.

(** C8 on the code: the microphone is refused on the first attempt
    (retry count 0) and the user presses the retry button.  The error is
    cleared and the count stays 0, so the effect does not run again:
    the run is the one that failed and [getUserMedia] has still been
    called once only.  The same holds in GoalCollector. *)
Theorem manual_retry_at_zero_starts_nothing :
  let env := {| apiKey := true; mediaDevices := true |} in
  let denied := {| name := "NotAllowedError"; message := "Permission denied";
                   text := "NotAllowedError: Permission denied" |} in
  ∀ v, v = LiveSensei ∨ v = GoalCollector →
  let failed := startSession_rejected v denied (mount v env).1 (mount v env).2 in
  let retried := commit v env failed.1 (handleManualRetry failed.2) in
  error failed.2 = Some "MICROPHONE_DENIED" ∧ retryCount failed.2 = 0%nat ∧
  gumCalls failed.2 = 1%nat ∧
  error retried.2 = None ∧ retryCount retried.2 = 0%nat ∧
  retried.1 = failed.1 ∧ gumCalls retried.2 = 1%nat ∧
  status retried.2 = status failed.2.
Proof.
  intros env denied v [-> | ->]; repeat split; reflexivity.
Qed.

Lemma manual_retry_at_zero_starts_nothing_witness :
  gumCalls (commit LiveSensei {| apiKey := true; mediaDevices := true |}
              (startSession_rejected LiveSensei
                 {| name := "NotAllowedError"; message := "Permission denied";
                    text := "NotAllowedError: Permission denied" |}
                 (mount LiveSensei {| apiKey := true; mediaDevices := true |}).1
                 (mount LiveSensei {| apiKey := true; mediaDevices := true |}).2).1
              (handleManualRetry
                 (startSession_rejected LiveSensei
                    {| name := "NotAllowedError"; message := "Permission denied";
                       text := "NotAllowedError: Permission denied" |}
                    (mount LiveSensei {| apiKey := true; mediaDevices := true |}).1
                    (mount LiveSensei {| apiKey := true; mediaDevices := true |}).2).2)).2
  = 1%nat.
Proof.
  apply (manual_retry_at_zero_starts_nothing LiveSensei). by left.
Defined.

(** ** Open acknowledgment *)

Lemma commit_mounted (v : Variant) (env : Env) (r : Run) (c : Component) :
  mounted r = true → mounted (commit v env r c).1 = true.
Proof.
  intros Hm. unfold commit. destruct (depsChanged r c); [|done].
  by rewrite startSession_run.
Qed.

(** C10. In every variant the open acknowledgment of a live run sets the
    retry count to zero at once, whatever it was; the run that is current
    after the update sees the count 0, so an error that follows is
    counted from zero: in LiveSensei and VoiceCoder a transient error
    then gets the first delay of the backoff. *)
Theorem onopen_resets_retry_count
  (v : Variant) (env : Env) (r : Run) (c : Component) :
  mounted r = true →
  retryCount (onopen v r c) = 0%nat ∧
  connected (onopen v r c) = true ∧
  seen (commit v env r (onopen v r c)).1 = 0%nat ∧
  mounted (commit v env r (onopen v r c)).1 = true ∧
  (v = LiveSensei ∨ v = VoiceCoder →
   ∀ x, timers (onerror v "Network error" (commit v env r (onopen v r c)).1 x)
        = timers x ++ [{| delay := backoff 0; action := BumpRetry |}]).
Proof.
  intros Hm.
  assert (retryCount (onopen v r c) = 0%nat) as H0 by (unfold onopen; by rewrite Hm).
  assert (seen (commit v env r (onopen v r c)).1 = 0%nat) as Hseen
    by (by rewrite commit_seen).
  pose proof (commit_mounted v env r (onopen v r c) Hm) as Hmc.
  split; [exact H0|]. split; [unfold onopen; by rewrite Hm|].
  split; [exact Hseen|]. split; [exact Hmc|].
  intros Hv x. unfold onerror. rewrite Hmc, Hseen.
  destruct Hv as [-> | ->]; reflexivity.
Qed.

Lemma onopen_resets_retry_count_witness :
  retryCount (onopen OralEvaluator (newRun 4)
                (setRetryCount (λ _, 4%nat) (initialComponent OralEvaluator))) = 0%nat.
Proof.
  apply (onopen_resets_retry_count OralEvaluator {| apiKey := true; mediaDevices := true |}
           (newRun 4) (setRetryCount (λ _, 4%nat) (initialComponent OralEvaluator))).
  reflexivity.
Defined.

(** ** Teardown *)

Section Teardown.

Implicit Types (v : Variant) (r : Run) (c x : Component).

Lemma cleanup_unmounts v r c : mounted (cleanup v r c).1 = false.
Proof. unfold cleanup. by destruct (channel (setMounted false r)). Qed.

(** An unmounted run's tool handlers leave the component alone, whether
    they return or throw. *)
Lemma handleCall_unmounted v fc r x :
  mounted r = false →
  (outcome (handleCall v fc (r, x))).2 = x
  ∧ mounted (outcome (handleCall v fc (r, x))).1 = false.
Proof.
  intros Hm. destruct v; simpl; rewrite Hm;
    repeat match goal with
      | |- context [String.eqb ?a ?b] => destruct (String.eqb a b)
      | |- context [fc_args fc] => destruct (fc_args fc)
      end; done.
Qed.

Lemma handleCalls_unmounted v fcs r x :
  mounted r = false →
  (outcome (handleCalls v fcs (r, x))).2 = x
  ∧ mounted (outcome (handleCalls v fcs (r, x))).1 = false.
Proof.
  revert r. induction fcs as [| fc rest IH]; intros r Hm; cbn [handleCalls]; [done|].
  destruct (handleCall_unmounted v fc r x Hm) as [Hx Hm1].
  destruct (handleCall v fc (r, x)) as [[r1 x1] | [e [r1 x1]]]; cbn [bind outcome fst snd] in *.
  - subst x1. by apply IH.
  - done.
Qed.

(** What is left of the message handler touches the audio refs only. *)
Lemma onmessage_unmounted v now msg r x :
  mounted r = false →
  mounted (outcome (onmessage v now msg r x)).1 = false
  ∧ ∃ a, (outcome (onmessage v now msg r x)).2 = setAudio a x.
Proof.
  intros Hm. unfold onmessage.
  assert ((outcome (handleToolCall v msg (r, x))).2 = x
          ∧ mounted (outcome (handleToolCall v msg (r, x))).1 = false) as [Hx Hm1].
  { unfold handleToolCall. destruct (toolCall msg) as [[[fcs |]] |];
      [by apply handleCalls_unmounted | done | done]. }
  destruct (handleToolCall v msg (r, x)) as [[r1 x1] | [e [r1 x1]]];
    cbn [bind outcome fst snd] in *; subst x1.
  - unfold handleAudio.
    destruct (audioData msg) as [[dur |] |], (outputContext (audio x));
      cbn [bind outcome fst snd]; (split; [done|]);
      unfold handleInterrupted; destruct v, (interrupted msg); destruct x;
      eexists; reflexivity.
  - split; [done|]. destruct x. eexists. reflexivity.
Qed.

Lemma stopTracks_lookup sid (m : gmap nat (list TrackState)) :
  stopTracks sid m !! sid = fmap (fmap (λ _, Ended)) (m !! sid).
Proof. unfold stopTracks. apply lookup_alter_eq. Qed.

End Teardown.

(** C9, as stated, fails: after the teardown of a connected LiveSensei
    run, a message that arrives late is still acted upon: the tool call
    is answered on the channel and the audio chunk is scheduled. *)
Lemma late_message_is_not_a_no_op :
  let env := {| apiKey := true; mediaDevices := true |} in
  let session := startSession_granted LiveSensei 0 [Live] (mount LiveSensei env).1
                   (mount LiveSensei env).2 in
  let torn := cleanup LiveSensei session.1 session.2 in
  let msg := {| toolCall := Some {| functionCalls :=
                               Some [{| fc_id := "call-1"; fc_name := "update_progress";
                                        fc_args := Some ∅ |}] |};
                audioData := Some (Buffer 1); interrupted := false |} in
  mounted torn.1 = false ∧ outbox torn.1 = [] ∧ sources (audio torn.2) = [] ∧
  ∃ r' c', onmessage LiveSensei 5 msg torn.1 torn.2 = Ok (r', c') ∧
    outbox r' = [{| fr_id := "call-1"; fr_name := "update_progress"; fr_result := "ok" |}] ∧
    sources (audio c') = [0%nat] ∧
    nodes (audio c') !! 0%nat = Some {| duration := 1; state := Started 5 |} ∧
    nextStartTime (audio c') == 6.
Proof.
  split; [reflexivity|]. split; [reflexivity|]. split; [reflexivity|].
  do 2 eexists. split; [vm_compute; reflexivity|].
  repeat split; vm_compute; reflexivity.
Qed.

(** C9, amended. The teardown clears the run's mounted flag; from then on
    the callbacks that test the flag change nothing ([onopen], [onclose],
    [onerror], the catch of [startSession], the guarded timers), a
    permission granted late only stops the tracks of the stream it
    brought, and the message handler changes no React state, schedules
    no timer and calls no parent callback: what it still does is confined
    to the audio refs and the channel.  The teardown itself stops the
    tracks of the stream in use and drops it, closes both audio contexts
    unless already closed, and closes the channel when one was created;
    it leaves pending timers and the React state as they are. *)
Theorem teardown_guards_and_releases (v : Variant) (r : Run) (c : Component) :
  let r' := (cleanup v r c).1 in
  let c' := (cleanup v r c).2 in
  mounted r' = false ∧
  (∀ x, onopen v r' x = x) ∧
  (∀ x, onclose v r' x = x) ∧
  (∀ s x, onerror v s r' x = x) ∧
  (∀ e x, startSession_catch v e r' x = x) ∧
  (∀ topic x, fire ClearUpdating r' x = x ∧ fire (CaptureGoal topic) r' x = x) ∧
  (∀ sid tracks x,
     startSession_granted v sid tracks r' x
     = (r', setStreams (<[sid := (λ _, Ended) <$> tracks]> (streams x)) x)) ∧
  (∀ now msg x,
     mounted (outcome (onmessage v now msg r' x)).1 = false
     ∧ ∃ a, (outcome (onmessage v now msg r' x)).2 = setAudio a x) ∧
  streamRef c' = None ∧
  (∀ sid, streamRef c = Some sid →
     streams c' !! sid = fmap (fmap (λ _, Ended)) (streams c !! sid)) ∧
  inputContext c' = closeContext (inputContext c) ∧
  outputContext (audio c') = closeContext (outputContext (audio c)) ∧
  (∀ o, closeContext o = None ∨ closeContext o = Some Closed) ∧
  connectedRef c' = false ∧
  (is_Some (channel r) → channel r' = Some ChanClosed) ∧
  timers c' = timers c ∧
  (connected c', status c', error c', retryCount c', ui c')
  = (connected c, status c, error c, retryCount c, ui c).
Proof.
  intros r' c'. pose proof (cleanup_unmounts v r c) as Hm. fold r' in Hm.
  split; [exact Hm|].
  split; [intros x; unfold onopen; by rewrite Hm|].
  split; [intros x; unfold onclose; by rewrite Hm|].
  split; [intros s x; unfold onerror; by rewrite Hm|].
  split; [intros e x; unfold startSession_catch; by rewrite Hm|].
  split; [intros topic x; simpl; by rewrite Hm|].
  split.
  { intros sid tracks x. unfold startSession_granted. rewrite Hm. cbn [negb].
    simpl. unfold stopTracks. by rewrite alter_insert_eq. }
  split; [intros now msg x; by apply onmessage_unmounted|].
  subst r' c'. clear Hm. unfold cleanup. simpl.
  destruct (streamRef c) as [sid0 |] eqn:Hs, (stopsSourcesOnCleanup v),
    (channel r) as [ch |]; simpl; rewrite ?Hs.
  all: split; [done|].
  all: split; [intros sid [= <-]; apply stopTracks_lookup || done|].
  all: split; [done|]. all: split; [done|].
  all: split; [intros [[] |]; simpl; auto|].
  all: split; [done|].
  all: split; [by intros [? [=]] || done|].
  all: done.
Qed.

(** ** PCM codec *)

Section PcmCodec.

Import Codec.

Lemma zOfByte_byteOfZ (z : Z) : zOfByte (byteOfZ z) = (z mod 256)%Z.
Proof.
  unfold zOfByte, byteOfZ.
  assert (0 ≤ z mod 256 < 256)%Z as Hrange by (apply Z.mod_pos_bound; lia).
  destruct (Byte.of_N (Z.to_N (z mod 256))) as [b |] eqn:Hb; simpl.
  - apply Byte.to_of_N in Hb. rewrite Hb. apply Z2N.id. lia.
  - apply Byte.of_N_None_iff in Hb. lia.
Qed.

Lemma bytesToInt16_int16ToBytes (v : Z) :
  (-32768 ≤ v ≤ 32767)%Z →
  bytesToInt16 (byteOfZ ((v mod 65536) mod 256)) (byteOfZ ((v mod 65536) / 256)) = v.
Proof.
  intros Hv. unfold bytesToInt16. rewrite !zOfByte_byteOfZ.
  rewrite Z.mod_mod by lia.
  assert (0 ≤ v mod 65536 < 65536)%Z as Hu by (apply Z.mod_pos_bound; lia).
  assert (v mod 65536 = v ∨ v mod 65536 = v + 65536)%Z as Hcase.
  { destruct (Z.leb_spec 0 v).
    - left. apply Z.mod_small. lia.
    - right. rewrite <- (Z.mod_add v 1 65536) by lia. apply Z.mod_small. lia. }
  set (u := (v mod 65536)%Z) in *.
  assert (0 ≤ u / 256 < 256)%Z as Hhi.
  { split; [apply Z.div_pos; lia | apply Z.div_lt_upper_bound; lia]. }
  rewrite (Z.mod_small (u / 256)) by lia.
  assert (u mod 256 + 256 * (u / 256) = u)%Z as -> by (rewrite (Z.div_mod u 256) at 3; lia).
  destruct (Z.ltb_spec u 32768); lia.
Qed.

Lemma clamp_range (s : Q) : -1 <= clamp s ∧ clamp s <= 1.
Proof.
  unfold clamp. split.
  - apply Q.le_max_l.
  - apply Q.max_lub; [discriminate | apply Q.le_min_l].
Qed.

Lemma clamp_inside (s : Q) : -1 <= s → s <= 1 → clamp s == s.
Proof.
  intros Hlo Hhi. unfold clamp. rewrite (Q.min_r 1 s) by done. by apply Q.max_r.
Qed.

Lemma clamp_above (s : Q) : 1 <= s → clamp s == 1.
Proof.
  intros Hs. unfold clamp. rewrite (Q.min_l 1 s) by done. by apply Q.max_r.
Qed.

Lemma clamp_below (s : Q) : s <= -1 → clamp s == -1.
Proof.
  intros Hs. unfold clamp. apply Q.max_l. eapply Qle_trans; [apply Q.le_min_r | done].
Qed.

(** Dropping the fraction moves a number by less than one, towards zero. *)
Lemma truncate_near (y : Q) :
  y - 1 < inject_Z (truncate y) ∧ inject_Z (truncate y) < y + 1.
Proof.
  unfold truncate. destruct (Qlt_le_dec y 0); cbv beta iota.
  - pose proof (Qle_ceiling y). pose proof (Qceiling_lt y) as Hlt.
    unfold Z.sub in Hlt. rewrite inject_Z_plus, inject_Z_opp in Hlt.
    change (inject_Z 1) with 1 in Hlt.
    revert H Hlt. generalize (inject_Z (Qceiling y)). intros t H Hlt. split; lra.
  - pose proof (Qfloor_le y). pose proof (Qlt_floor y) as Hlt.
    rewrite inject_Z_plus in Hlt. change (inject_Z 1) with 1 in Hlt.
    revert H Hlt. generalize (inject_Z (Qfloor y)). intros t H Hlt. split; lra.
Qed.

Lemma truncate_Z (z : Z) : truncate (inject_Z z) = z.
Proof.
  unfold truncate. destruct (Qlt_le_dec (inject_Z z) 0); [apply Qceiling_Z | apply Qfloor_Z].
Qed.


Lemma truncate_proper (x y : Q) : x == y → truncate x = truncate y.
Proof.
  intros Heq. unfold truncate.
  destruct (Qlt_le_dec x 0) as [Hx | Hx], (Qlt_le_dec y 0) as [Hy | Hy].
  - apply Z.le_antisymm; apply Qceiling_resp_le; rewrite Heq; apply Qle_refl.
  - rewrite Heq in Hx. exfalso. by apply (Qlt_not_le _ _ Hx).
  - rewrite Heq in Hx. exfalso. by apply (Qlt_not_le _ _ Hy).
  - apply Z.le_antisymm; apply Qfloor_resp_le; rewrite Heq; apply Qle_refl.
Qed.

Lemma quantize_range (s : Q) : (-32768 ≤ quantize s ≤ 32767)%Z.
Proof.
  unfold quantize. split; [|apply Z.le_min_l].
  apply Z.min_glb; [lia|].
  destruct (clamp_range s) as [Hlo _].
  destruct (truncate_near (clamp s * 32768)) as [Hnear _].
  apply Z.lt_succ_r. rewrite Zlt_Qlt. unfold Z.succ. rewrite inject_Z_plus.
  change (inject_Z 1) with 1. change (inject_Z (-32768)) with (-32768 # 1).
  revert Hnear. generalize (inject_Z (truncate (clamp s * 32768))). intros t Hnear.
  lra.
Qed.

(** Out-of-range samples saturate. *)
Lemma quantize_above (s : Q) : 1 <= s → quantize s = 32767%Z.
Proof.
  intros Hs. unfold quantize.
  rewrite (truncate_proper (clamp s * 32768) (inject_Z 32768)).
  - by rewrite truncate_Z.
  - rewrite (clamp_above s Hs). reflexivity.
Qed.

Lemma quantize_below (s : Q) : s <= -1 → quantize s = (-32768)%Z.
Proof.
  intros Hs. unfold quantize.
  rewrite (truncate_proper (clamp s * 32768) (inject_Z (-32768))).
  - by rewrite truncate_Z.
  - rewrite (clamp_below s Hs). reflexivity.
Qed.

(** In range the integer is the scaled sample up to one unit. *)
Lemma quantize_near (s : Q) :
  -1 <= s → s <= 1 → Qabs (inject_Z (quantize s) - s * 32768) <= 1.
Proof.
  intros Hlo Hhi. apply Qabs_Qle_condition.
  pose proof (clamp_inside s Hlo Hhi) as Hc.
  destruct (truncate_near (clamp s * 32768)) as [Hnear1 Hnear2].
  unfold quantize.
  destruct (Z.min_spec 32767 (truncate (clamp s * 32768))) as [[Hlt ->] | [Hle ->]].
  - assert (inject_Z 32768 <= inject_Z (truncate (clamp s * 32768))) as Hbig
      by (rewrite <- Zle_Qle; lia).
    change (inject_Z 32768) with (32768 # 1) in Hbig.
    change (inject_Z 32767) with (32767 # 1).
    revert Hnear1 Hnear2 Hbig. generalize (inject_Z (truncate (clamp s * 32768))).
    intros t Hnear1 Hnear2 Hbig. split; lra.
  - revert Hnear1 Hnear2. generalize (inject_Z (truncate (clamp s * 32768))).
    intros t Hnear1 Hnear2. split; lra.
Qed.

Lemma decodeSamples_encode (xs : list Q) :
  decodeSamples (encode xs) = Ok ((λ s, inject_Z (quantize s) / 32768) <$> xs).
Proof.
  induction xs as [| s xs IH]; [done|].
  unfold encode in *. cbn [flat_map int16ToBytes app decodeSamples].
  rewrite IH. cbn [bind fmap list_fmap].
  by rewrite bytesToInt16_int16ToBytes by apply quantize_range.
Qed.

Lemma decodeSamples_parity (bs : list Byte.byte) :
  (∃ e, decodeSamples bs = Throw e) ↔ Nat.Odd (length bs).
Proof.
  enough (∀ l : list Byte.byte,
            ((∃ e, decodeSamples l = Throw e) ↔ Nat.Odd (length l))
            ∧ ∀ b, (∃ e, decodeSamples (b :: l) = Throw e) ↔ Nat.Odd (length (b :: l)))
    as H by apply H.
  induction l as [| a l [IH1 IH2]].
  - split.
    + split; [by intros [e He] | intros [k Hk]; simpl in Hk; lia].
    + intros b. split; [intros _; by exists 0%nat | by exists OddLength].
  - split; [apply IH2|].
    intros b. cbn [decodeSamples length]. rewrite Nat.Odd_succ_succ. rewrite <- IH1.
    destruct (decodeSamples l) as [ys | e]; cbn [bind];
      split; intros [e' He']; (done || by eexists).
Qed.

End PcmCodec.

(** C7. On the codec as the specification describes it: every sample is
    mapped to a signed 16-bit integer, the scaled sample up to one unit
    when the sample lies in [-1, 1] and the nearest end of the range
    (never a wrapped value) when it lies outside; decoding the encoding
    of samples in [-1, 1] succeeds, returns as many samples, each within
    one 16-bit step (2^-15) of the original, tagged with the given rate
    and channel count; and decoding fails exactly on input of odd
    length. *)
Theorem pcm_round_trip (xs : list Q) (rate channels : Z) :
  Forall (λ s, -1 <= s ∧ s <= 1) xs →
  ∃ ys,
    Codec.decode (Codec.encode xs) rate channels
    = Ok {| Codec.samples := ys; Codec.sampleRate := rate;
            Codec.numberOfChannels := channels |} ∧
    length ys = length xs ∧
    (∀ i x y, xs !! i = Some x → ys !! i = Some y → Qabs (y - x) <= Codec.resolution) ∧
    (∀ s, (-32768 ≤ Codec.quantize s ≤ 32767)%Z) ∧
    (∀ s, -1 <= s → s <= 1 → Qabs (inject_Z (Codec.quantize s) - s * 32768) <= 1) ∧
    (∀ s, 1 <= s → Codec.quantize s = 32767%Z) ∧
    (∀ s, s <= -1 → Codec.quantize s = (-32768)%Z) ∧
    (∀ bs r c, (∃ e, Codec.decode bs r c = Throw e) ↔ Nat.Odd (length bs)).
Proof.
  intros Hxs. exists ((λ s, inject_Z (Codec.quantize s) / 32768) <$> xs).
  split; [unfold Codec.decode; by rewrite decodeSamples_encode|].
  split; [apply length_fmap|].
  split.
  { intros i x y Hx Hy. rewrite list_lookup_fmap, Hx in Hy. injection Hy as <-.
    rewrite Forall_lookup in Hxs. destruct (Hxs i x Hx) as [Hlo Hhi].
    pose proof (quantize_near x Hlo Hhi) as Hq.
    apply Qabs_Qle_condition in Hq as [Hq1 Hq2]. apply Qabs_Qle_condition.
    unfold Codec.resolution.
    revert Hq1 Hq2. generalize (inject_Z (Codec.quantize x)). intros t Hq1 Hq2.
    unfold Qdiv. change (/ 32768) with (1 # 32768). split; lra. }
  split; [apply quantize_range|]. split; [apply quantize_near|].
  split; [apply quantize_above|]. split; [apply quantize_below|].
  intros bs r c. rewrite <- decodeSamples_parity. unfold Codec.decode.
  destruct (Codec.decodeSamples bs) as [ys | e]; cbn [bind];
    split; intros [e' He']; (done || by eexists).
Qed.

Lemma pcm_round_trip_witness :
  ∃ ys, Codec.decode (Codec.encode [1; -1; 0; 1 # 3]) 24000 1
        = Ok {| Codec.samples := ys; Codec.sampleRate := 24000;
                Codec.numberOfChannels := 1 |}
        ∧ length ys = 4%nat.
Proof.
  destruct (pcm_round_trip [1; -1; 0; 1 # 3] 24000 1) as (ys & Hdec & Hlen & _).
  - repeat constructor; simpl; discriminate.
  - exists ys. split; [exact Hdec | exact Hlen].
Defined.

(** * Beyond the single callbacks *)

(** ** More on the playback scheduler *)

Section Playback.

Implicit Types (a : AudioOut) (chunks : list (Q * Q)) (s t : Step) (M : Q).

(** What one step does, whatever came before it. *)
Lemma trace_step a chunks i s :
  trace a chunks !! i = Some s →
  arrival s <= startAt s ∧ offsetBefore s <= startAt s ∧
  source s = Some {| duration := length_ s; state := Started (startAt s) |} ∧
  offsetAfter s = Js.add (startAt s) (length_ s).
Proof.
  revert a i. induction chunks as [| [now dur] rest IH]; intros a i.
  - simpl. by rewrite lookup_nil.
  - rewrite trace_cons. destruct i as [| i]; cbn [lookup list_lookup]; [| apply IH].
    intros [= <-]. cbn [arrival startAt offsetBefore source length_ offsetAfter].
    split; [apply clampToNow_now|]. split; [apply clampToNow_offset|].
    split; [apply enqueue_node | done].
Qed.

Lemma trace_starts_after_offset a chunks k t :
  isTime (nextStartTime a) →
  Forall (λ ch, isTime ch.1 ∧ isTime ch.2) chunks →
  trace a chunks !! k = Some t → nextStartTime a <= startAt t.
Proof.
  intros Ha Hch. revert a k Ha.
  induction Hch as [| [now dur] rest [Hnow [_ Hdur]] _ IH]; intros a k Ha.
  - simpl. by rewrite lookup_nil.
  - rewrite trace_cons. cbn [fst snd] in *.
    pose proof (clampToNow_time now a Hnow Ha) as Hs.
    destruct k as [| k]; cbn [lookup list_lookup].
    + intros [= <-]. apply clampToNow_offset.
    + intros Ht. apply IH in Ht.
      * rewrite enqueue_offset in Ht.
        pose proof (clampToNow_offset now a). pose proof (add_ge _ dur Hs Hdur). lra.
      * rewrite enqueue_offset. apply add_time; [apply Hs | exact Hdur].
Qed.

(** A chunk starts no earlier than the offset left by any chunk before. *)
Lemma trace_later a chunks i j s t :
  isTime (nextStartTime a) →
  Forall (λ ch, isTime ch.1 ∧ isTime ch.2) chunks →
  (i < j)%nat → trace a chunks !! i = Some s → trace a chunks !! j = Some t →
  offsetAfter s <= startAt t.
Proof.
  intros Ha Hch. revert a i j Ha.
  induction Hch as [| [now dur] rest [Hnow [Hd Hdur]] Hrest IH]; intros a i j Ha Hij.
  - simpl. by rewrite lookup_nil.
  - rewrite trace_cons. cbn [fst snd] in *.
    assert (isTime (nextStartTime (enqueue now dur a).2)) as Ha'.
    { rewrite enqueue_offset. apply add_time; [| exact Hdur].
      apply (clampToNow_time now a Hnow Ha). }
    destruct j as [| j]; [lia|]. destruct i as [| i]; cbn [lookup list_lookup].
    + intros [= <-] Ht. cbn [offsetAfter]. rewrite <- (enqueue_offset now dur a).
      by apply (trace_starts_after_offset _ rest j).
    + apply IH; [exact Ha' | lia].
Qed.

(** Chunks that all arrive in time: the offset after the last one is the
    offset found by the first plus the durations, added one at a time
    from the left as the code does, and within one rounding error per
    chunk of the exact sum. *)
Lemma trace_in_time_total chunks a (final : Step) M :
  isTime (nextStartTime a) →
  Forall (λ ch, isTime ch.1 ∧ isTime ch.2) chunks →
  Forall (λ s, startAt s + length_ s <= M) (trace a chunks) →
  (∀ i s, trace a chunks !! i = Some s → arrival s <= offsetBefore s) →
  last (trace a chunks) = Some final →
  offsetAfter final = foldl Js.add (nextStartTime a) chunks.*2 ∧
  Qabs (offsetAfter final - (nextStartTime a + totalDuration chunks))
  <= inject_Z (Z.of_nat (length chunks)) * Js.roundingError M.
Proof.
  intros Ha Hch. revert a final Ha.
  induction Hch as [| [now dur] rest [Hnow [Hd Hdur]] Hrest IH]; intros a final Ha HM Hin;
    [done|].
  rewrite trace_cons in HM, Hin |- *. cbn [fst snd] in *.
  pose proof (Hin 0%nat _ eq_refl) as H0. cbn [arrival offsetBefore] in H0.
  apply Forall_cons in HM as [HM0 HM]. cbn [startAt length_] in HM0.
  rewrite (clampToNow_early now a H0) in HM0 |- *.
  assert (0 <= nextStartTime a + dur) as Hsum by (destruct Ha; lra).
  pose proof (double_error _ M Hsum HM0) as Herr.
  fold (Js.add (nextStartTime a) dur) in Herr.
  apply Qabs_Qle_condition in Herr.
  rewrite last_cons. cbn [fmap list_fmap foldl snd length].
  rewrite Nat2Z.inj_succ. unfold Z.succ. rewrite inject_Z_plus.
  set (N := inject_Z (Z.of_nat (length rest))). change (inject_Z 1) with 1.
  assert (0 <= N) as HN.
  { unfold N. change 0 with (inject_Z 0). rewrite <- Zle_Qle. lia. }
  destruct (last (trace (enqueue now dur a).2 rest)) as [f |] eqn:Hl.
  - intros [= <-].
    destruct (IH (enqueue now dur a).2 f) as [Hfold Hdrift]; [| exact HM | | exact Hl |].
    + rewrite enqueue_offset. apply add_time; [| exact Hdur].
      rewrite (clampToNow_early now a H0). apply Ha.
    + intros i s Hs. apply (Hin (S i)). exact Hs.
    + rewrite enqueue_offset, (clampToNow_early now a H0) in Hfold, Hdrift.
      split; [exact Hfold|].
      apply Qabs_Qle_condition in Hdrift. apply Qabs_Qle_condition.
      cbn [totalDuration foldr snd]. fold (totalDuration rest). fold N in Hdrift.
      split; lra.
  - intros [= <-]. cbn [offsetAfter].
    apply last_None in Hl. apply (f_equal length) in Hl.
    rewrite trace_length in Hl. destruct rest; [| discriminate Hl].
    split; [reflexivity|]. apply Qabs_Qle_condition.
    cbn [totalDuration foldr snd length Z.of_nat] in *. unfold N. cbn [length Z.of_nat].
    change (inject_Z (Z.of_nat 0)) with 0.
    pose proof (roundingError_pos M) as HE.
    split; lra.
Qed.

End Playback.

(** X1. Chunks overlap by no more than one rounding error.  Every chunk
    is started no earlier than it arrived and no earlier than the offset
    it found, and a chunk fed later is started no earlier than the offset
    stored after any chunk fed before it; that offset is the sum the code
    computed on doubles, so the later chunk may start before the exact
    end of the earlier one, by at most the rounding error of one
    addition. *)
Theorem chunks_overlap_only_by_rounding (a : AudioOut) (chunks : list (Q * Q)) (M : Q) :
  Js.isTime (nextStartTime a) →
  Forall (λ ch, Js.isTime ch.1 ∧ Js.isTime ch.2) chunks →
  Forall (λ s, startAt s + length_ s <= M) (trace a chunks) →
  M <= Js.MAX_VALUE →
  (∀ i s, trace a chunks !! i = Some s →
     arrival s <= startAt s ∧ offsetBefore s <= startAt s ∧
     source s = Some {| duration := length_ s; state := Started (startAt s) |}) ∧
  (∀ i j s t, (i < j)%nat → trace a chunks !! i = Some s → trace a chunks !! j = Some t →
     offsetAfter s <= startAt t ∧
     startAt s + length_ s - Js.roundingError M <= startAt t).
Proof.
  intros Ha Hch HM _. split.
  - intros i s Hs. destruct (trace_step a chunks i s Hs) as (H1 & H2 & H3 & _). done.
  - intros i j s t Hij Hs Ht.
    pose proof (trace_later a chunks i j s t Ha Hch Hij Hs Ht) as Hlater.
    split; [exact Hlater|].
    destruct (trace_step a chunks i s Hs) as (_ & _ & _ & Hoff).
    destruct (trace_time a chunks Ha Hch i s Hs) as (_ & [_ Hstart] & Hlen & _).
    rewrite Forall_lookup in HM. pose proof (HM i s Hs) as Hsum. cbn beta in Hsum.
    assert (0 <= startAt s + length_ s) as H0 by lra.
    pose proof (double_error _ M H0 Hsum) as Herr.
    fold (Js.add (startAt s) (length_ s)) in Herr. rewrite <- Hoff in Herr.
    apply Qabs_Qle_condition in Herr. lra.
Qed.

Lemma chunks_overlap_only_by_rounding_witness :
  let chunks := [(0, Js.double (1 # 50)); (0, Js.double (1 # 25)); (0, Js.double (1 # 50))] in
  ∃ s t,
    trace freshAudio chunks !! 1%nat = Some s ∧
    trace freshAudio chunks !! 2%nat = Some t ∧
    startAt t < startAt s + length_ s ∧
    startAt s + length_ s - Js.roundingError 1 <= startAt t.
Proof.
  intros chunks.
  destruct (chunks_overlap_only_by_rounding freshAudio chunks 1) as [_ Hlater].
  - split; [reflexivity | discriminate].
  - repeat constructor; try (vm_compute; reflexivity); vm_compute; discriminate.
  - repeat constructor; vm_compute; discriminate.
  - vm_compute. discriminate.
  - destruct (trace freshAudio chunks !! 1%nat) as [s |] eqn:Hs;
      [| vm_compute in Hs; discriminate Hs].
    destruct (trace freshAudio chunks !! 2%nat) as [t |] eqn:Ht;
      [| vm_compute in Ht; discriminate Ht].
    exists s, t. split; [reflexivity|]. split; [reflexivity|].
    split; [| exact (proj2 (Hlater 1%nat 2%nat s t ltac:(lia) Hs Ht))].
    vm_compute in Hs, Ht. injection Hs as <-. injection Ht as <-.
    vm_compute. reflexivity.
Defined.

(** X2. Gapless playback.  When every chunk but the first arrives while
    audio is still queued ahead of it, the offset after the last chunk is
    the start of the first chunk plus the durations of all chunks, added
    one at a time from the left on doubles, and it is off the exact sum
    by at most one rounding error per chunk. *)
Theorem back_to_back_total
  (a : AudioOut) (chunks : list (Q * Q)) (first final : Step) (M : Q) :
  Js.isTime (nextStartTime a) →
  Forall (λ ch, Js.isTime ch.1 ∧ Js.isTime ch.2) chunks →
  Forall (λ s, startAt s + length_ s <= M) (trace a chunks) →
  M <= Js.MAX_VALUE →
  (∀ i s, trace a chunks !! S i = Some s → arrival s <= offsetBefore s) →
  trace a chunks !! 0%nat = Some first →
  last (trace a chunks) = Some final →
  offsetAfter final = foldl Js.add (startAt first) chunks.*2 ∧
  Qabs (offsetAfter final - (startAt first + totalDuration chunks))
  <= inject_Z (Z.of_nat (length chunks)) * Js.roundingError M.
Proof.
  intros Ha Hch HM _ Hin Hfirst Hlast. destruct chunks as [| [now dur] rest]; [done|].
  apply Forall_cons in Hch as [[Hnow [Hd Hdur]] Hrest]. cbn [fst snd] in *.
  rewrite trace_cons in HM, Hin, Hfirst, Hlast.
  injection Hfirst as <-. cbn [startAt].
  apply Forall_cons in HM as [HM0 HM]. cbn [startAt length_] in HM0.
  pose proof (clampToNow_time now a Hnow Ha) as Hs.
  assert (0 <= clampToNow now a + dur) as Hsum by (destruct Hs; lra).
  pose proof (double_error _ M Hsum HM0) as Herr.
  fold (Js.add (clampToNow now a) dur) in Herr.
  apply Qabs_Qle_condition in Herr.
  rewrite last_cons in Hlast. cbn [fmap list_fmap foldl snd length].
  rewrite Nat2Z.inj_succ. unfold Z.succ. rewrite inject_Z_plus.
  set (N := inject_Z (Z.of_nat (length rest))). change (inject_Z 1) with 1.
  cbn [totalDuration foldr snd]. fold (totalDuration rest).
  destruct (last (trace (enqueue now dur a).2 rest)) as [f |] eqn:Hl.
  - injection Hlast as <-.
    destruct (trace_in_time_total rest (enqueue now dur a).2 f M) as [Hfold Hdrift];
      [| exact Hrest | exact HM | | exact Hl |].
    + rewrite enqueue_offset. apply add_time; [apply Hs | exact Hdur].
    + intros i s Hsi. apply (Hin i). exact Hsi.
    + rewrite enqueue_offset in Hfold, Hdrift. split; [exact Hfold|].
      apply Qabs_Qle_condition in Hdrift. apply Qabs_Qle_condition.
      fold N in Hdrift. split; lra.
  - injection Hlast as <-. cbn [offsetAfter].
    apply last_None in Hl. apply (f_equal length) in Hl.
    rewrite trace_length in Hl. destruct rest; [| discriminate Hl].
    split; [reflexivity|]. apply Qabs_Qle_condition.
    cbn [totalDuration foldr snd length Z.of_nat] in *. unfold N. cbn [length Z.of_nat].
    change (inject_Z (Z.of_nat 0)) with 0.
    pose proof (roundingError_pos M) as HE.
    split; lra.
Qed.

Lemma back_to_back_total_witness :
  let chunks := [(3, Js.double (1 # 10)); (3, Js.double (1 # 5));
                 (Js.double (16 # 5), Js.double (3 # 10))] in
  ∃ first final,
    trace freshAudio chunks !! 0%nat = Some first ∧
    last (trace freshAudio chunks) = Some final ∧
    startAt first = 3 ∧
    offsetAfter final = foldl Js.add (startAt first) chunks.*2 ∧
    Qabs (offsetAfter final - (startAt first + totalDuration chunks))
    <= inject_Z (Z.of_nat (length chunks)) * Js.roundingError 4.
Proof.
  intros chunks.
  destruct (trace freshAudio chunks !! 0%nat) as [first |] eqn:Hf;
    [| vm_compute in Hf; discriminate Hf].
  destruct (last (trace freshAudio chunks)) as [final |] eqn:Hl;
    [| vm_compute in Hl; discriminate Hl].
  exists first, final. split; [reflexivity|]. split; [reflexivity|]. split.
  - vm_compute in Hf. injection Hf as <-. reflexivity.
  - apply (back_to_back_total freshAudio chunks first final 4); [| | | | | exact Hf | exact Hl].
    + split; [reflexivity | discriminate].
    + repeat constructor; try (vm_compute; reflexivity); vm_compute; discriminate.
    + repeat constructor; vm_compute; discriminate.
    + vm_compute. discriminate.
    + intros [| [| i]] s; simpl; intros [= <-]; vm_compute; discriminate.
Defined.

(** ** What every callback keeps *)

Section Frames.

Implicit Types (v : Variant) (env : Env) (r : Run) (c : Component) (a : AudioOut).

Lemma startSession_catch_audio v e r c : audio (startSession_catch v e r c) = audio c.
Proof. unfold startSession_catch. destruct v; repeat case_match; reflexivity. Qed.

Lemma startSession_audio v env r c : audio (startSession v env r c).2 = audio c.
Proof.
  unfold startSession.
  destruct (apiKey env), v, (mediaDevices env); cbn [negb snd];
    rewrite ?startSession_catch_audio; reflexivity.
Qed.

Lemma onerror_audio v s r c : audio (onerror v s r c) = audio c.
Proof. unfold onerror. destruct v; repeat case_match; reflexivity. Qed.

Lemma handleCall_audio v fc r c : audio (outcome (handleCall v fc (r, c))).2 = audio c.
Proof. destruct v; simpl; repeat case_match; reflexivity. Qed.

Lemma handleCalls_audio v fcs r c : audio (outcome (handleCalls v fcs (r, c))).2 = audio c.
Proof.
  revert r c. induction fcs as [| fc rest IH]; intros r c; [done|].
  cbn [handleCalls]. pose proof (handleCall_audio v fc r c) as Hcall.
  destruct (handleCall v fc (r, c)) as [[r1 c1] | [e [r1 c1]]]; cbn [bind outcome] in *.
  - by rewrite IH.
  - exact Hcall.
Qed.

(** What the teardown does to the audio refs. *)
Lemma cleanup_audio v r c :
  audio (cleanup v r c).2
  = setNodes (if stopsSourcesOnCleanup v
              then stopAll (sources (audio c)) (nodes (audio c)) else nodes (audio c))
      (setOutputContext (closeContext (outputContext (audio c))) (audio c)).
Proof.
  unfold cleanup. destruct r as [m s [ch |] o].
  all: destruct (streamRef c) eqn:Hs, v; cbn; rewrite ?Hs; cbn; by destruct (audio c).
Qed.

Lemma startSession_granted_audio v sid tracks r c :
  audio (startSession_granted v sid tracks r c).2
  = if mounted r then setOutputContext (Some Running) (audio c) else audio c.
Proof. unfold startSession_granted. destruct (mounted r), v; reflexivity. Qed.

(** The message handler either leaves the audio refs alone, or schedules
    the chunk of the message, and then acts on the interruption flag. *)
Lemma onmessage_audio_cases v now msg r c :
  match onmessage v now msg r c with
  | Ok (_, c') =>
      let a := match audioData msg, outputContext (audio c) with
               | Some (Buffer dur), Some _ => (enqueue now dur (audio c)).2
               | _, _ => audio c
               end in
      audio c' = match v with
                 | OralEvaluator => a
                 | _ => if interrupted msg then interrupt a else a
                 end
  | Throw (_, (_, c')) => audio c' = audio c
  end.
Proof.
  unfold onmessage.
  assert (audio (outcome (handleToolCall v msg (r, c))).2 = audio c) as Htools.
  { unfold handleToolCall. destruct (toolCall msg) as [[[fcs |]] |];
      [apply handleCalls_audio | done | done]. }
  destruct (handleToolCall v msg (r, c)) as [[r1 c1] | [e [r1 c1]]];
    cbn [bind outcome snd] in *; [|done].
  unfold handleAudio. rewrite Htools.
  destruct (audioData msg) as [[dur |] |], (outputContext (audio c));
    cbn [bind outcome fst snd]; rewrite ?Htools; try done;
    unfold handleInterrupted; destruct v, (interrupted msg); cbn [audio setAudio];
    rewrite ?Htools; done.
Qed.

End Frames.

(** ** The set of playing sources *)

Section Tracked.

Implicit Types (a : AudioOut) (h : gmap nat Node) (id : nat).

Lemma tracked_fresh a : sources a = [] → nodes a = ∅ → tracked a.
Proof.
  intros Hs Hn. unfold tracked. rewrite Hs, Hn. split; [constructor|]. split.
  - intros id Hin. by apply elem_of_nil in Hin.
  - intros id [n Hn']. by rewrite lookup_empty in Hn'.
Qed.

Lemma tracked_setOutputContext x a : tracked a → tracked (setOutputContext x a).
Proof. done. Qed.

Lemma tracked_enqueue now dur a : tracked a → tracked (enqueue now dur a).2.
Proof.
  intros (Hnd & Hst & Hal).
  assert (allocated a ∉ sources a) as Hfresh.
  { intros Hin. destruct (Hst _ Hin) as (n & Hn & _).
    assert (allocated a < allocated a)%nat by (apply Hal; by eexists). lia. }
  unfold tracked, enqueue, setAdd. cbn [snd sources nodes allocated].
  rewrite decide_False by done. split; [|split].
  - apply NoDup_app. split; [done|]. split; [|apply NoDup_singleton].
    intros x Hx ->%list_elem_of_singleton. done.
  - intros id [Hin | ->%list_elem_of_singleton]%elem_of_app.
    + destruct (Hst _ Hin) as (n & Hn & Hc). exists n. split; [|done].
      rewrite lookup_insert_ne; [done|]. intros <-. done.
    + eexists. rewrite lookup_insert_eq. split; [done|]. done.
  - intros id. destruct (decide (id = allocated a)) as [-> | Hne]; [lia|].
    rewrite lookup_insert_ne by done. intros His. apply Hal in His. lia.
Qed.

Lemma tracked_onended id a : tracked a → tracked (onended id a).
Proof.
  intros (Hnd & Hst & Hal). unfold tracked, onended, setDelete. cbn. split; [|split].
  - by apply NoDup_filter.
  - intros x [_ Hx]%list_elem_of_filter. by apply Hst.
  - done.
Qed.

Lemma halt_started (n : Node) : state n ≠ Created → state (halt n) ≠ Created.
Proof. destruct n as [d []]; done. Qed.

Lemma tracked_stopAll a :
  tracked a → tracked (setNodes (stopAll (sources a) (nodes a)) a).
Proof.
  intros (Hnd & Hst & Hal). unfold tracked, setNodes. cbn. split; [done|]. split.
  - intros id Hin. destruct (Hst _ Hin) as (n & Hn & Hc).
    exists (halt n). rewrite stopAll_lookup, decide_True, Hn by done. split; [done|].
    by apply halt_started.
  - intros id His. apply Hal. rewrite stopAll_lookup in His.
    destruct (decide (id ∈ sources a)); [|done].
    by apply fmap_is_Some in His.
Qed.

Lemma tracked_interrupt a : tracked a → tracked (interrupt a).
Proof.
  intros (Hnd & Hst & Hal). unfold tracked, interrupt. cbn. split; [constructor|]. split.
  - intros id Hin. by apply elem_of_nil in Hin.
  - intros id His. apply Hal. rewrite stopAll_lookup in His.
    destruct (decide (id ∈ sources a)); [|done].
    by apply fmap_is_Some in His.
Qed.

(** A source that is in the set can be stopped. *)
Lemma tracked_stop a id :
  tracked a → id ∈ sources a → ∃ h, stop id (nodes a) = Ok h.
Proof.
  intros (_ & Hst & _) Hin. destruct (Hst _ Hin) as (n & Hn & Hc).
  unfold stop. rewrite Hn. destruct (state n); [done | by eexists | by eexists].
Qed.

End Tracked.

Section Invariants.

Context (v : Variant) (env : Env).

Lemma handle_tracked ev r c : tracked (audio c) → tracked (audio (handle v ev r c).2).
Proof.
  intros Ht. destruct ev as [sid tracks | e | | | s | now msg | t |]; cbn [handle snd].
  - rewrite startSession_granted_audio. destruct (mounted r); [|done].
    by apply tracked_setOutputContext.
  - unfold startSession_rejected. cbn [snd]. by rewrite startSession_catch_audio.
  - unfold onopen. by destruct (mounted r).
  - unfold onclose. by destruct (mounted r).
  - by rewrite onerror_audio.
  - pose proof (onmessage_audio_cases v now msg r c) as Hm.
    destruct (onmessage v now msg r c) as [[r1 c1] | [e [r1 c1]]]; cbn [outcome snd].
    + rewrite Hm.
      assert (tracked match audioData msg, outputContext (audio c) with
                      | Some (Buffer dur), Some _ => (enqueue now dur (audio c)).2
                      | _, _ => audio c
                      end) as Ha.
      { destruct (audioData msg) as [[dur |] |], (outputContext (audio c)); try done.
        by apply tracked_enqueue. }
      destruct v, (interrupted msg); try done; by apply tracked_interrupt.
    + by rewrite Hm.
  - destruct t; cbn [fire]; try done; by destruct (mounted r).
  - done.
Qed.

Lemma cleanup_tracked r c : tracked (audio c) → tracked (audio (cleanup v r c).2).
Proof.
  intros Ht. rewrite cleanup_audio. destruct (stopsSourcesOnCleanup v).
  - apply (tracked_stopAll (setOutputContext _ (audio c))). done.
  - by destruct (audio c).
Qed.

Lemma commit_tracked r c : tracked (audio c) → tracked (audio (commit v env r c).2).
Proof.
  intros Ht. unfold commit. destruct (depsChanged r c); [|done].
  rewrite startSession_audio. by apply cleanup_tracked.
Qed.

Lemma sourceEnded_tracked id c : tracked (audio c) → tracked (audio (sourceEnded v id c)).
Proof.
  intros Ht. unfold sourceEnded. destruct v; try done; by apply tracked_onended.
Qed.

Lemma mount_tracked : tracked (audio (mount v env).2).
Proof. unfold mount. rewrite startSession_audio. by apply tracked_fresh. Qed.

Lemma reachable_tracked rc : reachable v env rc → tracked (audio rc.2).
Proof.
  induction 1 as [| ev [r c] _ IH | ev r' [r c] _ IH _ | id [r c] _ IH]; cbn [fst snd] in *.
  - apply mount_tracked.
  - unfold step. cbn [fst snd].
    pose proof (handle_tracked ev r c IH) as Hh.
    destruct (handle v ev r c) as [r1 c1]. by apply commit_tracked.
  - apply commit_tracked. by apply handle_tracked.
  - by apply sourceEnded_tracked.
Qed.

End Invariants.

(** X3. In every state a session can reach, the set of playing sources
    holds no source twice and only nodes on which [start] was called, so
    the [stop] that the interruption branch and the teardown perform on
    them does not throw: the [catch] around it has nothing to catch. *)
Theorem playing_sources_can_be_stopped (v : Variant) (env : Env) (rc : Run * Component) :
  reachable v env rc →
  NoDup (sources (audio rc.2)) ∧
  (∀ id, id ∈ sources (audio rc.2) →
     (∃ n, nodes (audio rc.2) !! id = Some n ∧ state n ≠ Created) ∧
     (∃ h, stop id (nodes (audio rc.2)) = Ok h)).
Proof.
  intros Hreach. pose proof (reachable_tracked v env rc Hreach) as Ht.
  split; [apply Ht|]. intros id Hin. split.
  - by apply Ht.
  - by apply tracked_stop.
Qed.

Lemma playing_sources_can_be_stopped_witness :
  let env := {| apiKey := true; mediaDevices := true |} in
  let chunk := {| toolCall := None; audioData := Some (Buffer 2); interrupted := false |} in
  let rc := step LiveSensei env (ChannelMessage 1 chunk)
              (step LiveSensei env (PermissionGranted 0 [Live]) (mount LiveSensei env)) in
  sources (audio rc.2) = [0%nat] ∧ ∃ h, stop 0 (nodes (audio rc.2)) = Ok h.
Proof.
  intros env chunk rc.
  assert (sources (audio rc.2) = [0%nat]) as Hs by (vm_compute; reflexivity).
  split; [exact Hs|].
  apply (playing_sources_can_be_stopped LiveSensei env rc).
  - apply reach_step, reach_step, reach_mount.
  - rewrite Hs. apply list_elem_of_here.
Defined.

Section RunInvariants.

Context (v : Variant) (env : Env).

Implicit Types (r : Run) (c : Component).

Lemma handleCall_run fc r c :
  mounted (outcome (handleCall v fc (r, c))).1 = mounted r
  ∧ seen (outcome (handleCall v fc (r, c))).1 = seen r.
Proof. destruct v; simpl; repeat case_match; done. Qed.

Lemma handleCalls_run fcs r c :
  mounted (outcome (handleCalls v fcs (r, c))).1 = mounted r
  ∧ seen (outcome (handleCalls v fcs (r, c))).1 = seen r.
Proof.
  revert r c. induction fcs as [| fc rest IH]; intros r c; [done|].
  cbn [handleCalls]. pose proof (handleCall_run fc r c) as [Hm Hs].
  destruct (handleCall v fc (r, c)) as [[r1 c1] | [e [r1 c1]]]; cbn [bind outcome fst] in *.
  - destruct (IH r1 c1) as [Hm' Hs']. split; congruence.
  - done.
Qed.

Lemma onmessage_run now msg r c :
  mounted (outcome (onmessage v now msg r c)).1 = mounted r
  ∧ seen (outcome (onmessage v now msg r c)).1 = seen r.
Proof.
  unfold onmessage.
  assert (mounted (outcome (handleToolCall v msg (r, c))).1 = mounted r
          ∧ seen (outcome (handleToolCall v msg (r, c))).1 = seen r) as Htools.
  { unfold handleToolCall. destruct (toolCall msg) as [[[fcs |]] |];
      [apply handleCalls_run | done | done]. }
  destruct (handleToolCall v msg (r, c)) as [[r1 c1] | [e [r1 c1]]];
    cbn [bind outcome fst] in *; [|done].
  unfold handleAudio.
  destruct (audioData msg) as [[dur |] |], (outputContext (audio c1));
    cbn [bind outcome fst snd]; done.
Qed.

Lemma handle_run ev r c :
  mounted (handle v ev r c).1 = mounted r ∧ seen (handle v ev r c).1 = seen r.
Proof.
  destruct ev as [sid tracks | e | | | s | now msg | t |]; cbn [handle fst]; try done.
  - unfold startSession_granted. by destruct (mounted r) eqn:Hm.
  - apply onmessage_run.
Qed.

Lemma mount_run : (mount v env).1 = newRun 0 ∧ retryCount (mount v env).2 = 0%nat.
Proof.
  unfold mount. by rewrite startSession_run, startSession_retryCount.
Qed.

Lemma reachable_live rc :
  reachable v env rc → mounted rc.1 = true ∧ seen rc.1 = retryCount rc.2.
Proof.
  induction 1 as [| ev [r c] _ [IHm IHs] | ev r' [r c] _ [IHm IHs] _ | id [r c] _ [IHm IHs]];
    cbn [fst snd] in *.
  - destruct mount_run as [-> ->]. done.
  - unfold step. cbn [fst snd]. pose proof (handle_run ev r c) as [Hm Hs].
    destruct (handle v ev r c) as [r1 c1]. cbn [fst] in *. split.
    + apply commit_mounted. congruence.
    + by rewrite commit_seen, commit_retryCount.
  - split.
    + by apply commit_mounted.
    + by rewrite commit_seen, commit_retryCount.
  - split; [done|]. rewrite IHs. unfold sourceEnded. by destruct v.
Qed.

End RunInvariants.

(** X4. The closure of the current run is never stale: in every
    reachable state the run that is current is mounted and the retry count
    it captured is the count in the state, so the delay its [onerror]
    computes from the captured count is the backoff of the stored count. *)
Theorem current_run_is_never_stale (v : Variant) (env : Env) (rc : Run * Component) :
  reachable v env rc →
  mounted rc.1 = true ∧ seen rc.1 = retryCount rc.2 ∧
  (v = LiveSensei ∨ v = VoiceCoder →
   (retryCount rc.2 < 5)%nat →
   timers (onerror v "Network error" rc.1 rc.2)
   = timers rc.2 ++ [{| delay := backoff (retryCount rc.2); action := BumpRetry |}]).
Proof.
  intros Hreach. destruct (reachable_live v env rc Hreach) as [Hm Hs].
  split; [done|]. split; [done|]. intros Hv Hlt.
  destruct rc as [r c]. cbn [fst snd] in *. unfold onerror. rewrite Hm, Hs.
  apply Nat.ltb_lt in Hlt.
  destruct Hv as [-> | ->]; cbn -[backoff round pretty Qdiv Nat.ltb]; rewrite Hlt; reflexivity.
Qed.

Lemma current_run_is_never_stale_witness :
  let env := {| apiKey := true; mediaDevices := true |} in
  let rc := play LiveSensei env
              [ (0%Z, PermissionGranted 0 [Live]); (10%Z, ChannelError "503");
                (1010%Z, TimerFired BumpRetry) ] (mount LiveSensei env) in
  retryCount rc.2 = 1%nat ∧ seen rc.1 = 1%nat ∧ mounted rc.1 = true.
Proof.
  intros env rc.
  assert (retryCount rc.2 = 1%nat) as Hn by (vm_compute; reflexivity).
  destruct (current_run_is_never_stale LiveSensei env rc) as (Hm & Hs & _).
  - apply reach_step, reach_step, reach_step, reach_mount.
  - rewrite Hs. done.
Defined.

(** ** The connection flags *)

Section Flags.

Implicit Types (v : Variant) (env : Env) (r : Run) (c : Component).

Lemma startSession_catch_flags v e r c :
  (connected (startSession_catch v e r c), connectedRef (startSession_catch v e r c))
  = (connected c, connectedRef c).
Proof. unfold startSession_catch. destruct v; repeat case_match; reflexivity. Qed.

Lemma handleCall_flags v fc r c :
  (connected (outcome (handleCall v fc (r, c))).2,
   connectedRef (outcome (handleCall v fc (r, c))).2)
  = (connected c, connectedRef c).
Proof. destruct v; simpl; repeat case_match; reflexivity. Qed.

Lemma handleCalls_flags v fcs r c :
  (connected (outcome (handleCalls v fcs (r, c))).2,
   connectedRef (outcome (handleCalls v fcs (r, c))).2)
  = (connected c, connectedRef c).
Proof.
  revert r c. induction fcs as [| fc rest IH]; intros r c; [done|].
  cbn [handleCalls]. pose proof (handleCall_flags v fc r c) as Hcall.
  destruct (handleCall v fc (r, c)) as [[r1 c1] | [e [r1 c1]]]; cbn [bind outcome] in *.
  - by rewrite IH.
  - exact Hcall.
Qed.

Lemma onmessage_flags v now msg r c :
  (connected (outcome (onmessage v now msg r c)).2,
   connectedRef (outcome (onmessage v now msg r c)).2)
  = (connected c, connectedRef c).
Proof.
  unfold onmessage.
  assert ((connected (outcome (handleToolCall v msg (r, c))).2,
           connectedRef (outcome (handleToolCall v msg (r, c))).2)
           = (connected c, connectedRef c)) as Htools.
  { unfold handleToolCall. destruct (toolCall msg) as [[[fcs |]] |];
      [apply handleCalls_flags | done | done]. }
  destruct (handleToolCall v msg (r, c)) as [[r1 c1] | [e [r1 c1]]];
    cbn [bind outcome snd] in *; [|done].
  unfold handleAudio.
  destruct (audioData msg) as [[dur |] |], (outputContext (audio c1));
    cbn [bind outcome fst snd]; try done;
    unfold handleInterrupted; destruct v, (interrupted msg); done.
Qed.

(** A channel error clears both flags of a live run, except in
    VoiceCoder, whose [onerror] touches neither. *)
Lemma onerror_flags v s r c :
  (connected (onerror v s r c), connectedRef (onerror v s r c))
  = match v with
    | VoiceCoder => (connected c, connectedRef c)
    | _ => if mounted r then (false, false) else (connected c, connectedRef c)
    end.
Proof. unfold onerror. destruct v, (mounted r); cbn [negb]; repeat case_match; reflexivity. Qed.

Lemma agree_flags c c' :
  (connected c', connectedRef c') = (connected c, connectedRef c) → agree c → agree c'.
Proof. unfold agree. intros [= -> ->]. done. Qed.

Lemma agree_off c : connectedRef c = false → agree c.
Proof. unfold agree. intros ->. done. Qed.

Lemma handle_agree v ev r c : agree c → agree (handle v ev r c).2.
Proof.
  intros Ha. destruct ev as [sid tracks | e | | | s | now msg | t |]; cbn [handle snd].
  - unfold startSession_granted. destruct (mounted r), v; cbn [negb snd]; try done.
  - unfold startSession_rejected. cbn [snd].
    eapply agree_flags; [apply startSession_catch_flags | done].
  - unfold onopen. by destruct (mounted r).
  - unfold onclose. by destruct (mounted r).
  - pose proof (onerror_flags v s r c) as Hf.
    destruct v, (mounted r); first [by eapply agree_flags | apply agree_off; congruence].
  - eapply agree_flags; [apply onmessage_flags | done].
  - destruct t; cbn [fire]; try done; by destruct (mounted r).
  - done.
Qed.

Lemma startSession_agree v env r c : agree c → agree (startSession v env r c).2.
Proof.
  intros Ha. unfold startSession.
  destruct (apiKey env), v, (mediaDevices env); cbn [negb snd]; try done;
    (eapply agree_flags; [apply startSession_catch_flags | done]).
Qed.

Lemma cleanup_connectedRef v r c : connectedRef (cleanup v r c).2 = false.
Proof.
  unfold cleanup. destruct r as [m s [ch |] o].
  all: destruct (streamRef c) eqn:Hs, v; cbn; rewrite ?Hs; reflexivity.
Qed.

Lemma commit_agree v env r c : agree c → agree (commit v env r c).2.
Proof.
  intros Ha. unfold commit. destruct (depsChanged r c); [|done].
  apply startSession_agree, agree_off, cleanup_connectedRef.
Qed.

Lemma reachable_agree v env rc : reachable v env rc → agree rc.2.
Proof.
  induction 1 as [| ev [r c] _ IH | ev r' [r c] _ IH _ | id [r c] _ IH]; cbn [fst snd] in *.
  - unfold mount. apply startSession_agree, agree_off. by destruct v.
  - unfold step. cbn [fst snd].
    pose proof (handle_agree v ev r c IH) as Hh.
    destruct (handle v ev r c) as [r1 c1]. by apply commit_agree.
  - apply commit_agree. by apply handle_agree.
  - unfold sourceEnded. by destruct v.
Qed.

End Flags.

(** X5. While the state [connected] is false no microphone frame leaves
    the component, in any reachable state: [onaudioprocess] encodes
    nothing, and continuations that were already queued send nothing. *)
Theorem no_frames_while_disconnected
  {B : Type} (createPcmBlob : list Q → B) (v : Variant) (env : Env) (rc : Run * Component) :
  reachable v env rc →
  connected rc.2 = false →
  ∀ (inputData : list Q) (k : Capture B),
    onaudioprocess createPcmBlob inputData rc.2 k = k
    ∧ sentFrames (deliver rc.2 k) = sentFrames k
    ∧ queued (deliver rc.2 k) = [].
Proof.
  intros Hreach Hoff inputData k.
  assert (connectedRef rc.2 = false) as Href.
  { pose proof (reachable_agree v env rc Hreach) as Ha. unfold agree in Ha.
    destruct (connectedRef rc.2); [|done]. rewrite Ha in Hoff; done. }
  unfold onaudioprocess, deliver. rewrite Href. cbn [negb sentFrames queued].
  rewrite orb_true_r, app_nil_r. done.
Qed.

Lemma no_frames_while_disconnected_witness :
  let env := {| apiKey := true; mediaDevices := true |} in
  let rc := play GoalCollector env
              [ (0%Z, PermissionGranted 0 [Live]); (5%Z, ChannelOpen); (900%Z, ChannelClose) ]
              (mount GoalCollector env) in
  let k := {| micActiveRef := true; queued := [[1 # 2]]; sentFrames := [] |} in
  connected rc.2 = false ∧ sentFrames (deliver rc.2 k) = [].
Proof.
  intros env rc k.
  assert (connected rc.2 = false) as Hoff by (vm_compute; reflexivity).
  split; [exact Hoff|].
  apply (no_frames_while_disconnected (λ x, x) GoalCollector env rc); [|exact Hoff | exact []].
  apply reach_step, reach_step, reach_step, reach_mount.
Defined.

(** X6. A channel error on a live, connected run with the microphone on:
    in LiveSensei, OralEvaluator and GoalCollector the next capture frame
    is dropped and the queued ones are discarded; in VoiceCoder, whose
    [onerror] leaves [connectedRef] alone, the queued frames and the new
    one are still handed to [sendRealtimeInput]. *)
Theorem channel_error_stops_capture_except_in_VoiceCoder
  {B : Type} (createPcmBlob : list Q → B) (v : Variant) (errStr : string)
  (r : Run) (c : Component) (inputData : list Q) (k : Capture B) :
  mounted r = true →
  connectedRef c = true →
  micActiveRef k = true →
  let c' := onerror v errStr r c in
  sentFrames (deliver c' (onaudioprocess createPcmBlob inputData c' k))
  = match v with
    | VoiceCoder => sentFrames k ++ queued k ++ [createPcmBlob inputData]
    | _ => sentFrames k
    end.
Proof.
  intros Hm Href Hmic c'. pose proof (onerror_flags v errStr r c) as Hf.
  rewrite Hm in Hf. fold c' in Hf. unfold onaudioprocess, deliver. rewrite Hmic.
  assert (connectedRef c' = match v with VoiceCoder => true | _ => false end) as ->.
  { destruct v; injection Hf as _ ->; done. }
  destruct v; cbn [negb orb sentFrames queued]; rewrite ?app_nil_r; reflexivity.
Qed.

Lemma channel_error_stops_capture_except_in_VoiceCoder_witness :
  let k := {| micActiveRef := true; queued := []; sentFrames := [] |} in
  let live v := onopen v (newRun 0) (initialComponent v) in
  let after v := onerror v "Network error" (newRun 0) (live v) in
  sentFrames (deliver (after VoiceCoder)
                (onaudioprocess length [1 # 2; 1 # 3] (after VoiceCoder) k)) = [2%nat]
  ∧ sentFrames (deliver (after LiveSensei)
                  (onaudioprocess length [1 # 2; 1 # 3] (after LiveSensei) k)) = [].
Proof.
  intros k live after. split.
  - apply (channel_error_stops_capture_except_in_VoiceCoder length VoiceCoder
             "Network error" (newRun 0) (live VoiceCoder) [1 # 2; 1 # 3] k); reflexivity.
  - apply (channel_error_stops_capture_except_in_VoiceCoder length LiveSensei
             "Network error" (newRun 0) (live LiveSensei) [1 # 2; 1 # 3] k); reflexivity.
Defined.

(** ** OralEvaluator keeps every source *)

Lemma OralEvaluator_sources_step (a : AudioOut) (now dur : Q) :
  sources a = seq 0 (allocated a) →
  sources (enqueue now dur a).2 = seq 0 (allocated (enqueue now dur a).2).
Proof.
  intros Hs. unfold enqueue, setAdd. cbn [snd sources allocated].
  rewrite decide_False.
  - by rewrite seq_S, Hs.
  - rewrite Hs, list_elem_of_In, in_seq. lia.
Qed.

Lemma OralEvaluator_sources_handle (ev : Event) (r : Run) (c : Component) :
  sources (audio c) = seq 0 (allocated (audio c)) →
  sources (audio (handle OralEvaluator ev r c).2)
  = seq 0 (allocated (audio (handle OralEvaluator ev r c).2)).
Proof.
  intros IH. destruct ev as [sid tracks | e | | | s | now msg | t |]; cbn [handle snd].
  - rewrite startSession_granted_audio. by destruct (mounted r).
  - unfold startSession_rejected. cbn [snd]. by rewrite startSession_catch_audio.
  - unfold onopen. by destruct (mounted r).
  - unfold onclose. by destruct (mounted r).
  - by rewrite onerror_audio.
  - pose proof (onmessage_audio_cases OralEvaluator now msg r c) as Hm.
    destruct (onmessage OralEvaluator now msg r c) as [[r1 c1] | [e [r1 c1]]];
      cbn [outcome snd]; rewrite Hm; [|done].
    destruct (audioData msg) as [[dur |] |], (outputContext (audio c)); try done.
    by apply OralEvaluator_sources_step.
  - destruct t; cbn [fire]; try done; by destruct (mounted r).
  - done.
Qed.

Lemma OralEvaluator_sources_commit (env : Env) (r : Run) (c : Component) :
  sources (audio c) = seq 0 (allocated (audio c)) →
  sources (audio (commit OralEvaluator env r c).2)
  = seq 0 (allocated (audio (commit OralEvaluator env r c).2)).
Proof.
  intros IH. unfold commit. destruct (depsChanged r c); [|done].
  by rewrite startSession_audio, cleanup_audio.
Qed.

(** X7. OralEvaluator never takes a source out of [sourcesRef]: it
    registers no [onended], has no interruption branch and its teardown
    leaves the set alone.  In every reachable state the set holds every
    source node created so far, in order of creation. *)
Theorem OralEvaluator_never_drops_a_source (env : Env) (rc : Run * Component) :
  reachable OralEvaluator env rc →
  sources (audio rc.2) = seq 0 (allocated (audio rc.2)) ∧
  length (sources (audio rc.2)) = allocated (audio rc.2).
Proof.
  intros Hreach.
  assert (sources (audio rc.2) = seq 0 (allocated (audio rc.2))) as Hs;
    [| split; [done | by rewrite Hs, length_seq]].
  induction Hreach as [| ev [r c] _ IH | ev r' [r c] _ IH _ | id [r c] _ IH];
    cbn [fst snd] in *.
  - unfold mount. by rewrite startSession_audio.
  - unfold step. cbn [fst snd].
    pose proof (OralEvaluator_sources_handle ev r c IH) as Hh.
    destruct (handle OralEvaluator ev r c) as [r1 c1].
    by apply OralEvaluator_sources_commit.
  - by apply OralEvaluator_sources_commit, OralEvaluator_sources_handle.
  - done.
Qed.

Lemma OralEvaluator_never_drops_a_source_witness :
  let env := {| apiKey := true; mediaDevices := true |} in
  let chunk := {| toolCall := None; audioData := Some (Buffer 2); interrupted := true |} in
  let rc := (play OralEvaluator env
               [ (0%Z, PermissionGranted 0 [Live]); (10%Z, ChannelMessage 1 chunk);
                 (20%Z, ChannelMessage 2 chunk) ] (mount OralEvaluator env)) in
  allocated (audio rc.2) = 2%nat ∧ sources (audio rc.2) = [0; 1]%nat.
Proof.
  intros env chunk rc.
  assert (allocated (audio rc.2) = 2%nat) as Hn by (vm_compute; reflexivity).
  split; [exact Hn|].
  destruct (OralEvaluator_never_drops_a_source env rc) as [Hs _].
  - apply reach_step, reach_step, reach_step, reach_mount.
  - rewrite Hs, Hn. reflexivity.
Defined.

(** ** The playback offset across restarts *)

Lemma handle_offset (v : Variant) (ev : Event) (r : Run) (c : Component) :
  (∀ now msg, ev ≠ ChannelMessage now msg) →
  nextStartTime (audio (handle v ev r c).2) = nextStartTime (audio c).
Proof.
  intros Hev. destruct ev as [sid tracks | e | | | s | now msg | t |]; cbn [handle snd].
  - rewrite startSession_granted_audio. by destruct (mounted r).
  - unfold startSession_rejected. cbn [snd]. by rewrite startSession_catch_audio.
  - unfold onopen. by destruct (mounted r).
  - unfold onclose. by destruct (mounted r).
  - by rewrite onerror_audio.
  - by destruct (Hev now msg).
  - destruct t; cbn [fire]; try done; by destruct (mounted r).
  - done.
Qed.

Lemma commit_offset (v : Variant) (env : Env) (r : Run) (c : Component) :
  nextStartTime (audio (commit v env r c).2) = nextStartTime (audio c).
Proof.
  unfold commit. destruct (depsChanged r c); [|done].
  by rewrite startSession_audio, cleanup_audio.
Qed.

(** X8. Only a message moves the playback offset.  Any other event,
    among them the retry timer and the grant that re-create the audio
    contexts, leaves [nextStartTimeRef] as it was; a chunk that arrives
    afterwards at an audio time not later than the old offset is started
    at the old offset. *)
Theorem restart_keeps_playback_offset
  (v : Variant) (env : Env) (ev : Event) (rc : Run * Component) :
  (∀ now msg, ev ≠ ChannelMessage now msg) →
  nextStartTime (audio (step v env ev rc).2) = nextStartTime (audio rc.2) ∧
  (∀ now dur, now <= nextStartTime (audio rc.2) →
     (enqueue now dur (audio (step v env ev rc).2)).1 = nextStartTime (audio rc.2)).
Proof.
  intros Hev.
  assert (nextStartTime (audio (step v env ev rc).2) = nextStartTime (audio rc.2)) as Hoff.
  { unfold step. pose proof (handle_offset v ev rc.1 rc.2 Hev) as Hh.
    destruct (handle v ev rc.1 rc.2) as [r1 c1]. by rewrite commit_offset. }
  split; [done|]. intros now dur Hnow.
  rewrite enqueue_start, clampToNow_early; congruence.
Qed.

Lemma restart_keeps_playback_offset_witness :
  let env := {| apiKey := true; mediaDevices := true |} in
  let chunk := {| toolCall := None; audioData := Some (Buffer 30); interrupted := false |} in
  let before := play LiveSensei env
                  [ (0%Z, PermissionGranted 0 [Live]); (10%Z, ChannelMessage 90 chunk);
                    (20%Z, ChannelError "Network error") ] (mount LiveSensei env) in
  let restarted := step LiveSensei env (PermissionGranted 1 [Live])
                     (step LiveSensei env (TimerFired BumpRetry) before) in
  seen restarted.1 = 1%nat ∧ gumCalls restarted.2 = 2%nat ∧
  (enqueue 0 1 (audio restarted.2)).1 = 120.
Proof.
  intros env chunk before restarted.
  split; [vm_compute; reflexivity|]. split; [vm_compute; reflexivity|].
  destruct (restart_keeps_playback_offset LiveSensei env (PermissionGranted 1 [Live])
              (step LiveSensei env (TimerFired BumpRetry) before)) as [_ Hlate]; [done|].
  fold restarted in Hlate. rewrite (Hlate 0 1); vm_compute; [reflexivity | discriminate].
Defined.

(** ** A message whose handler throws *)

Lemma handleCall_throws (v : Variant) (fc : FunctionCall) (r : Run) (c : Component)
  (e : Error) (rc' : Run * Component) :
  handleCall v fc (r, c) = Throw (e, rc') →
  e = typeError ∧ rc' = (r, c) ∧ fc_args fc = None ∧ fc_name fc ∈ declaredTools v.
Proof.
  destruct v; cbn [handleCall declaredTools].
  all: repeat case_match; try discriminate.
  all: intros [= <- <-]; repeat split; try done.
  all: repeat match goal with H : String.eqb _ _ = true |- _ => apply String.eqb_eq in H end.
  all: apply list_elem_of_In; simpl; auto.
Qed.

Lemma handleCalls_throws (v : Variant) (fcs : list FunctionCall) (r : Run) (c : Component)
  (e : Error) (rc' : Run * Component) :
  handleCalls v fcs (r, c) = Throw (e, rc') →
  e = typeError ∧
  ∃ pre fc post, fcs = pre ++ fc :: post ∧ handleCalls v pre (r, c) = Ok rc'
                 ∧ fc_args fc = None ∧ fc_name fc ∈ declaredTools v.
Proof.
  revert r c. induction fcs as [| fc rest IH]; intros r c; [done|].
  cbn [handleCalls]. destruct (handleCall v fc (r, c)) as [[r1 c1] | [e1 rc1]] eqn:Hcall;
    cbn [bind].
  - intros Hrest. destruct (IH _ _ Hrest) as (-> & pre & fc' & post & -> & Hpre & Hargs & Hname).
    split; [done|]. exists (fc :: pre), fc', post. split; [done|].
    cbn [handleCalls]. rewrite Hcall. done.
  - intros [= -> ->]. destruct (handleCall_throws _ _ _ _ _ _ Hcall) as (-> & -> & Hargs & Hname).
    split; [done|]. by exists [], fc, rest.
Qed.

(** X9. When the message handler throws, the audio chunk of that message
    is not scheduled and its interruption flag is not acted on.  There are
    three causes only: a [toolCall] without [functionCalls], before any
    call is handled; a call of a declared tool without [args], in which
    case the calls before it were handled and those after it were not; or
    audio data that fails to decode, after all calls were handled. *)
Theorem failed_message_skips_audio_and_interruption
  (v : Variant) (now : Q) (msg : Message) (r : Run) (c : Component)
  (e : Error) (r' : Run) (c' : Component) :
  onmessage v now msg r c = Throw (e, (r', c')) →
  audio c' = audio c ∧
  ((e = notIterable ∧ toolCall msg = Some {| functionCalls := None |} ∧ (r', c') = (r, c))
   ∨ (e = typeError ∧
      ∃ pre fc post, toolCall msg = Some {| functionCalls := Some (pre ++ fc :: post) |}
                     ∧ handleCalls v pre (r, c) = Ok (r', c')
                     ∧ fc_args fc = None ∧ fc_name fc ∈ declaredTools v)
   ∨ (e = decodeError ∧ audioData msg = Some Malformed
      ∧ handleToolCall v msg (r, c) = Ok (r', c'))).
Proof.
  intros Hthrow. split.
  { pose proof (onmessage_audio_cases v now msg r c) as Hm. by rewrite Hthrow in Hm. }
  unfold onmessage in Hthrow.
  destruct (handleToolCall v msg (r, c)) as [[r1 c1] | [e1 rc1]] eqn:Htools;
    cbn [bind] in Hthrow.
  - right. right. unfold handleAudio in Hthrow.
    destruct (audioData msg) as [[dur |] |], (outputContext (audio c1));
      cbn [bind] in Hthrow; try discriminate.
    by injection Hthrow as <- <- <-.
  - injection Hthrow as -> ->. unfold handleToolCall in Htools.
    destruct (toolCall msg) as [[[fcs |]] |]; [| | discriminate Htools].
    + right. left. cbn [functionCalls] in Htools.
      destruct (handleCalls_throws _ _ _ _ _ _ Htools) as (-> & pre & fc & post & -> & H).
      split; [done|]. by exists pre, fc, post.
    + left. cbn in Htools. by injection Htools as <- <- <-.
Qed.

Lemma failed_message_skips_audio_and_interruption_witness :
  let playing := setAudio (enqueue 1 2 freshAudio).2 (initialComponent VoiceCoder) in
  let msg := {| toolCall := Some {| functionCalls :=
                               Some [ {| fc_id := "a"; fc_name := "update_editor";
                                         fc_args := None |} ] |};
                audioData := Some (Buffer 1); interrupted := true |} in
  let bare := {| toolCall := Some {| functionCalls := None |};
                 audioData := Some (Buffer 1); interrupted := true |} in
  onmessage VoiceCoder 2 msg (newRun 0) playing = Throw (typeError, (newRun 0, playing))
  ∧ onmessage VoiceCoder 2 bare (newRun 0) playing = Throw (notIterable, (newRun 0, playing))
  ∧ audio playing = (enqueue 1 2 freshAudio).2.
Proof.
  intros playing msg bare.
  assert (onmessage VoiceCoder 2 msg (newRun 0) playing
          = Throw (typeError, (newRun 0, playing))) as Hthrow by reflexivity.
  split; [exact Hthrow|]. split; [reflexivity|].
  destruct (failed_message_skips_audio_and_interruption _ _ _ _ _ _ _ _ Hthrow) as [Ha _].
  exact Ha.
Defined.

(** ** Bounds of the automatic retries *)

Section RetryBounds.

Lemma power_ge_1 (b : Q) (n : nat) : 1 <= b → 1 <= b ^ Z.of_nat n.
Proof.
  intros Hb. induction n as [| n IH]; [done|].
  rewrite Nat2Z.inj_succ. unfold Z.succ.
  rewrite Qpower_plus by (intros Hz; rewrite Hz in Hb; by apply Hb).
  rewrite Qpower_1_r.
  apply (Qle_trans _ (1 * 1)); [done|].
  apply Qmult_le_compat_nonneg; split; done.
Qed.

Lemma backoff_bounds (n : nat) : 1000 <= backoff n ∧ backoff n <= 10000.
Proof.
  unfold backoff. split; [|apply Q.le_min_r].
  apply Q.min_glb; [|done].
  pose proof (power_ge_1 (3 # 2) n ltac:(done)) as Hp.
  generalize dependent ((3 # 2) ^ Z.of_nat n). intros x Hx. lra.
Qed.

Lemma backoffSetup_bounds (n : nat) : 2000 <= backoffSetup n ∧ backoffSetup n <= 30000.
Proof.
  unfold backoffSetup. split; [|apply Q.le_min_r].
  apply Q.min_glb; [|done].
  pose proof (power_ge_1 2 n ltac:(done)) as Hp.
  generalize dependent (2 ^ Z.of_nat n). intros x Hx. lra.
Qed.

(** [retryCount + 1] as a factor, for a count below [m]. *)
Lemma attempt_bounds (n m : nat) :
  (n < m)%nat →
  1 <= inject_Z (Z.of_nat (n + 1)) ∧ inject_Z (Z.of_nat (n + 1)) <= inject_Z (Z.of_nat m).
Proof.
  intros Hn. change 1 with (inject_Z 1). rewrite <- !Zle_Qle. lia.
Qed.

End RetryBounds.

Ltac retry_facts :=
  repeat match goal with
    | H : _ && _ = true |- _ => apply andb_true_iff in H as [? ?]
    | H : (_ <? _)%nat = true |- _ => apply Nat.ltb_lt in H
    | H : (_ <? _)%nat = false |- _ => apply Nat.ltb_ge in H
    end.

Lemma onerror_retried (v : Variant) (errStr : string) (r : Run) (c : Component) :
  retried 1000 10000 c (onerror v errStr r c)
  ∧ (mounted r = true → (5 ≤ seen r)%nat →
     timers (onerror v errStr r c) = timers c ∧ is_Some (error (onerror v errStr r c))).
Proof.
  unfold onerror, retried.
  destruct (mounted r); cbn [negb]; [|split; [by left | done]].
  destruct v.
  all: repeat case_match; retry_facts.
  all: split; [| intros _ Hseen; first [lia | by split]].
  all: first [ by left | right; eexists; split; [reflexivity|] ].
  all: cbn [error setTimeout setStatus setError setConnected setConnectedRef].
  all: try (pose proof (backoff_bounds (seen r)) as [? ?]; done).
  all: try (repeat split; done).
  all: match goal with
       | H : (seen _ < 5)%nat |- _ => pose proof (attempt_bounds _ _ H) as [Hlo Hhi]
       end.
  all: change (inject_Z (Z.of_nat 5)) with 5 in Hhi.
  all: generalize dependent (inject_Z (Z.of_nat (seen r + 1))); intros x Hlo Hhi.
  all: repeat split; try done; lra.
Qed.

Lemma startSession_catch_retried (v : Variant) (err : Error) (r : Run) (c : Component) :
  retried 1000 30000 c (startSession_catch v err r c)
  ∧ (mounted r = true → (6 ≤ seen r)%nat →
     timers (startSession_catch v err r c) = timers c
     ∧ is_Some (error (startSession_catch v err r c))).
Proof.
  unfold startSession_catch, retried.
  destruct (mounted r); cbn [negb]; [|split; [by left | done]].
  destruct v.
  all: repeat case_match; retry_facts.
  all: split; [| intros _ Hseen; first [lia | by split]].
  all: first [ by left | right; eexists; split; [reflexivity|] ].
  all: cbn [error setTimeout setStatus setError setConnected setConnectedRef].
  all: try (pose proof (backoff_bounds (seen r)) as [? ?]; repeat split; try done; lra).
  all: try (pose proof (backoffSetup_bounds (seen r)) as [? ?]; repeat split; try done; lra).
  all: try (repeat split; done).
  all: match goal with
       | H : (seen _ < 3)%nat |- _ => pose proof (attempt_bounds _ _ H) as [Hlo Hhi]
       end.
  all: change (inject_Z (Z.of_nat 3)) with 3 in Hhi.
  all: generalize dependent (inject_Z (Z.of_nat (seen r + 1))); intros x Hlo Hhi.
  all: repeat split; try done; lra.
Qed.

(** X10. One error, at most one retry, with a bounded delay.  [onerror]
    arms at most one timer, with a delay between 1000 and 10000 ms; the
    [catch] of [startSession] at most one, between 1000 and 30000 ms; an
    armed retry leaves [error] as it was.  This holds in every variant,
    for every error and every retry count. *)
Theorem retry_delays_are_bounded
  (v : Variant) (errStr : string) (err : Error) (r : Run) (c : Component) :
  retried 1000 10000 c (onerror v errStr r c) ∧
  retried 1000 30000 c (startSession_catch v err r c).
Proof. split; [apply onerror_retried | apply startSession_catch_retried]. Qed.

(** X11. Automatic retrying ends.  On a mounted run that has seen five
    retries, [onerror] arms no timer and sets an error; from six on the
    same holds for the [catch] of [startSession]; in every variant and for
    every error. *)
Theorem automatic_retries_end
  (v : Variant) (errStr : string) (err : Error) (r : Run) (c : Component) :
  mounted r = true →
  ((5 ≤ seen r)%nat →
   timers (onerror v errStr r c) = timers c ∧ is_Some (error (onerror v errStr r c))) ∧
  ((6 ≤ seen r)%nat →
   timers (startSession_catch v err r c) = timers c
   ∧ is_Some (error (startSession_catch v err r c))).
Proof.
  intros Hm. split; intros Hseen.
  - by apply onerror_retried.
  - by apply startSession_catch_retried.
Qed.

Lemma automatic_retries_end_witness :
  let err := newError "Service Unavailable (503)" in
  timers (onerror GoalCollector "Network error" (newRun 5) (initialComponent GoalCollector)) = []
  ∧ is_Some (error (startSession_catch OralEvaluator err (newRun 6)
                      (initialComponent OralEvaluator))).
Proof.
  intros err. split.
  - destruct (automatic_retries_end GoalCollector "Network error" err (newRun 5)
                (initialComponent GoalCollector)) as [Herror _]; [reflexivity|].
    destruct Herror as [Htimers _]; [simpl; lia | exact Htimers].
  - destruct (automatic_retries_end OralEvaluator "" err (newRun 6)
                (initialComponent OralEvaluator)) as [_ Hsetup]; [reflexivity|].
    destruct Hsetup as [_ Hterminal]; [simpl; lia | exact Hterminal].
Defined.

(** ** The retry policies of OralEvaluator and GoalCollector *)

(** X12. The [onerror] of OralEvaluator: a fixed 2000 ms between retries,
    five of them for a network error (Network error, Failed to fetch,
    Internal error occurred), three for anything else, then a terminal
    error; both connection flags are cleared either way. *)
Theorem OralEvaluator_error_policy (errStr : string) (r : Run) (c : Component) :
  mounted r = true →
  let transient :=
    includes "Network error" errStr || includes "Failed to fetch" errStr
    || includes "Internal error occurred" errStr in
  let limit := if transient then 5%nat else 3%nat in
  let c' := onerror OralEvaluator errStr r c in
  ((seen r < limit)%nat →
   timers c' = timers c ++ [{| delay := 2000; action := BumpRetry |}] ∧ error c' = error c) ∧
  ((limit ≤ seen r)%nat → timers c' = timers c ∧ is_Some (error c')) ∧
  connected c' = false ∧ connectedRef c' = false.
Proof.
  intros Hm transient limit c'. subst c' limit. unfold onerror. rewrite Hm. cbn [negb].
  fold transient. destruct transient.
  - destruct (Nat.ltb_spec (seen r) 5); repeat split; try done; lia.
  - destruct (Nat.ltb_spec (seen r) 3); repeat split; try done; lia.
Qed.

Lemma OralEvaluator_error_policy_witness :
  timers (onerror OralEvaluator "Error: 503 Service Unavailable" (newRun 3)
            (initialComponent OralEvaluator)) = []
  ∧ timers (onerror OralEvaluator "Network error" (newRun 4) (initialComponent OralEvaluator))
    = [{| delay := 2000; action := BumpRetry |}].
Proof.
  split.
  - destruct (OralEvaluator_error_policy "Error: 503 Service Unavailable" (newRun 3)
                (initialComponent OralEvaluator)) as (_ & Hend & _); [reflexivity|].
    destruct Hend as [Htimers _]; [simpl; lia | exact Htimers].
  - destruct (OralEvaluator_error_policy "Network error" (newRun 4)
                (initialComponent OralEvaluator)) as (Hretry & _); [reflexivity|].
    destruct Hretry as [Htimers _]; [simpl; lia | exact Htimers].
Defined.

(** X13. The [onerror] of GoalCollector: a model-unavailable marker is
    terminal at once; a transient error is retried after
    1500 * (retryCount + 1) ms while the count is below 5; any other
    after 2000 ms while it is below 3; beyond that the error is
    terminal.  Both connection flags are cleared in every case. *)
Theorem GoalCollector_error_policy (errStr : string) (r : Run) (c : Component) :
  mounted r = true →
  let unavailable :=
    includes "not implemented" errStr || includes "not supported" errStr
    || includes "404" errStr in
  let transient :=
    includes "Internal error" errStr || includes "Network error" errStr
    || includes "Failed to fetch" errStr || includes "503" errStr in
  let c' := onerror GoalCollector errStr r c in
  (unavailable = true → timers c' = timers c ∧ is_Some (error c')) ∧
  (unavailable = false → transient = true → (seen r < 5)%nat →
   timers c' = timers c ++ [{| delay := 1500 * inject_Z (Z.of_nat (seen r + 1));
                               action := BumpRetry |}]
   ∧ error c' = error c) ∧
  (unavailable = false → transient = false → (seen r < 3)%nat →
   timers c' = timers c ++ [{| delay := 2000; action := BumpRetry |}] ∧ error c' = error c) ∧
  (unavailable = false → ((if transient then 5 else 3) ≤ seen r)%nat →
   timers c' = timers c ∧ is_Some (error c')) ∧
  connected c' = false ∧ connectedRef c' = false.
Proof.
  intros Hm unavailable transient c'. subst c'. unfold onerror. rewrite Hm. cbn [negb].
  fold unavailable transient. destruct unavailable, transient; cbn [andb].
  all: destruct (Nat.ltb_spec (seen r) 5), (Nat.ltb_spec (seen r) 3).
  all: repeat split; try done; lia.
Qed.

Lemma GoalCollector_error_policy_witness :
  delay <$> timers (onerror GoalCollector "Network error" (newRun 2)
                      (initialComponent GoalCollector)) = [4500].
Proof.
  destruct (GoalCollector_error_policy "Network error" (newRun 2)
              (initialComponent GoalCollector)) as (_ & Hretry & _); [reflexivity|].
  destruct Hretry as [-> _]; [reflexivity | reflexivity | simpl; lia |].
  vm_compute. reflexivity.
Defined.

Lemma backoffSetup_doubles (n : nat) :
  (n < 4)%nat → backoffSetup n == 2000 * 2 ^ Z.of_nat n.
Proof.
  intros Hn. do 4 (destruct n as [| n]; [vm_compute; reflexivity |]). lia.
Qed.

Lemma backoffSetup_capped (n : nat) : (4 ≤ n)%nat → backoffSetup n == 30000.
Proof.
  intros Hn. unfold backoffSetup. apply Q.min_r.
  replace n with (n - 4 + 4)%nat by lia.
  rewrite Nat2Z.inj_add, Qpower_plus by done.
  pose proof (power_ge_1 2 (n - 4) ltac:(done)) as Hp.
  change (2 ^ Z.of_nat 4) with 16.
  generalize dependent (2 ^ Z.of_nat (n - 4)). intros x Hx. lra.
Qed.

(** X14. A failed set-up in OralEvaluator, for an error that is not about
    the microphone: the delay doubles from 2000 ms with every attempt and
    is capped at 30000 ms from the fifth on; an "unavailable" error gets
    six attempts, any other three, and then the message of the error
    becomes the terminal error. *)
Theorem OralEvaluator_setup_backoff (err : Error) (r : Run) (c : Component) :
  mounted r = true →
  message err ≠ "MICROPHONE_DENIED" →
  includes "Microphone access denied" (message err) = false →
  name err ≠ "NotAllowedError" →
  let unavailable :=
    includes "unavailable" (toLowerCase (message err))
    || includes "503" (message err) || includes "Internal error" (message err)
    || (includes "Network error" (message err) || includes "Failed to fetch" (message err)) in
  let limit := if unavailable then 6%nat else 3%nat in
  let c' := startSession_catch OralEvaluator err r c in
  ((seen r < limit)%nat →
   timers c' = timers c ++ [{| delay := backoffSetup (seen r); action := BumpRetry |}]
   ∧ error c' = error c) ∧
  ((limit ≤ seen r)%nat →
   timers c' = timers c ∧ error c' = Some (orElse (message err) "Network Error")) ∧
  (∀ n, (n < 4)%nat → backoffSetup n == 2000 * 2 ^ Z.of_nat n) ∧
  (∀ n, (4 ≤ n)%nat → backoffSetup n == 30000).
Proof.
  intros Hm Hmsg Hdenied Hname unavailable limit c'. subst c' limit.
  unfold startSession_catch. rewrite Hm. cbn [negb].
  apply String.eqb_neq in Hmsg, Hname. rewrite Hmsg, Hdenied, Hname. cbn [orb].
  fold unavailable. split; [|split; [|split]].
  - intros Hlt. apply Nat.ltb_lt in Hlt. rewrite Hlt. by destruct unavailable.
  - intros Hge. apply Nat.ltb_ge in Hge. rewrite Hge. done.
  - apply backoffSetup_doubles.
  - apply backoffSetup_capped.
Qed.

Lemma OralEvaluator_setup_backoff_witness :
  let err := newError "The service is currently unavailable." in
  delay <$> timers (startSession_catch OralEvaluator err (newRun 5)
                      (initialComponent OralEvaluator)) = [backoffSetup 5]
  ∧ backoffSetup 5 == 30000.
Proof.
  intros err.
  destruct (OralEvaluator_setup_backoff err (newRun 5) (initialComponent OralEvaluator))
    as (Hretry & _ & _ & Hcap); [reflexivity | discriminate | reflexivity | discriminate |].
  split; [|apply Hcap; lia].
  destruct Hretry as [-> _]; [simpl; lia | reflexivity].
Defined.

(** ** Failures before the microphone is asked for *)

(** X15. Without an API key no variant ever asks for the microphone, and
    the missing key is handled like a passing fault: a mounted run arms one
    retry while its count is below 3 and reports an error from 3 on.
    From the first render, the error is reported once three retry timers
    have fired, with no microphone request made. *)
Theorem missing_api_key_is_retried (v : Variant) (env : Env) (r : Run) (c : Component) :
  apiKey env = false →
  mounted r = true →
  let c' := (startSession v env r c).2 in
  gumCalls c' = gumCalls c ∧
  ((seen r < 3)%nat →
   ∃ d, timers c' = timers c ++ [{| delay := d; action := BumpRetry |}] ∧ error c' = None) ∧
  ((3 ≤ seen r)%nat → timers c' = timers c ∧ is_Some (error c')) ∧
  (∀ t1 t2 t3 : Z,
     let final := play v env [ (t1, TimerFired BumpRetry); (t2, TimerFired BumpRetry);
                               (t3, TimerFired BumpRetry) ] (mount v env) in
     is_Some (error final.2) ∧ gumCalls final.2 = 0%nat ∧ length (timers final.2) = 3%nat).
Proof.
  intros Hkey Hm c'. subst c'. unfold startSession. rewrite Hkey. cbn [negb snd].
  unfold startSession_catch. rewrite Hm. cbn [newError message name text].
  assert (toLowerCase "API Key missing" = "api key missing") as -> by (vm_compute; reflexivity).
  split; [|split; [|split]].
  - destruct v; cbn -[Nat.ltb backoff backoffSetup round pretty Qdiv Qfloor inject_Z Qmult];
      repeat case_match; reflexivity.
  - intros Hlt. apply Nat.ltb_lt in Hlt.
    destruct v; cbn -[Nat.ltb backoff backoffSetup round pretty Qdiv Qfloor inject_Z Qmult];
      rewrite Hlt; eexists; split; reflexivity.
  - intros Hge. apply Nat.ltb_ge in Hge.
    destruct v; cbn -[Nat.ltb backoff backoffSetup round pretty Qdiv Qfloor inject_Z Qmult];
      rewrite Hge; split; done.
  - intros t1 t2 t3. destruct env as [k m]. cbn in Hkey. subst k.
    destruct v, m; (split; [vm_compute; by eexists | split; vm_compute; reflexivity]).
Qed.

Lemma missing_api_key_is_retried_witness :
  let env := {| apiKey := false; mediaDevices := true |} in
  gumCalls (mount VoiceCoder env).2 = 0%nat
  ∧ length (timers (mount VoiceCoder env).2) = 1%nat.
Proof.
  intros env.
  destruct (missing_api_key_is_retried VoiceCoder env (newRun 0) (initialComponent VoiceCoder))
    as (Hgum & Hretry & _); [reflexivity | reflexivity |].
  split; [exact Hgum|].
  destruct Hretry as (d & Htimers & _); [simpl; lia|].
  unfold mount. rewrite Htimers. reflexivity.
Defined.

(** X16. GoalCollector in a browser without [getUserMedia]: the message
    it throws contains "not supported", which its own [catch] takes for
    the marker of an unavailable model.  The error shown is the one about
    the voice model, no retry is armed, and the microphone is not asked
    for. *)
Theorem GoalCollector_without_microphone_api (env : Env) (r : Run) (c : Component) :
  apiKey env = true →
  mediaDevices env = false →
  mounted r = true →
  let c' := (startSession GoalCollector env r c).2 in
  error c'
  = Some "The AI Voice Model is not available. Please check your API key project settings."
  ∧ timers c' = timers c ∧ gumCalls c' = gumCalls c.
Proof.
  intros Hkey Hmedia Hm c'. subst c'. unfold startSession. rewrite Hkey, Hmedia.
  cbn [negb snd]. unfold startSession_catch. rewrite Hm.
  split; [|split]; vm_compute; reflexivity.
Qed.

Lemma GoalCollector_without_microphone_api_witness :
  error (mount GoalCollector {| apiKey := true; mediaDevices := false |}).2
  = Some "The AI Voice Model is not available. Please check your API key project settings.".
Proof.
  apply (GoalCollector_without_microphone_api {| apiKey := true; mediaDevices := false |}
           (newRun 0) (initialComponent GoalCollector)); reflexivity.
Defined.

(** ** Which rejections count as a denied microphone *)

Section MicrophoneDenied.

Lemma prefix_append (sub s : string) :
  String.prefix sub s = true → ∃ post, s = sub +:+ post.
Proof.
  revert s. induction sub as [| a sub IH]; intros s.
  - intros _. by exists s.
  - destruct s as [| b s]; simpl; [done|]. destruct (ascii_dec a b) as [-> |]; [|done].
    intros Hp. destruct (IH _ Hp) as [post ->]. by exists post.
Qed.

Lemma denied_in_access_denied (m : string) :
  includes "Microphone access denied" m = true → includes "denied" m = true.
Proof.
  induction m as [| a m IH].
  - cbn. done.
  - destruct (String.prefix "Microphone access denied" (String a m)) eqn:Hp.
    + intros _. destruct (prefix_append _ _ Hp) as [post Heq]. rewrite Heq.
      by destruct post.
    + cbn [includes]. rewrite Hp. intros Hin. rewrite (IH Hin).
      by destruct (String.prefix "denied" (String a m)).
Qed.

Lemma orElse_nonempty (a b : string) : a ≠ "" → orElse a b = a.
Proof. unfold orElse. intros Ha. by apply String.eqb_neq in Ha as ->. Qed.

(** A rejection that fails the permission test passes none of the tests
    of the outer [catch] either. *)
Lemma not_permission_error (e : Error) :
  isPermissionError e = false →
  String.eqb (message e) "MICROPHONE_DENIED" = false
  ∧ includes "Microphone access denied" (message e) = false
  ∧ String.eqb (name e) "NotAllowedError" = false.
Proof.
  intros Hno. split; [|split].
  - destruct (String.eqb_spec (message e) "MICROPHONE_DENIED") as [Hm |]; [|done].
    unfold isPermissionError in Hno. rewrite Hm in Hno.
    assert (includes "denied" (toLowerCase (orElse "MICROPHONE_DENIED" (text e))) = true)
      as Hd by (vm_compute; reflexivity).
    rewrite Hd in Hno. by rewrite orb_true_r in Hno.
  - destruct (includes "Microphone access denied" (message e)) eqn:Hin; [|done].
    rewrite isPermissionError_intro in Hno; [done|].
    do 4 right. left. by apply denied_in_access_denied.
  - destruct (String.eqb_spec (name e) "NotAllowedError") as [Hn |]; [|done].
    rewrite isPermissionError_intro in Hno; [done|]. by left.
Qed.

End MicrophoneDenied.

(** X17. After [getUserMedia] is rejected, on a mounted run, with a value
    whose message and string form are ASCII, the error is
    MICROPHONE_DENIED exactly when the rejection passes the permission
    test of the inner [catch]; the further tests of the outer [catch] add
    no case. *)
Theorem microphone_denied_exactly_on_permission_errors
  (v : Variant) (e : Error) (r : Run) (c : Component) :
  Js.isAscii (message e) = true →
  Js.isAscii (text e) = true →
  mounted r = true →
  error c ≠ Some "MICROPHONE_DENIED" →
  error (startSession_rejected v e r c).2 = Some "MICROPHONE_DENIED"
  ↔ isPermissionError e = true.
Proof.
  intros _ _ Hm Hc. unfold startSession_rejected, rethrowMicError. cbn [snd].
  destruct (isPermissionError e) eqn:Hp.
  - split; [done | intros _]. unfold startSession_catch. by rewrite Hm.
  - split; [|done]. destruct (not_permission_error e Hp) as (Hmsg & Hacc & Hname).
    unfold startSession_catch. rewrite Hm, Hmsg, Hacc, Hname. cbn [negb orb].
    assert (∀ alt, alt ≠ "MICROPHONE_DENIED" → orElse (message e) alt ≠ "MICROPHONE_DENIED")
      as Halt.
    { intros alt Ha. unfold orElse. destruct (String.eqb (message e) ""); [done|].
      by apply String.eqb_neq. }
    destruct v; repeat case_match; cbn [error setTimeout setStatus setError]; try done.
    all: intros [= Heq]; by apply Halt in Heq.
Qed.

Lemma microphone_denied_exactly_on_permission_errors_witness :
  let busy := {| name := "NotReadableError"; message := "Could not start audio source";
                 text := "NotReadableError: Could not start audio source" |} in
  error (startSession_rejected GoalCollector busy (newRun 0)
           (initialComponent GoalCollector)).2 ≠ Some "MICROPHONE_DENIED".
Proof.
  intros busy Hdenied.
  apply (microphone_denied_exactly_on_permission_errors GoalCollector busy (newRun 0)
           (initialComponent GoalCollector)) in Hdenied;
    [| reflexivity | reflexivity | reflexivity | discriminate].
  vm_compute in Hdenied. discriminate Hdenied.
Defined.

(** ** The guardian's budget *)

Section Budget.

Import Guardian.

Implicit Types (g : SenseiCodeGuardian) (now : Z).

Lemma componentDidCatch_budget now g :
  (recoveryAttempts g ≤ MAX_RECOVERIES)%nat →
  (recoveryAttempts (componentDidCatch now g).2 ≤ MAX_RECOVERIES)%nat.
Proof.
  unfold componentDidCatch, shouldAttemptRecovery, MAX_RECOVERIES. intros Hle.
  destruct (60000 <? now - lastErrorTime g)%Z.
  - simpl. lia.
  - destruct (Nat.ltb_spec (recoveryAttempts g) 5); simpl; lia.
Qed.

Lemma componentDidCatch_within now g :
  (now - lastErrorTime g ≤ 60000)%Z →
  componentDidCatch now g
  = if (recoveryAttempts g <? MAX_RECOVERIES)%nat
    then (SilentRecovery, {| recoveryAttempts := S (recoveryAttempts g); lastErrorTime := now |})
    else (HardReset, {| recoveryAttempts := recoveryAttempts g; lastErrorTime := now |}).
Proof.
  intros Hgap. unfold componentDidCatch, shouldAttemptRecovery.
  destruct (Z.ltb_spec 60000 (now - lastErrorTime g)); [lia|].
  by destruct (recoveryAttempts g <? MAX_RECOVERIES)%nat.
Qed.

End Budget.

(** X18. The guardian never records more than MAX_RECOVERIES silent
    recoveries, whatever the times of the errors it meets; and it answers
    an error with a hard reset only when all five are recorded and the
    previous error is at most 60 seconds old. *)
Theorem recovery_budget_is_never_exceeded (times : list Z) (now : Z) :
  let g := foldl (λ g t, (Guardian.componentDidCatch t g).2) Guardian.instance times in
  (Guardian.recoveryAttempts g ≤ Guardian.MAX_RECOVERIES)%nat ∧
  ((Guardian.componentDidCatch now g).1 = Guardian.HardReset →
   Guardian.recoveryAttempts g = Guardian.MAX_RECOVERIES
   ∧ (now - Guardian.lastErrorTime g ≤ 60000)%Z).
Proof.
  intros g.
  assert (Guardian.recoveryAttempts g ≤ Guardian.MAX_RECOVERIES)%nat as Hle.
  { subst g.
    assert (Guardian.recoveryAttempts Guardian.instance ≤ Guardian.MAX_RECOVERIES)%nat as Hstart
      by apply Nat.le_0_l.
    revert Hstart. generalize Guardian.instance.
    induction times as [| t rest IH]; intros g Hg; [done|].
    cbn [foldl]. apply IH. by apply componentDidCatch_budget. }
  split; [done|]. revert Hle. generalize g. clear g. intros g Hle.
  unfold Guardian.componentDidCatch, Guardian.shouldAttemptRecovery, Guardian.MAX_RECOVERIES in *.
  destruct (Z.ltb_spec 60000 (now - Guardian.lastErrorTime g)); [done|].
  destruct (Nat.ltb_spec (Guardian.recoveryAttempts g) 5); [done|].
  intros _. split; lia.
Qed.

(** X19. The window slides.  For errors that each follow the previous one
    within 60 seconds, the guardian grants what is left of the budget and
    answers every later error with a hard reset: refused errors renew the
    time stamp, so the budget comes back only after a full quiet minute. *)
Theorem burst_of_errors_exhausts_the_budget (times : list Z) (g : Guardian.SenseiCodeGuardian) :
  closelySpaced (Guardian.lastErrorTime g) times →
  (Guardian.recoveryAttempts g ≤ Guardian.MAX_RECOVERIES)%nat →
  let left := (Guardian.MAX_RECOVERIES - Guardian.recoveryAttempts g)%nat in
  reactions times g
  = replicate (length times `min` left) Guardian.SilentRecovery
    ++ replicate (length times - left) Guardian.HardReset.
Proof.
  revert g. induction times as [| now rest IH]; intros g Hclose Hle left; [done|].
  destruct Hclose as [Hgap Hrest]. cbn [reactions].
  rewrite (componentDidCatch_within now g Hgap). subst left.
  unfold Guardian.MAX_RECOVERIES in *.
  destruct (Nat.ltb_spec (Guardian.recoveryAttempts g) 5) as [Hlt | Hge]; cbn [fst snd].
  - rewrite IH; [| done | cbn; lia]. cbn [Guardian.recoveryAttempts length].
    replace (S (length rest) `min` (5 - Guardian.recoveryAttempts g))%nat
      with (S (length rest `min` (5 - S (Guardian.recoveryAttempts g))))%nat by lia.
    replace (S (length rest) - (5 - Guardian.recoveryAttempts g))%nat
      with (length rest - (5 - S (Guardian.recoveryAttempts g)))%nat by lia.
    reflexivity.
  - rewrite IH; [| done | cbn; lia]. cbn [Guardian.recoveryAttempts length].
    replace (5 - Guardian.recoveryAttempts g)%nat with 0%nat by lia.
    rewrite !Nat.min_0_r, !Nat.sub_0_r. reflexivity.
Qed.

Lemma burst_of_errors_exhausts_the_budget_witness :
  reactions [1000; 50000; 100000; 150000; 200000; 250000; 300000]%Z Guardian.instance
  = replicate 5 Guardian.SilentRecovery ++ replicate 2 Guardian.HardReset.
Proof.
  apply (burst_of_errors_exhausts_the_budget
           [1000; 50000; 100000; 150000; 200000; 250000; 300000]%Z Guardian.instance).
  - cbn. lia.
  - cbn. lia.
Defined.

(** ** The error boundary *)

(** X20. One crash of a child under the boundary.  With budget left the
    recovery screen is shown, one timer is armed, and its callback brings
    the children back under a new key.  With the budget used up and an
    [onReset] prop, the prop is called and the children come back at once;
    without the prop the boundary stays on the recovery screen with
    nothing armed. *)
Theorem boundary_recovers_or_stays_down (onReset : bool) (now : Z) (a : GuardianAgent.Agent) :
  let a' := GuardianAgent.crash onReset now a in
  let ok := (Guardian.shouldAttemptRecovery now (GuardianAgent.guardian a)).1 in
  let key x := GuardianAgent.resetKey (GuardianAgent.state x) in
  (ok = true →
   GuardianAgent.showsChildren a' = false ∧
   GuardianAgent.recoveryTimers a' = S (GuardianAgent.recoveryTimers a) ∧
   GuardianAgent.resets a' = GuardianAgent.resets a ∧
   GuardianAgent.showsChildren (GuardianAgent.recoveryTimer a') = true ∧
   key (GuardianAgent.recoveryTimer a') = (key a + 1)%nat) ∧
  (ok = false → onReset = true →
   GuardianAgent.showsChildren a' = true ∧ key a' = (key a + 1)%nat ∧
   GuardianAgent.resets a' = S (GuardianAgent.resets a) ∧
   GuardianAgent.recoveryTimers a' = GuardianAgent.recoveryTimers a) ∧
  (ok = false → onReset = false →
   GuardianAgent.showsChildren a' = false ∧
   GuardianAgent.resets a' = GuardianAgent.resets a ∧
   GuardianAgent.recoveryTimers a' = GuardianAgent.recoveryTimers a ∧
   GuardianAgent.state a' = GuardianAgent.getDerivedStateFromError (GuardianAgent.state a)).
Proof.
  intros a' ok key. subst a' ok key.
  unfold GuardianAgent.crash, GuardianAgent.componentDidCatch. cbn [GuardianAgent.guardian].
  destruct (Guardian.shouldAttemptRecovery now (GuardianAgent.guardian a)) as [[] g];
    cbn [fst]; (split; [|split]); intros Hok; try discriminate Hok.
  - by repeat split.
  - intros ->. by repeat split.
  - intros ->. by repeat split.
Qed.

(** ** The list of learning paths *)

Section LearningPaths.

Import App.

Lemma findIndex_Some {A} (f : A → bool) (l : list A) (i : nat) :
  findIndex f l = Some i → ∃ x, l !! i = Some x ∧ f x = true.
Proof.
  revert i. induction l as [| y l IH]; intros i; [done|]. cbn [findIndex].
  destruct (f y) eqn:Hy.
  - intros [= <-]. by exists y.
  - destruct (findIndex f l) as [j |]; [|done]. intros [= <-].
    destruct (IH j eq_refl) as (x & Hx & Hfx). by exists x.
Qed.

Lemma findIndex_None {A} (f : A → bool) (l : list A) :
  findIndex f l = None → Forall (λ x, f x = false) l.
Proof.
  induction l as [| y l IH]; [by constructor|]. cbn [findIndex].
  destruct (f y) eqn:Hy; [done|].
  destruct (findIndex f l); [done|]. intros _. constructor; [done | by apply IH].
Qed.

End LearningPaths.

(** X21. The list of learning paths holds at most one entry per topic:
    the sync effect keeps topics distinct, stores the current progress
    under its topic (replacing in place or appending), leaves entries of
    other topics where they are, and does nothing without a topic or a
    logged-in user. *)
Theorem learning_paths_hold_one_entry_per_topic
  (progress : gmap string string) (isLoggedIn : bool) (prev : list (gmap string string)) :
  let next := App.syncLearningPaths progress isLoggedIn prev in
  let topicOf (p : gmap string string) := p !! "topic" in
  (NoDup (topicOf <$> prev) → NoDup (topicOf <$> next)) ∧
  (App.truthy (topicOf progress) && isLoggedIn = true →
   progress ∈ next ∧
   (topicOf <$> next = topicOf <$> prev
    ∨ next = prev ++ [progress] ∧ topicOf progress ∉ topicOf <$> prev)) ∧
  (App.truthy (topicOf progress) && isLoggedIn = false → next = prev) ∧
  (∀ p, p ∈ prev → topicOf p ≠ topicOf progress → p ∈ next).
Proof.
  intros next topicOf. subst next. unfold App.syncLearningPaths. fold (topicOf progress).
  destruct (App.truthy (topicOf progress) && isLoggedIn); [|by repeat split].
  destruct (App.findIndex _ prev) as [i |] eqn:Hfind.
  - destruct (findIndex_Some _ _ _ Hfind) as (x & Hx & Hsame).
    apply bool_decide_eq_true in Hsame. fold (topicOf x) (topicOf progress) in Hsame.
    assert (topicOf <$> <[i := progress]> prev = topicOf <$> prev) as Hkeys.
    { rewrite list_fmap_insert. apply list_insert_id. by rewrite list_lookup_fmap, Hx, <- Hsame. }
    split; [by rewrite Hkeys|]. split; [|split; [done|]].
    + intros _. split; [|by left].
      apply list_elem_of_lookup. exists i. apply list_lookup_insert_eq.
      by apply lookup_lt_Some in Hx.
    + intros p [j Hj]%list_elem_of_lookup Hne. apply list_elem_of_lookup. exists j.
      rewrite list_lookup_insert_ne; [done|]. intros <-. congruence.
  - apply findIndex_None in Hfind.
    assert (topicOf progress ∉ topicOf <$> prev) as Hfresh.
    { intros (x & Heq & Hin)%list_elem_of_fmap.
      rewrite Forall_forall in Hfind. apply Hfind in Hin.
      apply bool_decide_eq_false in Hin. by apply Hin. }
    split; [|split; [|split; [done|]]].
    + intros Hnd. rewrite fmap_app. apply NoDup_app. split; [done|]. split.
      * intros k Hk ->%list_elem_of_singleton. done.
      * apply NoDup_singleton.
    + intros _. split; [|by right]. apply elem_of_app. right. apply list_elem_of_here.
    + intros p Hp _. apply elem_of_app. by left.
Qed.

(** X22. [updateProgress] merges: the keys of the update win, all other
    keys keep their value; an absent update changes nothing; applying an
    update twice equals applying it once; two updates in a row equal the
    one update that merges them, the later winning. *)
Theorem progress_updates_merge (a b : option Args) (prev : gmap string string) :
  (∀ k, App.updateProgress a prev !! k
        = match a ≫= (.!! k) with Some x => Some x | None => prev !! k end) ∧
  App.updateProgress None prev = prev ∧
  App.updateProgress a (App.updateProgress a prev) = App.updateProgress a prev ∧
  App.updateProgress b (App.updateProgress a prev)
  = App.updateProgress (Some (default ∅ b ∪ default ∅ a)) prev.
Proof.
  unfold App.updateProgress. split; [|split; [|split]].
  - intros k. rewrite lookup_union. destruct a as [m |]; cbn.
    + destruct (m !! k), (prev !! k); done.
    + rewrite lookup_empty. by destruct (prev !! k).
  - cbn. by rewrite (left_id_L ∅ (∪)).
  - by rewrite (assoc_L (∪)), (idemp_L (∪)).
  - cbn. by rewrite (assoc_L (∪)).
Qed.

(** ** The planner *)

Section PlannerFacts.

Import Planner.

Lemma markStatus_cons (l : gmap string string) (ls : list (gmap string string)) :
  markStatus (l :: ls)
  = <["status" := "active"]> l :: ((λ x, <["status" := "pending"]> x) <$> ls).
Proof.
  unfold markStatus. rewrite imap_cons. f_equal.
  rewrite <- (imap_const _ ls). by apply imap_ext.
Qed.

Lemma attempts_inv (left attempt : nat) (ai : nat → Attempt) :
  (left + attempt = 3)%nat →
  let final := attempts left attempt ai in
  (final.2 ≤ 3)%nat ∧
  match final.1 with
  | Ok data =>
      ∃ k d, (attempt ≤ k)%nat ∧ final.2 = S k ∧ ai k = Answers d ∧ topic data = topic d
             ∧ (∃ l ls, lessons d = Some (l :: ls)
                        ∧ lessons data
                          = Some (<["status" := "active"]> l
                                  :: ((λ x, <["status" := "pending"]> x) <$> ls)))
             ∧ ∀ j d', (attempt ≤ j < k)%nat → ai j = Answers d' →
                       lessons d' = None ∨ lessons d' = Some []
  | Throw e =>
      final.2 = 3%nat ∧ (ai 2%nat = Rejects e ∨ e = newError "Failed to generate syllabus")
  end.
Proof.
  revert attempt. induction left as [| left IH]; intros attempt Hsum; cbn [attempts].
  - cbn. split; [lia|]. split; [lia | by right].
  - specialize (IH (S attempt) ltac:(lia)). cbn zeta in IH.
    assert ((∀ d', ai attempt = Answers d' → lessons d' = None ∨ lessons d' = Some []) →
            (attempts left (S attempt) ai).2 ≤ 3
            ∧ match (attempts left (S attempt) ai).1 with
              | Ok data =>
                  ∃ k d, (attempt ≤ k)%nat ∧ (attempts left (S attempt) ai).2 = S k
                         ∧ ai k = Answers d ∧ topic data = topic d
                         ∧ (∃ l ls, lessons d = Some (l :: ls)
                                    ∧ lessons data
                                      = Some (<["status" := "active"]> l
                                              :: ((λ x, <["status" := "pending"]> x) <$> ls)))
                         ∧ ∀ j d', (attempt ≤ j < k)%nat → ai j = Answers d' →
                                   lessons d' = None ∨ lessons d' = Some []
              | Throw e =>
                  (attempts left (S attempt) ai).2 = 3%nat
                  ∧ (ai 2%nat = Rejects e ∨ e = newError "Failed to generate syllabus")
              end) as Hnext.
    { intros Hhere. destruct IH as [Hle IH]. split; [done|].
      destruct (attempts left (S attempt) ai).1 as [data | e]; [|done].
      destruct IH as (k & d & Hk & Htrips & Hai & Htopic & Hless & Hearlier).
      exists k, d. repeat split; try done; [lia|].
      intros j d' Hj Hj'. destruct (decide (j = attempt)) as [-> | Hne].
      - by apply Hhere.
      - apply (Hearlier j d'); [lia | done]. }
    destruct (ai attempt) as [e | data] eqn:Hai.
    + destruct (Nat.eqb_spec attempt 2) as [-> | Hne].
      * cbn. split; [lia|]. split; [done | by left].
      * apply Hnext. intros d' Hd'. done.
    + destruct (lessons data) as [[| l ls] |] eqn:Hl.
      * apply Hnext. intros d' [= <-]. by right.
      * cbn [fst snd]. split; [lia|]. exists attempt, data. rewrite markStatus_cons.
        repeat split; try done; [by exists l, ls | intros j d' Hj; lia].
      * apply Hnext. intros d' [= <-]. by left.
Qed.

End PlannerFacts.

(** X23. [generateSyllabus] makes at most three round trips, none without
    an API key.  When it resolves, the answer it used is the first one
    with a non-empty lesson list, returned with the first lesson active
    and all others pending; when it rejects, three round trips were made
    and the error is that of the third or "Failed to generate syllabus". *)
Theorem syllabus_generation_outcomes (apiKey : bool) (ai : nat → Planner.Attempt) :
  let final := Planner.generateSyllabus apiKey ai in
  (final.2 ≤ 3)%nat ∧
  (apiKey = false → final = (Throw (newError "API Key missing"), 0%nat)) ∧
  (apiKey = true →
   match final.1 with
   | Ok data =>
       ∃ k d, final.2 = S k ∧ ai k = Planner.Answers d
              ∧ Planner.topic data = Planner.topic d
              ∧ (∃ l ls, Planner.lessons d = Some (l :: ls)
                         ∧ Planner.lessons data
                           = Some (<["status" := "active"]> l
                                   :: ((λ x, <["status" := "pending"]> x) <$> ls)))
              ∧ ∀ j d', (j < k)%nat → ai j = Planner.Answers d' →
                        Planner.lessons d' = None ∨ Planner.lessons d' = Some []
   | Throw e =>
       final.2 = 3%nat
       ∧ (ai 2%nat = Planner.Rejects e ∨ e = newError "Failed to generate syllabus")
   end).
Proof.
  intros final. subst final. unfold Planner.generateSyllabus.
  destruct apiKey; cbn [negb].
  - pose proof (attempts_inv 3 0 ai eq_refl) as [Hle Hspec]. split; [done|]. split; [done|].
    intros _. destruct (Planner.attempts 3 0 ai).1 as [data | e]; [|done].
    destruct Hspec as (k & d & _ & Htrips & Hai & Htopic & Hless & Hearlier).
    exists k, d. repeat split; try done. intros j d' Hj. apply Hearlier. lia.
  - cbn. split; [lia|]. split; done.
Qed.

Lemma generateSyllabus_lessons (apiKey : bool) (ai : nat → Planner.Attempt)
  (data : Planner.SyllabusData) :
  (Planner.generateSyllabus apiKey ai).1 = Ok data →
  ∃ l ls, Planner.lessons data
          = Some (<["status" := "active"]> l :: ((λ x, <["status" := "pending"]> x) <$> ls)).
Proof.
  unfold Planner.generateSyllabus. destruct apiKey; cbn [negb]; [|done].
  pose proof (attempts_inv 3 0 ai eq_refl) as [_ Hspec]. cbn zeta in Hspec.
  intros Hres. rewrite Hres in Hspec.
  destruct Hspec as (k & d & _ & _ & _ & _ & (l & ls & _ & Hless) & _). by exists l, ls.
Qed.

Lemma orElse_never_empty (a b : string) : b ≠ "" → orElse a b ≠ "".
Proof. intros Hb. unfold orElse. by destruct (String.eqb_spec a ""). Qed.

(** X24. [startNewTopic] always settles on the dashboard with generation
    switched off, a syllabus of at least one lesson whose first lesson is
    active and whose others are pending, a progress of 0 percent and a
    non-empty subtopic; without an API key this is the built-in fallback
    syllabus for the topic asked for. *)
Theorem new_topic_always_lands_on_a_syllabus
  (apiKey : bool) (ai : nat → Planner.Attempt) (topic : string) (st : Navigation.AppState) :
  let st' := Navigation.startNewTopic apiKey ai topic st in
  Navigation.page st' = Navigation.DASHBOARD ∧
  Navigation.isGenerating st' = false ∧
  (∃ data l ls,
     Navigation.syllabus st' = Some data ∧ Planner.lessons data = Some (l :: ls)
     ∧ l !! "status" = Some "active"
     ∧ Forall (λ x : gmap string string, x !! "status" = Some "pending") ls) ∧
  Navigation.progress st' !! "percentage" = Some "0" ∧
  (∃ s, Navigation.progress st' !! "subtopic" = Some s ∧ s ≠ "") ∧
  (apiKey = false →
   Navigation.syllabus st' = Some (Navigation.fallbackSyllabus topic)
   ∧ Navigation.progress st' !! "topic" = Some topic).
Proof.
  intros st'. subst st'. unfold Navigation.startNewTopic.
  destruct (Planner.generateSyllabus apiKey ai).1 as [data | e] eqn:Hres;
    cbn [Navigation.page Navigation.isGenerating Navigation.syllabus Navigation.progress].
  - destruct (generateSyllabus_lessons apiKey ai data Hres) as (l & ls & Hless).
    split; [done|]. split; [done|]. split; [|split; [|split]].
    4: { intros ->. discriminate Hres. }
    + eexists data, _, _. split; [done|]. split; [exact Hless|].
      split; [by rewrite lookup_insert_eq|].
      apply Forall_fmap, Forall_forall. intros x _. cbn. by rewrite lookup_insert_eq.
    + unfold Navigation.progressOf. by destruct (Planner.topic data).
    + eexists. split.
      * unfold Navigation.progressOf. by destruct (Planner.topic data).
      * by apply orElse_never_empty.
  - split; [done|]. split; [done|]. split; [|split; [|split]].
    + eexists _, _, _. split; [done|]. split; [done|]. split; [done|].
      repeat constructor.
    + done.
    + by eexists.
    + done.
Qed.

(** ** Progress through an exam plan *)

Section ExamProgress.

Import ExamPortal.

Implicit Types (cs : list string) (acc : nat * nat).

Lemma count_chapter cs acc (chap : list string) :
  foldl (count cs) acc chap
  = ((acc.1 + length chap)%nat, (acc.2 + length (filter (λ top, top ∈ cs) chap))%nat).
Proof.
  revert acc. induction chap as [| top chap IH]; intros [t c].
  - cbn. f_equal; lia.
  - cbn [foldl]. rewrite IH. unfold count. cbn [fst snd length].
    rewrite filter_cons. destruct (decide (top ∈ cs)) as [Hin | Hout].
    + rewrite bool_decide_eq_true_2 by done. cbn [length]. f_equal; lia.
    + rewrite bool_decide_eq_false_2 by done. f_equal; lia.
Qed.

Lemma count_subject cs acc (sub : list (list string)) :
  foldl (λ acc chap, foldl (count cs) acc chap) acc sub
  = ((acc.1 + length (concat sub))%nat,
     (acc.2 + length (filter (λ top, top ∈ cs) (concat sub)))%nat).
Proof.
  revert acc. induction sub as [| chap sub IH]; intros [t c].
  - cbn. f_equal; lia.
  - cbn [foldl concat]. rewrite IH, count_chapter. cbn [fst snd].
    rewrite filter_app, !length_app. f_equal; lia.
Qed.

Lemma tally_flat cs (subjects : Subjects) :
  tally cs subjects
  = (length (concat (concat subjects)),
     length (filter (λ top, top ∈ cs) (concat (concat subjects)))).
Proof.
  unfold tally.
  assert (∀ acc,
            foldl (λ acc sub, foldl (λ acc chap, foldl (count cs) acc chap) acc sub) acc subjects
            = ((acc.1 + length (concat (concat subjects)))%nat,
               (acc.2 + length (filter (λ top, top ∈ cs) (concat (concat subjects))))%nat))
    as Hgen.
  { induction subjects as [| sub subjects IH]; intros [t c].
    - cbn. f_equal; lia.
    - cbn [foldl concat]. rewrite IH, count_subject. cbn [fst snd].
      rewrite concat_app, filter_app, !length_app. f_equal; lia. }
  by rewrite Hgen.
Qed.

Lemma double_one : Js.double 1 == 1.
Proof. apply (representable_isDouble 1 (representable_Z 1 ltac:(lia))). Qed.

Lemma double_hundred : Js.double 100 == 100.
Proof. apply (representable_isDouble 100 (representable_Z 100 ltac:(lia))). Qed.

(** The quotient of the counters and its product with 100, as computed. *)
Lemma percentage_bounds (completed total : nat) :
  (completed ≤ total)%nat → (0 < total)%nat →
  0 <= Js.mul (Js.div (inject_Z (Z.of_nat completed)) (inject_Z (Z.of_nat total))) 100
  ∧ Js.mul (Js.div (inject_Z (Z.of_nat completed)) (inject_Z (Z.of_nat total))) 100 <= 100.
Proof.
  intros Hle Hpos. unfold Js.mul, Js.div.
  assert (0 < inject_Z (Z.of_nat total)) as Htotal.
  { change 0 with (inject_Z 0). rewrite <- Zlt_Qlt. lia. }
  assert (0 <= inject_Z (Z.of_nat completed) / inject_Z (Z.of_nat total)) as Hlow.
  { apply Qle_shift_div_l; [done|]. rewrite Qmult_0_l.
    change 0 with (inject_Z 0). rewrite <- Zle_Qle. lia. }
  assert (inject_Z (Z.of_nat completed) / inject_Z (Z.of_nat total) <= 1) as Hhigh.
  { apply Qle_shift_div_r; [done|]. rewrite Qmult_1_l. rewrite <- Zle_Qle. lia. }
  generalize dependent (inject_Z (Z.of_nat completed) / inject_Z (Z.of_nat total)).
  intros x Hlow Hhigh.
  pose proof (double_nonneg x Hlow) as Hq0.
  pose proof (double_upper x 1 (representable_Z 1 ltac:(lia)) Hlow Hhigh) as Hq1.
  change (inject_Z 1) with 1 in Hq1. split.
  - apply double_nonneg. lra.
  - apply (double_upper _ 100 (representable_Z 100 ltac:(lia))); [lra|].
    change (inject_Z 100) with 100. lra.
Qed.

End ExamProgress.

(** X25. [calculateProgress] is a percentage: with fewer than [2 ^ 53]
    topics in the plan it is between 0 and 100, equal to 100 when the
    plan has topics and all are completed, and 0 when none is (or there
    is no plan). *)
Theorem exam_progress_is_a_percentage
  (examData : option ExamPortal.Subjects) (completedTopics : list string) :
  (Z.of_nat (length (concat (concat (default [] examData)))) < 2 ^ 53)%Z →
  let topics := concat (concat (default [] examData)) in
  (0 ≤ ExamPortal.calculateProgress examData completedTopics ≤ 100)%Z ∧
  (topics ≠ [] → Forall (λ top, top ∈ completedTopics) topics →
   ExamPortal.calculateProgress examData completedTopics = 100%Z) ∧
  (Forall (λ top, top ∉ completedTopics) topics →
   ExamPortal.calculateProgress examData completedTopics = 0%Z).
Proof.
  intros _ topics. subst topics. unfold ExamPortal.calculateProgress.
  destruct examData as [subjects |]; cbn [default]; unfold id; [|by repeat split].
  rewrite tally_flat. set (topics := concat (concat subjects)).
  destruct (Nat.eqb_spec (length topics) 0) as [Hzero | Hpos].
  { split; [done|]. split; [|done]. intros Hne. by apply length_zero_iff_nil in Hzero. }
  split; [|split].
  - destruct (percentage_bounds (length (filter (λ top, top ∈ completedTopics) topics))
                (length topics)) as [Hlow Hhigh]; [apply length_filter | lia |].
    unfold round. split.
    + apply (Z.le_trans _ (Qfloor 0)); [done | apply Qfloor_resp_le; lra].
    + apply (Z.le_trans _ (Qfloor (100 + (1 # 2)))); [apply Qfloor_resp_le; lra | done].
  - intros _ Hall.
    assert (filter (λ top, top ∈ completedTopics) topics = topics) as ->.
    { clear Hpos. induction Hall as [| top rest Hin _ IH]; [done|].
      rewrite filter_cons, decide_True by done. by rewrite IH. }
    assert (inject_Z (Z.of_nat (length topics)) / inject_Z (Z.of_nat (length topics)) == 1)
      as Hone.
    { field. change 0 with (inject_Z 0). rewrite inject_Z_injective. lia. }
    assert (Js.mul (Js.div (inject_Z (Z.of_nat (length topics)))
                      (inject_Z (Z.of_nat (length topics)))) 100 == 100) as Heq.
    { unfold Js.mul, Js.div. rewrite Hone, double_one.
      assert (1 * 100 == 100) as -> by ring. apply double_hundred. }
    unfold round. by rewrite Heq.
  - intros Hnone.
    assert (filter (λ top, top ∈ completedTopics) topics = []) as ->.
    { clear Hpos. induction Hnone as [| top rest Hout _ IH]; [done|].
      rewrite filter_cons, decide_False by done. exact IH. }
    cbn [length Z.of_nat].
    assert (Js.mul (Js.div (inject_Z 0) (inject_Z (Z.of_nat (length topics)))) 100 == 0) as Heq.
    { unfold Js.mul, Js.div.
      rewrite (double_zero (inject_Z 0 / inject_Z (Z.of_nat (length topics)))).
      - by rewrite double_zero.
      - unfold Qdiv. change (inject_Z 0) with 0. ring. }
    unfold round. by rewrite Heq.
Qed.

(** 23 of 40 topics: the quotient 0.575 is not a double, its product
    with 100 comes out just below 57.5 and is rounded to 57. *)
Lemma exam_progress_is_a_percentage_witness :
  let plan := Some [[(λ n, String (ascii_of_nat (48 + n)) "") <$> seq 0 40]] in
  let completed := (λ n, String (ascii_of_nat (48 + n)) "") <$> seq 0 23 in
  ExamPortal.calculateProgress plan completed = 57%Z
  ∧ (0 ≤ ExamPortal.calculateProgress plan completed ≤ 100)%Z.
Proof.
  intros plan completed. split; [vm_compute; reflexivity|].
  apply (exam_progress_is_a_percentage plan completed). vm_compute. reflexivity.
Defined.

(** ** Generating a resource *)

Section ResourceGeneration.

Import Resources.

Context (apiKey : bool) (ai : nat → Reply) (ty : ResourceType) (topic : string).

Lemma request_cases (g : Generation) :
  (∃ text, text ≠ "" ∧ apiKey = true ∧ ai (roundTrips g) = Replies text
           ∧ request apiKey ai g = (Ok text, asked g))
  ∨ (∃ e, request apiKey ai g = (Throw e, if apiKey then asked g else g)).
Proof.
  unfold request. destruct apiKey; cbn [negb]; [|right; by eexists].
  destruct (ai (roundTrips g)) as [e | text]; [right; by eexists|].
  destruct (String.eqb_spec text ""); [right; by eexists|].
  left. by exists text.
Qed.

Lemma retryLoop_inv (left retryCount : nat) (g : Generation) :
  (left + retryCount = 3)%nat →
  let g' := retryLoop left retryCount apiKey ai ty topic g in
  isGenerating g' = isGenerating g ∧
  (roundTrips g ≤ roundTrips g' ≤ roundTrips g + left)%nat ∧
  (∃ k, sleeps g' = sleeps g ++ take k (pauses retryCount)) ∧
  ((∃ text,
      text ≠ "" ∧ ai (roundTrips g' - 1)%nat = Replies text
      ∧ currentResource g'
        = Some {| type := ty; title := titlePrefix ty +:+ ": " +:+ topic;
                  content := text |}
      ∧ alerts g' = alerts g)
   ∨ (currentResource g' = currentResource g
      ∧ ((0 < left)%nat → ∃ msg, alerts g' = alerts g ++ [msg])
      ∧ sleeps g' = sleeps g ++ pauses retryCount
      ∧ roundTrips g' = if apiKey then (roundTrips g + left)%nat else roundTrips g)).
Proof.
  revert retryCount g. induction left as [| left IH]; intros retryCount g Hsum g'; subst g'.
  - cbn [retryLoop]. replace retryCount with 3%nat by lia.
    split; [done|]. split; [lia|]. split; [exists 0%nat; by rewrite app_nil_r|].
    right. split; [done|]. split; [lia|]. split; [by rewrite app_nil_r|].
    destruct apiKey; lia.
  - cbn [retryLoop]. destruct (request_cases g) as [(text & Htext & Hkey & Hai & ->) | (e & ->)].
    + cbn. split; [done|]. split; [lia|]. split; [exists 0%nat; by rewrite app_nil_r|].
      left. exists text. rewrite Nat.sub_0_r. by repeat split.
    + set (g1 := if apiKey then asked g else g).
      assert (isGenerating g1 = isGenerating g ∧ currentResource g1 = currentResource g
              ∧ alerts g1 = alerts g ∧ sleeps g1 = sleeps g
              ∧ roundTrips g1 = if apiKey then S (roundTrips g) else roundTrips g)
        as (Hgen & Hres & Hal & Hsl & Hrt) by (subst g1; by destruct apiKey).
      destruct (Nat.eqb_spec (S retryCount) 3) as [Hlast | Hmore].
      * assert (left = 0%nat) as -> by lia. cbn [retryLoop].
        replace retryCount with 2%nat by lia. cbn [alert isGenerating roundTrips sleeps
          currentResource alerts]. rewrite Hgen, Hres, Hal, Hsl, Hrt.
        split; [done|]. split; [destruct apiKey; lia|].
        split; [exists 0%nat; by rewrite app_nil_r|].
        right. split; [done|]. split; [intros _; by eexists|].
        split; [by rewrite app_nil_r|]. destruct apiKey; lia.
      * specialize (IH (S retryCount) (sleep (1000 * 2 ^ Z.of_nat (S retryCount)) g1)
                      ltac:(lia)).
        cbn zeta in IH. cbn [sleep isGenerating roundTrips sleeps currentResource alerts] in IH.
        rewrite Hgen, Hres, Hal, Hsl, Hrt in IH.
        destruct IH as (Hgen' & Hrt' & (k & Hsl') & Hend).
        assert (pauses retryCount
                = 1000 * 2 ^ Z.of_nat (S retryCount) :: pauses (S retryCount)) as Hp.
        { unfold pauses. replace (2 - retryCount)%nat with (S (2 - S retryCount)) by lia.
          reflexivity. }
        split; [done|]. split; [destruct apiKey; lia|].
        split; [exists (S k); by rewrite Hsl', Hp, <- (assoc_L (++))|].
        destruct Hend as [(text & Htext & Hai & Hcur & Halerts) | (Hcur & Halerts & Hs & Hr)].
        -- left. by exists text.
        -- right. split; [done|]. split; [intros _; apply Halerts; lia|].
           split; [by rewrite Hs, Hp, <- (assoc_L (++))|]. destruct apiKey; lia.
Qed.

End ResourceGeneration.

(** X26. [handleGenerateResource] does nothing while a generation is
    running.  Otherwise it ends with [isGenerating] false after at most
    three round trips and waits of 2000 and then 4000 ms between them,
    and either the resource is set to a non-empty answer and nobody is
    alerted, or the resource is untouched and exactly one alert is
    raised, after both waits. *)
Theorem resource_generation_ends
  (apiKey : bool) (ai : nat → Resources.Reply) (type : Resources.ResourceType)
  (topic : string) (g : Resources.Generation) :
  let g' := Resources.handleGenerateResource apiKey ai type topic g in
  (Resources.isGenerating g = true → g' = g) ∧
  (Resources.isGenerating g = false →
   Resources.isGenerating g' = false ∧
   (Resources.roundTrips g ≤ Resources.roundTrips g' ≤ Resources.roundTrips g + 3)%nat ∧
   (∃ k, Resources.sleeps g' = Resources.sleeps g ++ take k [2000; 4000]) ∧
   ((∃ text,
       text ≠ "" ∧ ai (Resources.roundTrips g' - 1)%nat = Resources.Replies text
       ∧ Resources.currentResource g'
         = Some {| Resources.type := type;
                   Resources.title := Resources.titlePrefix type +:+ ": " +:+ topic;
                   Resources.content := text |}
       ∧ Resources.alerts g' = Resources.alerts g)
    ∨ (Resources.currentResource g' = Resources.currentResource g
       ∧ (∃ msg, Resources.alerts g' = Resources.alerts g ++ [msg])
       ∧ Resources.sleeps g' = Resources.sleeps g ++ [2000; 4000]
       ∧ Resources.roundTrips g'
         = if apiKey then (Resources.roundTrips g + 3)%nat else Resources.roundTrips g))).
Proof.
  intros g'. subst g'. unfold Resources.handleGenerateResource.
  destruct (Resources.isGenerating g) eqn:Hbusy; (split; [done|]); intros Hidle;
    [discriminate Hidle|].
  pose proof (retryLoop_inv apiKey ai type topic 3 0 (Resources.setIsGenerating true g) eq_refl)
    as (Hgen & Hrt & Hsl & Hend).
  cbn zeta in *. change (pauses 0) with [2000; 4000] in *.
  cbn [Resources.setIsGenerating Resources.isGenerating Resources.roundTrips Resources.sleeps
       Resources.currentResource Resources.alerts] in *.
  split; [done|]. split; [done|]. split; [done|].
  destruct Hend as [Hok | (Hcur & Halerts & Hs & Hr)]; [by left | right].
  split; [done|]. split; [apply Halerts; lia | done].
Qed.
